(** * Axon-Go: the knowledge graph, the dead-code phase, the walker, the
      retrieval layer and the pipeline order, embedded in Rocq.

    Go maps become [gmap]s, Go pointers to nodes become the node's key in
    the graph's node table (the table is the heap the pointers point into),
    and every Go [range] over a map goes through [range], whose order is a
    parameter of the whole development. *)

From Stdlib Require Import ZArith QArith Reals Lra Lia Ascii String List.
From Stdlib Require Import Sorting.Permutation Sorting.Sorted.
From stdpp Require Import gmap strings list fin_maps.

Set Default Proof Using "Type".
#[local] Open Scope string_scope.

(** ** Go's map iteration order

    The Go specification leaves the order of [for k, v := range m]
    unspecified and the runtime randomises it.  [range_order] stands for
    whatever the runtime does to the entries of a map before a loop sees
    them; all that is known is that it permutes them. *)
Class MapRange := {
  range_order : ∀ A : Type, list A → list A;
  range_order_perm : ∀ (A : Type) (l : list A), range_order A l ≡ₚ l
}.

(** The runtime that yields the entries in [map_to_list] order. *)
#[local] Program Instance plain_range : MapRange := {| range_order := λ _ l, l |}.
Next Obligation. reflexivity. Qed.

Definition range `{MapRange} {A} (m : gmap string A) : list (string * A) :=
  range_order _ (map_to_list m).

(** ** The functions of Go's [strings] package that the analyses call.
    Go strings are byte sequences, and so are Rocq's. *)
Module strings.

Definition HasPrefix (s prefix : string) : bool := String.prefix prefix s.

Definition HasSuffix (s suffix : string) : bool :=
  (String.length suffix <=? String.length s)%nat
  && String.eqb (String.substring (String.length s - String.length suffix)
                                  (String.length suffix) s) suffix.

Fixpoint Contains (s substr : string) : bool :=
  String.prefix substr s
  || match s with
     | EmptyString => false
     | String _ s' => Contains s' substr
     end.

(** [ToLower].  An ASCII upper-case letter becomes its lower-case letter.
    Two runes outside ASCII have an ASCII lower case and become it: U+0130,
    the bytes C4 B0, becomes [i], and U+212A, the bytes E2 84 AA, becomes
    [k]; a byte C4 or E2 always starts a rune, so these byte sequences
    are these runes wherever they stand.  The lower case of every other
    rune outside ASCII lies outside ASCII too, as does the replacement of a
    byte that is not UTF-8: those bytes are kept here as they are, so that
    the result has the same ASCII bytes, between the same runs of other
    bytes, as the result of [strings.ToLower]. *)
Definition lower_ascii (c : ascii) : ascii :=
  let n := nat_of_ascii c in
  if (65 <=? n)%nat && (n <=? 90)%nat then ascii_of_nat (n + 32) else c.

Fixpoint ToLower (s : string) : string :=
  match s with
  | EmptyString => EmptyString
  | String "196" (String "176" s') => String "i" (ToLower s')
  | String "226" (String "132" (String "170" s')) => String "k" (ToLower s')
  | String c s' => String (lower_ascii c) (ToLower s')
  end.

(** [FieldsFunc]: the maximal runs of bytes that [f] does not hold of;
    [cur] is the run being read. *)
Fixpoint FieldsFunc_from (f : ascii → bool) (s cur : string) : list string :=
  match s with
  | EmptyString => if String.eqb cur "" then [] else [cur]
  | String c s' =>
      if f c
      then if String.eqb cur "" then FieldsFunc_from f s' ""
           else cur :: FieldsFunc_from f s' ""
      else FieldsFunc_from f s' (cur ++ String c "")
  end.

Definition FieldsFunc (s : string) (f : ascii → bool) : list string :=
  FieldsFunc_from f s "".

End strings.

(** ** [Clean] and [Join] of Go's [path/filepath], for the slash-separated
    paths of Unix *)
Module filepath.

Definition is_separator (c : ascii) : bool := Ascii.eqb c "/".

(** [Clean] reads the elements of a path from left to right and keeps a
    stack of them, [kept], the last one first: an empty element and [.]
    are dropped, [..] takes away the element before it, unless there is
    none or it is [..] itself; then [..] is dropped at the root and kept
    elsewhere. *)
Definition clean_step (rooted : bool) (kept : list string) (elem : string) :
    list string :=
  if String.eqb elem "." then kept
  else if String.eqb elem ".."
       then match kept with
            | top :: below => if String.eqb top ".." then elem :: kept else below
            | [] => if rooted then [] else [elem]
            end
       else elem :: kept.

Definition Clean (path : string) : string :=
  let rooted := strings.HasPrefix path "/" in
  let kept := foldl (clean_step rooted) [] (strings.FieldsFunc path is_separator) in
  let out := (if rooted then "/" else "") ++ String.concat "/" (reverse kept) in
  if String.eqb out "" then "." else out.

(** [Join(path, name)]: the elements that are not empty, joined by a
    slash, and the result cleaned. *)
Definition Join (path name : string) : string :=
  if String.eqb path ""
  then if String.eqb name "" then "" else Clean name
  else Clean (path ++ "/" ++ name).

End filepath.

(** ** The graph data model (package graph) *)
Module Graph.

Definition NodeLabel := string.
Definition NodeFile : NodeLabel := "file".
Definition NodeFolder : NodeLabel := "folder".
Definition NodeFunction : NodeLabel := "function".
Definition NodeClass : NodeLabel := "class".
Definition NodeMethod : NodeLabel := "method".
Definition NodeInterface : NodeLabel := "interface".
Definition NodeTypeAlias : NodeLabel := "type_alias".
Definition NodeEnum : NodeLabel := "enum".
Definition NodeCommunity : NodeLabel := "community".
Definition NodeProcess : NodeLabel := "process".

Definition RelType := string.
Definition RelContains : RelType := "contains".
Definition RelDefines : RelType := "defines".
Definition RelCalls : RelType := "calls".
Definition RelImports : RelType := "imports".
Definition RelExtends : RelType := "extends".
Definition RelImplements : RelType := "implements".
Definition RelMemberOf : RelType := "member_of".
Definition RelStepInProcess : RelType := "step_in_process".
Definition RelUsesType : RelType := "uses_type".
Definition RelExports : RelType := "exports".
Definition RelCoupledWith : RelType := "coupled_with".

(** Go's [any], restricted to the dynamic types the analyses store in and
    read from [Properties]. *)
Inductive any :=
  | AnyBool (b : bool)
  | AnyString (s : string)
  | AnyInt (z : Z).

Record GraphNode := {
  ID : string;
  Label : NodeLabel;
  Name : string;
  FilePath : string;
  StartLine : Z;
  EndLine : Z;
  Content : string;
  Signature : string;
  Language : string;
  ClassName : string;
  IsDead : bool;
  IsEntryPoint : bool;
  IsExported : bool;
  Decorators : list string;
  Properties : gmap string any
}.

Record GraphRelationship := {
  rID : string;
  rType : RelType;
  Source : string;
  Target : string;
  rProperties : gmap string any
}.

(** [KnowledgeGraph]: the two primary maps and the four secondary indexes.
    [byLabel] holds, per label, the keys of the nodes filed under it: in the
    source its entries are the very pointers stored in [nodes]. *)
Record KnowledgeGraph := {
  nodes : gmap string GraphNode;
  relationships : gmap string GraphRelationship;
  byLabel : gmap string (gset string);
  byRelType : gmap string (gmap string GraphRelationship);
  outgoing : gmap string (gmap string GraphRelationship);
  incoming : gmap string (gmap string GraphRelationship)
}.

Definition NewKnowledgeGraph : KnowledgeGraph :=
  {| nodes := ∅; relationships := ∅; byLabel := ∅;
     byRelType := ∅; outgoing := ∅; incoming := ∅ |}.

Definition with_nodes (g : KnowledgeGraph) ns : KnowledgeGraph :=
  {| nodes := ns; relationships := relationships g; byLabel := byLabel g;
     byRelType := byRelType g; outgoing := outgoing g; incoming := incoming g |}.

(** [delete(m[k1], k2)]: deleting from a missing (nil) inner map does
    nothing, and an emptied inner map stays in the outer one. *)
Definition delete_in {A} (k1 k2 : string) (m : gmap string (gmap string A)) :
    gmap string (gmap string A) :=
  alter (delete k2) k1 m.

(** [if m[k1] == nil { m[k1] = make(...) }; m[k1][k2] = v]. *)
Definition insert_in {A} (k1 k2 : string) (v : A) (m : gmap string (gmap string A)) :
    gmap string (gmap string A) :=
  <[k1 := <[k2 := v]> (default ∅ (m !! k1))]> m.

Definition AddNode (node : GraphNode) (g : KnowledgeGraph) : KnowledgeGraph :=
  let bl :=
    match nodes g !! ID node with
    | Some old =>
        if decide (Label old ≠ Label node)
        then alter (λ s, s ∖ {[ID node]}) (Label old) (byLabel g)
        else byLabel g
    | None => byLabel g
    end in
  {| nodes := <[ID node := node]> (nodes g);
     relationships := relationships g;
     byLabel := <[Label node := {[ID node]} ∪ default ∅ (bl !! Label node)]> bl;
     byRelType := byRelType g; outgoing := outgoing g; incoming := incoming g |}.

Definition GetNode (nodeID : string) (g : KnowledgeGraph) : option GraphNode :=
  nodes g !! nodeID.

Definition AddRelationship (rel : GraphRelationship) (g : KnowledgeGraph) : KnowledgeGraph :=
  let '(bt, out, inc) :=
    match relationships g !! rID rel with
    | Some old =>
        (delete_in (rType old) (rID rel) (byRelType g),
         delete_in (Source old) (rID rel) (outgoing g),
         delete_in (Target old) (rID rel) (incoming g))
    | None => (byRelType g, outgoing g, incoming g)
    end in
  {| nodes := nodes g;
     relationships := <[rID rel := rel]> (relationships g);
     byLabel := byLabel g;
     byRelType := insert_in (rType rel) (rID rel) rel bt;
     outgoing := insert_in (Source rel) (rID rel) rel out;
     incoming := insert_in (Target rel) (rID rel) rel inc |}.

(** One iteration of the first loop of [cascadeRelationshipsForNode]. *)
Definition cascade_out_step (g : KnowledgeGraph) (rel : GraphRelationship) : KnowledgeGraph :=
  {| nodes := nodes g;
     relationships := delete (rID rel) (relationships g);
     byLabel := byLabel g;
     byRelType := delete_in (rType rel) (rID rel) (byRelType g);
     outgoing := outgoing g;
     incoming := delete_in (Target rel) (rID rel) (incoming g) |}.

(** One iteration of its second loop. *)
Definition cascade_in_step (g : KnowledgeGraph) (rel : GraphRelationship) : KnowledgeGraph :=
  {| nodes := nodes g;
     relationships := delete (rID rel) (relationships g);
     byLabel := byLabel g;
     byRelType := delete_in (rType rel) (rID rel) (byRelType g);
     outgoing := delete_in (Source rel) (rID rel) (outgoing g);
     incoming := incoming g |}.

Definition drop_outgoing (nodeID : string) (g : KnowledgeGraph) : KnowledgeGraph :=
  {| nodes := nodes g; relationships := relationships g; byLabel := byLabel g;
     byRelType := byRelType g; outgoing := delete nodeID (outgoing g);
     incoming := incoming g |}.

Definition drop_incoming (nodeID : string) (g : KnowledgeGraph) : KnowledgeGraph :=
  {| nodes := nodes g; relationships := relationships g; byLabel := byLabel g;
     byRelType := byRelType g; outgoing := outgoing g;
     incoming := delete nodeID (incoming g) |}.

Section Ops.
Context `{MapRange}.

Definition cascade_outgoing (nodeID : string) (g : KnowledgeGraph) : KnowledgeGraph :=
  match outgoing g !! nodeID with
  | Some outRels =>
      drop_outgoing nodeID (foldl cascade_out_step g (range outRels).*2)
  | None => g
  end.

Definition cascade_incoming (nodeID : string) (g : KnowledgeGraph) : KnowledgeGraph :=
  match incoming g !! nodeID with
  | Some inRels =>
      drop_incoming nodeID (foldl cascade_in_step g (range inRels).*2)
  | None => g
  end.

Definition cascadeRelationshipsForNode (nodeID : string) (g : KnowledgeGraph) : KnowledgeGraph :=
  cascade_incoming nodeID (cascade_outgoing nodeID g).

(** [delete(g.nodes, id); delete(g.byLabel[node.Label], id)] *)
Definition unlink_node (nodeID : string) (node : GraphNode) (g : KnowledgeGraph) : KnowledgeGraph :=
  {| nodes := delete nodeID (nodes g);
     relationships := relationships g;
     byLabel := alter (λ s, s ∖ {[nodeID]}) (Label node) (byLabel g);
     byRelType := byRelType g; outgoing := outgoing g; incoming := incoming g |}.

Definition RemoveNode (nodeID : string) (g : KnowledgeGraph) : KnowledgeGraph * bool :=
  match nodes g !! nodeID with
  | None => (g, false)
  | Some node => (cascadeRelationshipsForNode nodeID (unlink_node nodeID node g), true)
  end.

Definition RemoveNodesByFile (filePath : string) (g : KnowledgeGraph) : KnowledgeGraph * Z :=
  let idsToRemove :=
    (filter (λ kv, FilePath kv.2 = filePath) (range (nodes g))).*1 in
  match idsToRemove with
  | [] => (g, 0%Z)
  | _ =>
      let g1 := foldl (λ g id,
                  match nodes g !! id with
                  | Some node => unlink_node id node g
                  | None => g
                  end) g idsToRemove in
      (foldl (λ g id, cascadeRelationshipsForNode id g) g1 idsToRemove,
       Z.of_nat (length idsToRemove))
  end.

Definition GetOutgoing (nodeID : string) (relType : RelType) (g : KnowledgeGraph) :
    list GraphRelationship :=
  match outgoing g !! nodeID with
  | None => []
  | Some rels =>
      if decide (relType ≠ "")
      then filter (λ rel, rType rel = relType) (range rels).*2
      else (range rels).*2
  end.

Definition HasIncoming (nodeID : string) (relType : RelType) (g : KnowledgeGraph) : bool :=
  match incoming g !! nodeID with
  | None => false
  | Some rels => existsb (λ rel, bool_decide (rType rel = relType)) (range rels).*2
  end.

Definition IterNodes (g : KnowledgeGraph) : list string := (range (nodes g)).*1.

(** *** Index coherence

    [idx_lookup idx k id] reads [idx[k][id]]. *)
Definition idx_lookup {A} (idx : gmap string (gmap string A)) (k id : string) : option A :=
  idx !! k ≫= λ m, m !! id.

(** Every relationship sits under its own ID in the primary map and in the
    three indexes, and the indexes hold nothing else. *)
Record rel_wf (g : KnowledgeGraph) : Prop := {
  wf_primary : ∀ id r, relationships g !! id = Some r →
      rID r = id ∧ idx_lookup (outgoing g) (Source r) id = Some r
      ∧ idx_lookup (incoming g) (Target r) id = Some r
      ∧ idx_lookup (byRelType g) (rType r) id = Some r;
  wf_outgoing : ∀ s id r, idx_lookup (outgoing g) s id = Some r →
      relationships g !! id = Some r ∧ Source r = s;
  wf_incoming : ∀ t id r, idx_lookup (incoming g) t id = Some r →
      relationships g !! id = Some r ∧ Target r = t;
  wf_byRelType : ∀ ty id r, idx_lookup (byRelType g) ty id = Some r →
      relationships g !! id = Some r ∧ rType r = ty
}.

(** The states a client of the package can build. *)
Inductive reachable : KnowledgeGraph → Prop :=
  | reach_New : reachable NewKnowledgeGraph
  | reach_AddNode g n : reachable g → reachable (AddNode n g)
  | reach_AddRelationship g r : reachable g → reachable (AddRelationship r g)
  | reach_RemoveNode g id : reachable g → reachable (RemoveNode id g).1
  | reach_RemoveNodesByFile g p : reachable g → reachable (RemoveNodesByFile p g).1.

(** No relationship that mentions [v] is left anywhere in the graph. *)
Definition cascaded (g : KnowledgeGraph) (v : string) : Prop :=
  (∀ id r, relationships g !! id = Some r → Source r ≠ v ∧ Target r ≠ v)
  ∧ (∀ ty id r, idx_lookup (byRelType g) ty id = Some r → Source r ≠ v ∧ Target r ≠ v)
  ∧ (∀ s id r, idx_lookup (outgoing g) s id = Some r → Source r ≠ v ∧ Target r ≠ v)
  ∧ (∀ t id r, idx_lookup (incoming g) t id = Some r → Source r ≠ v ∧ Target r ≠ v).

(** *** The other queries of the package *)

(** A [range] over one of the inner maps of [byLabel]. *)
Definition range_keys (ids : gset string) : list string :=
  range_order _ (elements ids).

Definition NodeCount (g : KnowledgeGraph) : Z := Z.of_nat (size (nodes g)).

Definition RelationshipCount (g : KnowledgeGraph) : Z :=
  Z.of_nat (size (relationships g)).

Definition CountNodesByLabel (label : NodeLabel) (g : KnowledgeGraph) : Z :=
  match byLabel g !! label with
  | Some ids => Z.of_nat (size ids)
  | None => 0
  end.

Definition IterRelationships (g : KnowledgeGraph) : list GraphRelationship :=
  (range (relationships g)).*2.

Definition GetNodesByLabel (label : NodeLabel) (g : KnowledgeGraph) : list GraphNode :=
  match byLabel g !! label with
  | None => []
  | Some ids => omap (λ id, nodes g !! id) (range_keys ids)
  end.

Definition GetRelationshipsByType (relType : RelType) (g : KnowledgeGraph) :
    list GraphRelationship :=
  match byRelType g !! relType with
  | None => []
  | Some rels => (range rels).*2
  end.

Definition GetIncoming (nodeID : string) (relType : RelType) (g : KnowledgeGraph) :
    list GraphRelationship :=
  match incoming g !! nodeID with
  | None => []
  | Some rels =>
      if decide (relType ≠ "")
      then filter (λ rel, rType rel = relType) (range rels).*2
      else (range rels).*2
  end.

Definition GetCallees (nodeID : string) (g : KnowledgeGraph) : list GraphNode :=
  match outgoing g !! nodeID with
  | None => []
  | Some rels =>
      omap (λ rel, if decide (rType rel = RelCalls) then nodes g !! Target rel else None)
           (range rels).*2
  end.

(** [countSymbols] of package ingestion. *)
Definition symbolLabels : list NodeLabel :=
  [NodeFunction; NodeMethod; NodeClass; NodeInterface; NodeTypeAlias; NodeEnum].

Definition countSymbols (g : KnowledgeGraph) : Z :=
  foldl (λ count label, (count + CountNodesByLabel label g)%Z) 0%Z symbolLabels.

(** Every node sits under its own ID and is filed under its own label,
    and the label index files nothing else. *)
Record node_wf (g : KnowledgeGraph) : Prop := {
  wf_node : ∀ id n, nodes g !! id = Some n →
      ID n = id ∧ ∃ ids, byLabel g !! Label n = Some ids ∧ id ∈ ids;
  wf_byLabel : ∀ l ids id, byLabel g !! l = Some ids → id ∈ ids →
      ∃ n, nodes g !! id = Some n ∧ Label n = l
}.

End Ops.

End Graph.

(** ** Dead-code detection (package ingestion, phase 10) *)
Module DeadCode.
Import Graph.

Definition set_IsDead (b : bool) (n : GraphNode) : GraphNode :=
  {| ID := ID n; Label := Label n; Name := Name n; FilePath := FilePath n;
     StartLine := StartLine n; EndLine := EndLine n; Content := Content n;
     Signature := Signature n; Language := Language n; ClassName := ClassName n;
     IsDead := b; IsEntryPoint := IsEntryPoint n; IsExported := IsExported n;
     Decorators := Decorators n; Properties := Properties n |}.

(** [node.Properties[k] = v], after the [make] that a nil map gets first. *)
Definition set_Property (k : string) (v : any) (n : GraphNode) : GraphNode :=
  {| ID := ID n; Label := Label n; Name := Name n; FilePath := FilePath n;
     StartLine := StartLine n; EndLine := EndLine n; Content := Content n;
     Signature := Signature n; Language := Language n; ClassName := ClassName n;
     IsDead := IsDead n; IsEntryPoint := IsEntryPoint n; IsExported := IsExported n;
     Decorators := Decorators n; Properties := <[k := v]> (Properties n) |}.

(** A write through the pointer [ptr]: the node stored under that key
    changes, and every holder of the pointer sees it. *)
Definition update_node (ptr : string) (f : GraphNode → GraphNode) (g : KnowledgeGraph) :
    KnowledgeGraph :=
  with_nodes g (alter f ptr (nodes g)).

(** [isTestFunction] *)
Definition isTestFunction (node : GraphNode) : bool :=
  if strings.HasSuffix (FilePath node) "_test.go" || strings.HasSuffix (FilePath node) "_test.py"
  then true
  else if bool_decide (Label node = NodeFunction)
  then strings.HasPrefix (Name node) "Test" || strings.HasPrefix (Name node) "test_"
  else false.

Definition dunderMethods : list string :=
  ["__init__"; "__new__"; "__del__"; "__repr__"; "__str__";
   "__lt__"; "__le__"; "__eq__"; "__ne__"; "__gt__"; "__ge__";
   "__hash__"; "__bool__"; "__len__"].

Definition isDunderMethod (node : GraphNode) : bool :=
  if strings.HasPrefix (Name node) "__" && strings.HasSuffix (Name node) "__"
  then true
  else existsb (λ method, bool_decide (Name node = method)) dunderMethods.

Definition isConstructor (node : GraphNode) : bool :=
  if bool_decide (Label node ≠ NodeMethod) then false
  else if bool_decide (Name node = "New" ++ ClassName node) then true
  else if bool_decide (Name node = "__init__") then true
  else false.

Definition isDeadCodeExempt (node : GraphNode) : bool :=
  if IsEntryPoint node then true
  else if IsExported node then true
  else if isTestFunction node then true
  else if isDunderMethod node then true
  else if isConstructor node then true
  else if bool_decide (Label node = NodeCommunity ∨ Label node = NodeProcess) then true
  else false.

(** [val, ok := node.Properties[k]; b, ok := val.(bool); ok && b] *)
Definition bool_property (k : string) (node : GraphNode) : bool :=
  match Properties node !! k with
  | Some (AnyBool b) => b
  | _ => false
  end.

Definition hasDynamicDispatch (node : GraphNode) : bool :=
  if bool_property "has_dynamic_dispatch" node then true
  else if strings.Contains (FilePath node) "server.go" && strings.Contains (Name node) "handle"
  then true
  else false.

Definition hasSwitchDispatch (node : GraphNode) : bool :=
  if bool_property "has_switch_dispatch" node then true
  else if strings.Contains (FilePath node) "cmd.go"
          && (bool_decide (Name node = "Run") || strings.HasSuffix (Name node) "Cmd")
  then true
  else false.

(** [val, ok := node.Properties["call_pattern"]; pattern, ok := val.(string)] *)
Definition call_pattern (node : GraphNode) : option string :=
  match Properties node !! "call_pattern" with
  | Some (AnyString pattern) => Some pattern
  | _ => None
  end.

Definition isAllowlistExempt (node : GraphNode) : bool :=
  if strings.Contains (FilePath node) "server.go" && strings.HasPrefix (Name node) "handle"
  then true
  else if strings.Contains (FilePath node) "cmd.go"
          && (strings.HasPrefix (Name node) "setup"
              || strings.HasPrefix (Name node) "configure"
              || strings.HasPrefix (Name node) "output")
  then true
  else if strings.HasPrefix (Name node) "register" then true
  else match call_pattern node with
       | Some pattern =>
           bool_decide (pattern = "dynamic_dispatch" ∨ pattern = "framework_dispatch"
                        ∨ pattern = "mcp_handler" ∨ pattern = "cli_subcommand")
       | None => false
       end.

(** [len(node.Name) > 0 && node.Name[0] >= 'a' && node.Name[0] <= 'z'] *)
Definition lower_initial (name : string) : bool :=
  match name with
  | String c _ => (97 <=? nat_of_ascii c)%nat && (nat_of_ascii c <=? 122)%nat
  | EmptyString => false
  end.

(** The body of the loop of [assignConfidenceScores], for a dead node. *)
Definition confidence_of (node : GraphNode) : string :=
  let confidence := "high" in
  let confidence :=
    match call_pattern node with
    | Some pattern =>
        if bool_decide (pattern = "dynamic_dispatch" ∨ pattern = "framework_dispatch")
        then "low" else confidence
    | None => confidence
    end in
  let confidence :=
    match call_pattern node with
    | Some pattern => if bool_decide (pattern = "intra_class") then "medium" else confidence
    | None => confidence
    end in
  let confidence :=
    if isTestFunction node || strings.Contains (FilePath node) "_test"
    then "medium" else confidence in
  let confidence :=
    if bool_decide (Label node = NodeMethod ∨ Label node = NodeFunction)
    then if lower_initial (Name node)
         then if bool_decide (confidence = "high") then "medium" else confidence
         else confidence
    else confidence in
  confidence.

(** The fields of a node that no pass writes. *)
Definition static_eq (n n' : GraphNode) : Prop :=
  ID n = ID n' ∧ Label n = Label n' ∧ Name n = Name n' ∧ FilePath n = FilePath n'
  ∧ ClassName n = ClassName n' ∧ IsEntryPoint n = IsEntryPoint n'
  ∧ IsExported n = IsExported n'.

(** [clears n n']: [n'] is [n] with, at most, its dead flag cleared and its
    properties changed. *)
Definition clears (n n' : GraphNode) : Prop :=
  static_eq n n' ∧ (IsDead n' = true → IsDead n = true).

Definition any_change (n n' : GraphNode) : Prop := True.

(** [steps R g g']: [g'] has the relationships and indexes of [g] and the
    same node keys, each node related to its former self by [R]. *)
Record steps (R : GraphNode → GraphNode → Prop) (g g' : KnowledgeGraph) : Prop := {
  st_relationships : relationships g' = relationships g;
  st_byLabel : byLabel g' = byLabel g;
  st_byRelType : byRelType g' = byRelType g;
  st_outgoing : outgoing g' = outgoing g;
  st_incoming : incoming g' = incoming g;
  st_nodes : ∀ ptr, option_Forall2 R (nodes g !! ptr) (nodes g' !! ptr)
}.

Definition mark_called (pattern : string) (n : GraphNode) : GraphNode :=
  set_Property "call_pattern" (AnyString pattern) (set_IsDead false n).

Definition mark_exempt (n : GraphNode) : GraphNode :=
  set_Property "exempt_reason" (AnyString "framework_pattern")
    (set_Property "dead_code_exempt" (AnyBool true) (set_IsDead false n)).

(** What the four passes that write only to the visited node do to it. *)
Definition exempt_node (n : GraphNode) : GraphNode :=
  if negb (IsDead n) then n
  else if isDeadCodeExempt n then set_IsDead false n else n.

Definition allowlist_node (n : GraphNode) : GraphNode :=
  if negb (IsDead n) then n
  else if isAllowlistExempt n then mark_exempt n else n.

Definition confidence_node (n : GraphNode) : GraphNode :=
  if negb (IsDead n) then n
  else set_Property "dead_code_confidence" (AnyString (confidence_of n)) n.

Section Passes.
Context `{MapRange}.

Definition flag_node (g : KnowledgeGraph) (n : GraphNode) : GraphNode :=
  if bool_decide (Label n = NodeFile ∨ Label n = NodeFolder) then n
  else if bool_decide (Label n = NodeCommunity ∨ Label n = NodeProcess) then n
  else if negb (HasIncoming (ID n) RelCalls g) then set_IsDead true n else n.

(** [for node := range g.IterNodes() { body }].  The channel is filled
    with the node pointers before the loop starts; each iteration sees the
    node as the iterations before it left it. *)
Definition for_nodes (body : string → GraphNode → KnowledgeGraph → KnowledgeGraph)
    (g : KnowledgeGraph) : KnowledgeGraph :=
  foldl (λ g ptr, match nodes g !! ptr with
                  | Some node => body ptr node g
                  | None => g
                  end) g (IterNodes g).

(** The callee loop shared by the passes that write to call targets:
    [callee := g.GetNode(rel.Target); if callee != nil { ... }]. *)
Definition for_callees (rels : list GraphRelationship)
    (body : string → GraphNode → KnowledgeGraph → KnowledgeGraph)
    (g : KnowledgeGraph) : KnowledgeGraph :=
  foldl (λ g rel, match GetNode (Target rel) g with
                  | Some callee => body (Target rel) callee g
                  | None => g
                  end) g rels.

Definition detectCallPatterns (g : KnowledgeGraph) : KnowledgeGraph :=
  for_nodes (λ ptr caller g,
    let g :=
      if hasDynamicDispatch caller
      then for_callees (GetOutgoing (ID caller) RelCalls g)
             (λ p _, update_node p (set_Property "call_pattern" (AnyString "dynamic_dispatch"))) g
      else g in
    match nodes g !! ptr with
    | Some caller =>
        if hasSwitchDispatch caller
        then for_callees (GetOutgoing (ID caller) RelCalls g)
               (λ p _, update_node p (set_Property "call_pattern" (AnyString "framework_dispatch"))) g
        else g
    | None => g
    end) g.

Definition flagUnreachable (g : KnowledgeGraph) : KnowledgeGraph :=
  for_nodes (λ ptr node g,
    if bool_decide (Label node = NodeFile ∨ Label node = NodeFolder) then g
    else if bool_decide (Label node = NodeCommunity ∨ Label node = NodeProcess) then g
    else if negb (HasIncoming (ID node) RelCalls g)
         then update_node ptr (set_IsDead true) g
         else g) g.

Definition applyExemptions (g : KnowledgeGraph) : KnowledgeGraph :=
  for_nodes (λ ptr node g,
    if negb (IsDead node) then g
    else if isDeadCodeExempt node then update_node ptr (set_IsDead false) g
    else g) g.

Definition findClassByName (g : KnowledgeGraph) (className : string) : option GraphNode :=
  List.find (λ node, bool_decide (Label node = NodeClass ∧ Name node = className))
            (range (nodes g)).*2.

Definition findBaseClasses (g : KnowledgeGraph) (class : GraphNode) : list GraphNode :=
  omap (λ rel, match GetNode (Target rel) g with
               | Some baseClass =>
                   if bool_decide (Label baseClass = NodeClass) then Some baseClass else None
               | None => None
               end) (GetOutgoing (ID class) RelExtends g).

Definition findMethodInClass (g : KnowledgeGraph) (class : GraphNode) (methodName : string) :
    option GraphNode :=
  List.find (λ node, bool_decide (Label node = NodeMethod ∧ ClassName node = Name class
                                  ∧ Name node = methodName))
            (range (nodes g)).*2.

Definition isOverrideOfNonDeadMethod (g : KnowledgeGraph) (method : GraphNode) : bool :=
  if bool_decide (ClassName method = "") then false
  else match findClassByName g (ClassName method) with
       | None => false
       | Some classNode =>
           existsb (λ baseClass,
                      match findMethodInClass g baseClass (Name method) with
                      | Some baseMethod => negb (IsDead baseMethod)
                      | None => false
                      end) (findBaseClasses g classNode)
       end.

Definition applyOverridePass (g : KnowledgeGraph) : KnowledgeGraph :=
  for_nodes (λ ptr node g,
    if negb (IsDead node) then g
    else if bool_decide (Label node ≠ NodeMethod) then g
    else if isOverrideOfNonDeadMethod g node then update_node ptr (set_IsDead false) g
    else g) g.

(** [fileMethods]: per file, the method nodes by name (a later node of the
    same name in the same file replaces an earlier one).  The source also
    fills a [classMethods] map here and never reads it. *)
Definition fileMethods_of (g : KnowledgeGraph) : gmap string (gmap string string) :=
  foldl (λ fm ptr, match nodes g !! ptr with
                   | Some node =>
                       if bool_decide (Label node = NodeMethod)
                       then insert_in (FilePath node) (Name node) ptr fm
                       else fm
                   | None => fm
                   end) ∅ (IterNodes g).

Definition trackIntraClassCalls (g : KnowledgeGraph) : KnowledgeGraph :=
  let fileMethods := fileMethods_of g in
  let g :=
    for_nodes (λ ptr node g,
      if bool_decide (Label node = NodeMethod ∧ ClassName node ≠ "")
      then for_callees (GetOutgoing (ID node) RelCalls g)
             (λ p callee g,
                if bool_decide (Label callee = NodeMethod)
                then if bool_decide (ClassName callee = ClassName node)
                     then update_node p (mark_called "intra_class") g
                     else g
                else g) g
      else g) g in
  foldl (λ g '(filePath, methods),
    let methodNodes : gmap string string :=
      foldl (λ mn '(_, mptr), match nodes g !! mptr with
                              | Some method => <[Name method := mptr]> mn
                              | None => mn
                              end) ∅ (range methods) in
    foldl (λ g '(_, cptr),
      match nodes g !! cptr with
      | Some caller =>
          for_callees (GetOutgoing (ID caller) RelCalls g)
            (λ p callee g,
               if bool_decide (Label callee = NodeMethod)
               then if bool_decide (FilePath callee = filePath)
                    then update_node p (mark_called "intra_file") g
                    else g
               else g) g
      | None => g
      end) g (range methodNodes)) g (range fileMethods).

Definition applyAllowlistExemptions (g : KnowledgeGraph) : KnowledgeGraph :=
  for_nodes (λ ptr node g,
    if negb (IsDead node) then g
    else if isAllowlistExempt node then update_node ptr mark_exempt g
    else g) g.

Definition assignConfidenceScores (g : KnowledgeGraph) : KnowledgeGraph :=
  for_nodes (λ ptr node g,
    if negb (IsDead node) then g
    else update_node ptr
           (set_Property "dead_code_confidence" (AnyString (confidence_of node))) g) g.

(** The graph as the override pass finds it: passes 1 to 5. *)
Definition before_override (g : KnowledgeGraph) : KnowledgeGraph :=
  applyAllowlistExemptions
    (applyExemptions (trackIntraClassCalls (flagUnreachable (detectCallPatterns g)))).

(** [ProcessDeadCode]: the graph after the seven passes, and the count. *)
Definition ProcessDeadCode (g : KnowledgeGraph) : KnowledgeGraph * Z :=
  let g := assignConfidenceScores (applyOverridePass (before_override g)) in
  (g, Z.of_nat (length (filter (λ ptr, default false (IsDead <$> nodes g !! ptr)) (IterNodes g)))).

Definition GetDeadCodeList (g : KnowledgeGraph) : list GraphNode :=
  filter (λ node, IsDead node = true) (range (nodes g)).*2.

(** [extends_chain g c c']: the class with ID [c'] is reached from the
    class with ID [c] along one or more [extends] edges. *)
Inductive extends_chain (g : KnowledgeGraph) : string → string → Prop :=
  | chain_direct c rid rel :
      idx_lookup (outgoing g) c rid = Some rel → rType rel = RelExtends →
      extends_chain g c (Target rel)
  | chain_step c rid rel c' :
      idx_lookup (outgoing g) c rid = Some rel → rType rel = RelExtends →
      extends_chain g (Target rel) c' → extends_chain g c c'.

(** The override rule read over ancestors at any distance: every method
    [M] still dead when the override pass starts, whose class has an
    ancestor along [extends] edges holding a non-dead method of [M]'s name,
    is not dead when [ProcessDeadCode] returns. *)
Definition transitive_override_rule (g : KnowledgeGraph) : Prop :=
  ∀ m M c C c' C' b BM,
    nodes (before_override g) !! m = Some M → Label M = NodeMethod → IsDead M = true →
    nodes (before_override g) !! c = Some C → Label C = NodeClass → Name C = ClassName M →
    extends_chain (before_override g) (ID C) c' →
    nodes (before_override g) !! c' = Some C' → Label C' = NodeClass →
    nodes (before_override g) !! b = Some BM → Label BM = NodeMethod →
    ClassName BM = Name C' → Name BM = Name M → IsDead BM = false →
    ∃ M', nodes (ProcessDeadCode g).1 !! m = Some M' ∧ IsDead M' = false.

End Passes.

Definition simple_phase_node (g : KnowledgeGraph) (n : GraphNode) : GraphNode :=
  confidence_node (allowlist_node (exempt_node (flag_node (H := plain_range) g n))).

Definition no_dispatchers (g : KnowledgeGraph) : Prop :=
  ∀ ptr n, nodes g !! ptr = Some n →
    hasDynamicDispatch n = false ∧ hasSwitchDispatch n = false.

Definition no_methods (g : KnowledgeGraph) : Prop :=
  ∀ ptr n, nodes g !! ptr = Some n → Label n ≠ NodeMethod.

(** The property keys the passes write. *)
Definition written_properties : list string :=
  ["call_pattern"; "dead_code_exempt"; "exempt_reason"; "dead_code_confidence"].

(** [flags_only n n']: [n'] differs from [n] in its dead flag and in the
    written properties at most. *)
Definition flags_only (n n' : GraphNode) : Prop :=
  static_eq n n' ∧ StartLine n = StartLine n' ∧ EndLine n = EndLine n'
  ∧ Content n = Content n' ∧ Signature n = Signature n' ∧ Language n = Language n'
  ∧ Decorators n = Decorators n'
  ∧ ∀ k, k ∉ written_properties → Properties n' !! k = Properties n !! k.

End DeadCode.

(** ** The repository walker (package ingestion, phase 1) *)
Module Walker.

(** The file tree under the root as the walk meets it.  A file whose
    content is [None] is one that [os.ReadFile] fails on; a directory whose
    entries are [None] is one that [os.ReadDir] fails on. *)
Inductive FsNode :=
  | FsFile (name : string) (content : option string)
  | FsDir (name : string) (entries : option (list FsNode)).

Definition node_name (d : FsNode) : string :=
  match d with FsFile name _ | FsDir name _ => name end.

Definition IsDir (d : FsNode) : bool :=
  match d with FsDir _ _ => true | FsFile _ _ => false end.

(** The errors of the walk, and [filepath.SkipDir], which is an error
    value too. *)
Inductive error :=
  | SkipDir
  | LstatError (path : string)
  | ReadDirError (path : string)
  | ReadFileError (path : string).

Definition is_SkipDir (e : error) : bool :=
  match e with SkipDir => true | _ => false end.

Record FileEntry := {
  Path : string;
  RelPath : string;
  Language : string;
  Content : string;
  SHA256 : string;
  EntryIsDir : bool
}.

Definition supportedExtensions : list (string * string) :=
  [(".py", "python"); (".ts", "typescript"); (".tsx", "typescript");
   (".js", "javascript"); (".jsx", "javascript"); (".mjs", "javascript");
   (".cjs", "javascript"); (".go", "go")].

(** [filepath.Ext] on a file name: the suffix that starts at the last dot,
    empty when there is no dot. *)
Fixpoint Ext_from (s : string) : option string :=
  match s with
  | EmptyString => None
  | String c s' =>
      match Ext_from s' with
      | Some e => Some e
      | None => if Ascii.eqb c "." then Some s else None
      end
  end.

Definition Ext (name : string) : string := default "" (Ext_from name).

Definition lookup_ext (ext : string) : option string :=
  snd <$> List.find (λ kv, String.eqb kv.1 ext) supportedExtensions.

Definition isSupportedFile (filename : string) : bool :=
  bool_decide (is_Some (lookup_ext (strings.ToLower (Ext filename)))).

Definition getLanguage (filename : string) : string :=
  default "" (lookup_ext (strings.ToLower (Ext filename))).

Fixpoint join_parts (parts : list string) : string :=
  match parts with
  | [] => ""
  | [p] => p
  | p :: rest => p ++ "/" ++ join_parts rest
  end.

Section Walk.
(** [matcher.Match(pathParts, isDir)] of the go-git gitignore matcher built
    from the default and the loaded patterns, and the SHA-256 digest in
    hexadecimal. *)
Variable Match : list string → bool → bool.
Variable sha256_hex : string → string.
Variable repoPath : string.

(** A place in the walk is the list of names leading to it from the root.
    Its path is the root path as [WalkRepo] was given it, with
    [filepath.Join] applied for every name on the way down, as
    [filepath.WalkDir] does.  [filepath.Rel(repoPath, path)] of such a path
    cannot fail: it is ["."] for the root and the names joined by the
    separator below it, and [splitPath] gives the names back. *)
Definition abs_path (rel : list string) : string :=
  foldl filepath.Join repoPath rel.

Definition Rel (rel : list string) : string :=
  match rel with [] => "." | _ => join_parts rel end.

Definition splitPath_Rel (rel : list string) : list string :=
  match rel with [] => ["."] | _ => rel end.

Definition shouldSkipDir (name : string) (rel : list string) : bool :=
  if bool_decide (name = ".git") then true
  else Match (splitPath_Rel rel) true.

(** The function literal that [WalkRepo] hands to [filepath.WalkDir].
    [entries] is the slice it appends to. *)
Definition visit (rel : list string) (d : option FsNode) (err : option error)
    (entries : list FileEntry) : list FileEntry * option error :=
  match err with
  | Some e => (entries, Some e)
  | None =>
      match d with
      | None => (entries, None)
      | Some (FsDir name _) =>
          if shouldSkipDir name rel then (entries, Some SkipDir) else (entries, None)
      | Some (FsFile name content) =>
          if negb (isSupportedFile name) then (entries, None)
          else if Match (splitPath_Rel rel) false then (entries, None)
          else match content with
               | None => (entries, Some (ReadFileError (abs_path rel)))
               | Some content =>
                   (entries ++ [{| Path := abs_path rel; RelPath := Rel rel;
                                   Language := getLanguage name; Content := content;
                                   SHA256 := sha256_hex content;
                                   EntryIsDir := false |}],
                    None)
               end
      end
  end%list.

(** [walkDir] of path/filepath. *)
Fixpoint walkDir (rel : list string) (d : FsNode) (entries : list FileEntry)
    {struct d} : list FileEntry * option error :=
  let '(entries, err) := visit rel (Some d) None entries in
  match err with
  | Some e =>
      (entries, if is_SkipDir e && IsDir d then None else Some e)
  | None =>
      match d with
      | FsFile _ _ => (entries, None)
      | FsDir _ None =>
          let '(entries, err) :=
            visit rel (Some d) (Some (ReadDirError (abs_path rel))) entries in
          match err with
          | Some e => (entries, if is_SkipDir e && IsDir d then None else Some e)
          | None => (entries, None)
          end
      | FsDir _ (Some dirs) =>
          (fix walk_entries (dirs : list FsNode) (entries : list FileEntry) :=
             match dirs with
             | [] => (entries, None)
             | d1 :: rest =>
                 let '(entries, err) := walkDir (rel ++ [node_name d1]) d1 entries in
                 match err with
                 | Some e => if is_SkipDir e then (entries, None) else (entries, Some e)
                 | None => walk_entries rest entries
                 end
             end) dirs entries
      end
  end%list.

(** [filepath.WalkDir(root, fn)]; [root] is [None] when [os.Lstat] fails. *)
Definition WalkDir (root : option FsNode) (entries : list FileEntry) :
    list FileEntry * option error :=
  let '(entries, err) :=
    match root with
    | None => visit [] None (Some (LstatError repoPath)) entries
    | Some d => walkDir [] d entries
    end in
  match err with
  | Some e => if is_SkipDir e then (entries, None) else (entries, Some e)
  | None => (entries, None)
  end.

Definition WalkRepo (root : option FsNode) : list FileEntry * option error :=
  WalkDir root [].

(** [readable rel d]: everything the walk reaches at and below [d] can be
    read: every directory it enters can be listed, every supported file
    that no ignore pattern matches has content. *)
Fixpoint readable (rel : list string) (d : FsNode) {struct d} : Prop :=
  match d with
  | FsFile name content =>
      isSupportedFile name = true → Match (splitPath_Rel rel) false = false →
      is_Some content
  | FsDir name entries =>
      shouldSkipDir name rel = false →
      match entries with
      | None => False
      | Some dirs =>
          (fix all (dirs : list FsNode) : Prop :=
             match dirs with
             | [] => True
             | d1 :: rest => readable (rel ++ [node_name d1])%list d1 ∧ all rest
             end) dirs
      end
  end.

(** The loop over the entries of a directory, and what it asks of them. *)
Definition walk_entries (rel : list string) :=
  fix walk_entries (dirs : list FsNode) (entries : list FileEntry) :=
    match dirs with
    | [] => (entries, None)
    | d1 :: rest =>
        let '(entries, err) := walkDir (rel ++ [node_name d1])%list d1 entries in
        match err with
        | Some e => if is_SkipDir e then (entries, None) else (entries, Some e)
        | None => walk_entries rest entries
        end
    end.

Definition all_readable (rel : list string) :=
  fix all (dirs : list FsNode) : Prop :=
    match dirs with
    | [] => True
    | d1 :: rest => readable (rel ++ [node_name d1])%list d1 ∧ all rest
    end.

(** [walked rel d e]: [e] is the entry of a file at or below [d], itself
    at [rel]: a supported file with content that no ignore pattern matches,
    reached through directories none of which is skipped. *)
Inductive walked : list string → FsNode → FileEntry → Prop :=
  | walked_file rel name content :
      isSupportedFile name = true → Match (splitPath_Rel rel) false = false →
      walked rel (FsFile name (Some content))
        {| Path := abs_path rel; RelPath := Rel rel; Language := getLanguage name;
           Content := content; SHA256 := sha256_hex content; EntryIsDir := false |}
  | walked_dir rel name dirs d1 e :
      shouldSkipDir name rel = false → d1 ∈ dirs →
      walked (rel ++ [node_name d1]) d1 e →
      walked rel (FsDir name (Some dirs)) e.

(** [stops rel d found err]: the walk at and below [d], itself at [rel],
    meets its first failure, with the error [err], when it has appended the
    entries [found].  The failure is a supported file that no ignore
    pattern matches and that cannot be read, or a directory that is not
    skipped and cannot be listed; above it, it is the failure of one entry
    of a directory, every entry before which is walked without error.  The
    entries after it play no part. *)
Inductive stops : list string → FsNode → list FileEntry → error → Prop :=
  | stops_file rel name :
      isSupportedFile name = true → Match (splitPath_Rel rel) false = false →
      stops rel (FsFile name None) [] (ReadFileError (abs_path rel))
  | stops_list rel name :
      shouldSkipDir name rel = false →
      stops rel (FsDir name None) [] (ReadDirError (abs_path rel))
  | stops_entry rel name before d1 after found err :
      shouldSkipDir name rel = false →
      all_readable rel before →
      stops (rel ++ [node_name d1]) d1 found err →
      stops rel (FsDir name (Some (before ++ d1 :: after)%list))
        ((walk_entries rel before []).1 ++ found)%list err.

End Walk.

(** Induction over a file tree, with the hypothesis for every entry of a
    directory. *)
Fixpoint FsNode_tree_ind (P : FsNode → Prop)
    (Hfile : ∀ name content, P (FsFile name content))
    (Hnolist : ∀ name, P (FsDir name None))
    (Hdir : ∀ name dirs, Forall P dirs → P (FsDir name (Some dirs)))
    (d : FsNode) {struct d} : P d :=
  match d with
  | FsFile name content => Hfile name content
  | FsDir name None => Hnolist name
  | FsDir name (Some dirs) =>
      Hdir name dirs
        ((fix all (dirs : list FsNode) : Forall P dirs :=
            match dirs with
            | [] => @List.Forall_nil FsNode P
            | d1 :: rest =>
                @List.Forall_cons FsNode P d1 rest (FsNode_tree_ind P Hfile Hnolist Hdir d1) (all rest)
            end) dirs)
  end.

End Walker.

(** ** Hybrid search: Reciprocal Rank Fusion (package storage) *)
Module Search.

(** Fused scores are sums of reciprocals of integers; the model keeps them
    as exact rationals where the source has [float64]. *)
Record SearchResult := {
  NodeID : string;
  Score : Q;
  NodeName : string;
  FilePath : string;
  Label : string;
  Snippet : string
}.

Record HybridSearchResult := {
  hNodeID : string;
  hScore : Q;
  hNodeName : string;
  hFilePath : string;
  hLabel : string;
  hSnippet : string
}.

(** The two retrieval methods of the [StorageBackend] interface that
    [HybridSearch] calls; [inr] is a non-nil error. *)
Class StorageBackend (float32 : Type) := {
  FTSSearch : string → Z → list SearchResult + string;
  VectorSearch : list float32 → Z → list SearchResult + string
}.

(** [sort.Slice(results, func(i, j) bool { return results[i].Score >
    results[j].Score })].  The library promises a permutation in which no
    element is followed by one that must come before it, and nothing about
    elements of equal score. *)
Class SortSlice := {
  sort_by_score : list HybridSearchResult → list HybridSearchResult;
  sort_by_score_perm : ∀ l, sort_by_score l ≡ₚ l;
  sort_by_score_sorted : ∀ l i j x y,
    (i < j)%nat → sort_by_score l !! i = Some x → sort_by_score l !! j = Some y →
    ¬ (hScore x < hScore y)%Q
}.

(** [1.0 / float64(k+i)].  For [k+i = 0] the source gets [+Inf]; the
    model, which has no infinity, is used for [k > 0] only. *)
Definition rrf_term (k : Z) (i : nat) : Q := 1 / inject_Z (k + Z.of_nat i).

(** [for i, result := range results { rrfScores[result.NodeID] += ...;
    if _, exists := metadata[result.NodeID]; !exists { metadata[...] =
    result } }], from index [i] on. *)
Fixpoint add_ranks (k : Z) (i : nat) (results : list SearchResult)
    (st : gmap string Q * gmap string SearchResult) :
    gmap string Q * gmap string SearchResult :=
  match results with
  | [] => st
  | result :: rest =>
      let '(rrfScores, metadata) := st in
      let rrfScores :=
        <[NodeID result := (default 0 (rrfScores !! NodeID result) + rrf_term k i)%Q]> rrfScores in
      let metadata :=
        match metadata !! NodeID result with
        | Some _ => metadata
        | None => <[NodeID result := result]> metadata
        end in
      add_ranks k (S i) rest (rrfScores, metadata)
  end.

(** The zero value of [SearchResult], which a missing map entry reads as. *)
Definition zero_result : SearchResult :=
  {| NodeID := ""; Score := 0; NodeName := ""; FilePath := ""; Label := ""; Snippet := "" |}.

(** One iteration of the loop that turns the score map into the result
    slice. *)
Definition to_result (metadata : gmap string SearchResult) (entry : string * Q) :
    HybridSearchResult :=
  let '(nodeID, score) := entry in
  let meta := default zero_result (metadata !! nodeID) in
  {| hNodeID := nodeID; hScore := score; hNodeName := NodeName meta;
     hFilePath := FilePath meta; hLabel := Label meta; hSnippet := Snippet meta |}.

Section Hybrid.
Context `{MapRange} `{SortSlice} {float32 : Type} `{StorageBackend float32}.

(** The fusion proper: everything after the two retrievals.  [None] is the
    run-time panic of [results[:limit]] for a negative [limit]. *)
Definition fuse (ftsResults vectorResults : list SearchResult) (limit k : Z) :
    option (list HybridSearchResult) :=
  let '(rrfScores, metadata) :=
    add_ranks k 0 vectorResults (add_ranks k 0 ftsResults (∅, ∅)) in
  let results := to_result metadata <$> range rrfScores in
  let results := sort_by_score results in
  if (Z.of_nat (length results) >? limit)%Z
  then if (limit <? 0)%Z then None else Some (take (Z.to_nat limit) results)
  else Some results.

(** [HybridSearch]; its error result is always nil and is left out. *)
Definition HybridSearch (query : string) (queryVector : list float32) (limit k : Z) :
    option (list HybridSearchResult) :=
  let ftsResults :=
    match FTSSearch query (limit * 2)%Z with
    | inl results => results
    | inr _ => []
    end in
  let vectorResults :=
    match queryVector with
    | [] => []
    | _ => match VectorSearch queryVector (limit * 2)%Z with
           | inl results => results
           | inr _ => []
           end
    end in
  fuse ftsResults vectorResults limit k.

(** The two result lists as [HybridSearch] fuses them: a failed search,
    and the vector search for an empty query vector, count as no results. *)
Definition fts_results (query : string) (limit : Z) : list SearchResult :=
  match FTSSearch query (limit * 2)%Z with
  | inl results => results
  | inr _ => []
  end.

Definition vector_results (queryVector : list float32) (limit : Z) : list SearchResult :=
  match queryVector with
  | [] => []
  | _ => match VectorSearch queryVector (limit * 2)%Z with
         | inl results => results
         | inr _ => []
         end
  end.

End Hybrid.

(** The sum of [1/(k+rank)] over the positions, counted from [i], at which
    [x] stands in a list of IDs. *)
Fixpoint rank_sum (k : Z) (i : nat) (ids : list string) (x : string) : Q :=
  match ids with
  | [] => 0
  | y :: rest => (if decide (y = x) then rrf_term k i else 0) + rank_sum k (S i) rest x
  end.

(** The first result of a list that carries the ID [x]. *)
Definition first_with (x : string) (results : list SearchResult) : option SearchResult :=
  List.find (λ r, bool_decide (NodeID r = x)) results.

(** An insertion sort by descending score, as one possible [sort.Slice]. *)
Fixpoint insert_by_score (x : HybridSearchResult) (l : list HybridSearchResult) :
    list HybridSearchResult :=
  match l with
  | [] => [x]
  | y :: rest =>
      if Qle_bool (hScore y) (hScore x) then x :: l else y :: insert_by_score x rest
  end.

Definition insertion_sort (l : list HybridSearchResult) : list HybridSearchResult :=
  foldr insert_by_score [] l.

Definition descending : list HybridSearchResult → Prop :=
  StronglySorted (λ x y, (hScore y <= hScore x)%Q).

End Search.

(** ** Cosine similarity (package storage)

    The source works on [float32] components and accumulates in [float64];
    the model computes in exact real arithmetic, so a result the source
    reaches "within ε" is reached exactly here. *)
Module Cosine.
#[local] Open Scope R_scope.

(** One iteration of the loop: [dotProduct], [normA] and [normB]. *)
Definition accumulate (acc : R * R * R) (ab : R * R) : R * R * R :=
  let '(dotProduct, normA, normB) := acc in
  let '(a, b) := ab in
  (dotProduct + a * b, normA + a * a, normB + b * b).

Definition CosineSimilarity (a b : list R) : R :=
  if bool_decide (length a ≠ length b ∨ length a = 0%nat) then 0
  else
    let '(dotProduct, normA, normB) := foldl accumulate (0, 0, 0) (combine a b) in
    if Req_dec_T normA 0 then 0
    else if Req_dec_T normB 0 then 0
    else dotProduct / (sqrt normA * sqrt normB).



Fixpoint dot (a b : list R) : R :=
  match a, b with
  | x :: a', y :: b' => x * y + dot a' b'
  | _, _ => 0
  end.


Definition non_zero (v : list R) : Prop := ∃ x, x ∈ v ∧ x ≠ 0.

End Cosine.

(** ** The TF-IDF embedder (package embeddings, phase 12) *)
Module Embed.

Definition EmbeddingDimension : nat := 100.

(** The values [math.Log] can return: a real number, or one of the three
    special values of [float64]. *)
Inductive float64 :=
  | Real (r : R)
  | NegInf
  | PosInf
  | NaN.

(** [math.Log(float64(n) / float64(d))] for integers [n] and [d > 0]:
    the quotient is negative, zero or positive as [n] is. *)
Definition log_ratio (n d : Z) : float64 :=
  if (n <? 0)%Z then NaN
  else if (n =? 0)%Z then NegInf
  else Real (ln (IZR n / IZR d)).

Record TFIDFEmbedder := {
  idf : gmap string float64;
  docCount : Z;
  vocab : gmap string nat
}.

Definition NewTFIDFEmbedder : TFIDFEmbedder :=
  {| idf := ∅; docCount := 0; vocab := ∅ |}.

Definition is_separator (r : ascii) : bool :=
  let n := nat_of_ascii r in
  negb ((97 <=? n)%nat && (n <=? 122)%nat || (48 <=? n)%nat && (n <=? 57)%nat).

Definition tokenize (text : string) : list string :=
  let text := strings.ToLower text in
  let terms := strings.FieldsFunc text is_separator in
  filter (λ term, (2 <= String.length term)%nat) terms.

(** Whether a term is made of the bytes [a] to [z] and [0] to [9] only. *)
Definition alphanumeric (term : string) : bool :=
  forallb (λ r, negb (is_separator r)) (list_ascii_of_string term).

(** The inner loop of [BuildVocabulary] over the terms of one document.
    The last component tells whether the loop hit [return]. *)
Fixpoint scan_terms (terms : list string) (seen : gset string)
    (vocab : gmap string nat) (termIndex : nat) : gmap string nat * nat * bool :=
  match terms with
  | [] => (vocab, termIndex, false)
  | term :: rest =>
      if decide (term ∈ seen) then scan_terms rest seen vocab termIndex
      else
        match vocab !! term with
        | Some _ => scan_terms rest ({[term]} ∪ seen) vocab termIndex
        | None =>
            let vocab := <[term := termIndex]> vocab in
            let termIndex := S termIndex in
            if (EmbeddingDimension <=? termIndex)%nat then (vocab, termIndex, true)
            else scan_terms rest ({[term]} ∪ seen) vocab termIndex
        end
  end.

(** Its outer loop over the documents. *)
Fixpoint scan_docs (docs : list string) (vocab : gmap string nat) (termIndex : nat) :
    gmap string nat * bool :=
  match docs with
  | [] => (vocab, false)
  | doc :: rest =>
      let '(vocab, termIndex, returned) := scan_terms (tokenize doc) ∅ vocab termIndex in
      if returned then (vocab, true) else scan_docs rest vocab termIndex
  end.

(** [indexed vocab termIndex]: the vocabulary holds [termIndex] terms,
    with the indices below [termIndex], each term with its own. *)
Definition indexed (vocab : gmap string nat) (termIndex : nat) : Prop :=
  size vocab = termIndex
  ∧ (∀ term i, vocab !! term = Some i → (i < termIndex)%nat)
  ∧ (∀ t1 t2 i, vocab !! t1 = Some i → vocab !! t2 = Some i → t1 = t2).

(** [BuildVocabulary]: [e.docCount = len(docs)] is the statement after the
    loops, which the [return] inside them skips. *)
Definition BuildVocabulary (docs : list string) (e : TFIDFEmbedder) : TFIDFEmbedder :=
  let '(vocab, returned) := scan_docs docs (vocab e) 0 in
  if returned
  then {| idf := idf e; docCount := docCount e; vocab := vocab |}
  else {| idf := idf e; docCount := Z.of_nat (length docs); vocab := vocab |}.

(** [docFreq[term]++], once per document. *)
Fixpoint count_terms (terms : list string) (seen : gset string) (docFreq : gmap string Z) :
    gmap string Z :=
  match terms with
  | [] => docFreq
  | term :: rest =>
      if decide (term ∈ seen) then count_terms rest seen docFreq
      else count_terms rest ({[term]} ∪ seen)
             (<[term := (default 0 (docFreq !! term) + 1)%Z]> docFreq)
  end.

Definition document_frequency (docs : list string) : gmap string Z :=
  foldl (λ docFreq doc, count_terms (tokenize doc) ∅ docFreq) ∅ docs.

(** The number of documents a term occurs in, as the specification's
    [df] counts it. *)
Definition documents_containing (term : string) (docs : list string) : Z :=
  Z.of_nat (length (filter (λ doc, term ∈ tokenize doc) docs)).

Section ComputeIDF.
Context `{MapRange}.

Definition ComputeIDF (docs : list string) (e : TFIDFEmbedder) : TFIDFEmbedder :=
  let docFreq := document_frequency docs in
  {| idf := foldl (λ idf '(term, df),
                     if (0 <? df)%Z then <[term := log_ratio (docCount e) df]> idf
                     else idf) (idf e) (range docFreq);
     docCount := docCount e;
     vocab := vocab e |}.

End ComputeIDF.

(** The term ["t"] followed by the two decimal digits of [n]. *)
Definition numbered_term (n : nat) : string :=
  String "t" (String (ascii_of_nat (48 + n / 10)) (String (ascii_of_nat (48 + n mod 10)) "")).

(** One document holding a hundred distinct terms, [t00] to [t99], and one
    holding three. *)
Definition doc_100_terms : string :=
  String.concat " " (numbered_term <$> seq 0 100).

Definition doc_3_terms : string := "alpha beta gamma".

End Embed.

(** ** The persistent store: traversal over [calls] edges (package storage) *)
Module Storage.
Import Graph.

Definition prefixNode : string := "n:".
Definition prefixRel : string := "r:".
Definition prefixIncoming : string := "i:in:".
Definition prefixOutgoing : string := "i:out:".

(** What a key of the store holds: bytes, or something [item.Value] fails
    to read. *)
Inductive item :=
  | Value (val : string)
  | Unreadable.

Inductive db_error :=
  | ErrReadingRelID (key : string)
  | ErrReadingNode (key : string).

Record traversalItem := { nodeID : string; depth : Z }.

Section Backend.
(** [json.Unmarshal] into a node and into a relationship, and the entries
    of the database in key order, which is the order an iterator yields
    them in. *)
Variable unmarshal_node : string → option GraphNode.
Variable unmarshal_rel : string → option GraphRelationship.
Variable db : list (string * item).

(** [txn.Get(key)]; [None] is [ErrKeyNotFound]. *)
Definition txn_Get (key : string) : option item :=
  snd <$> List.find (λ kv, String.eqb kv.1 key) db.

Definition nodeKey (nodeID : string) : string := prefixNode ++ nodeID.
Definition relKey (relID : string) : string := prefixRel ++ relID.

(** An iterator with [opts.Prefix = prefix], from [Rewind] to the end. *)
Definition iterate (prefix : string) : list (string * item) :=
  filter (λ kv, strings.HasPrefix kv.1 prefix = true) db.

(** [txn.Get] followed by [item.Value] with [json.Unmarshal]; [None] when
    any of the three fails, which is where the callers [continue]. *)
Definition load_rel (relID : string) : option GraphRelationship :=
  match txn_Get (relKey relID) with
  | Some (Value val) => unmarshal_rel val
  | _ => None
  end.

Definition load_node (nodeID : string) : option GraphNode :=
  match txn_Get (nodeKey nodeID) with
  | Some (Value val) => unmarshal_node val
  | _ => None
  end.

(** The loop shared by [GetCallers] and [GetCallees]; [endpoint] picks the
    caller or the callee of a relationship. *)
Fixpoint collect (endpoint : GraphRelationship → string) (items : list (string * item))
    (found : list GraphNode) : list GraphNode + db_error :=
  match items with
  | [] => inl found
  | (key, Unreadable) :: _ => inr (ErrReadingRelID key)
  | (key, Value relID) :: rest =>
      match load_rel relID with
      | None => collect endpoint rest found
      | Some rel =>
          match load_node (endpoint rel) with
          | None => collect endpoint rest found
          | Some node => collect endpoint rest (found ++ [node])%list
          end
      end
  end.

Definition GetCallers (nodeID : string) : list GraphNode + db_error :=
  collect Source (iterate (prefixIncoming ++ nodeID ++ ":" ++ RelCalls)) [].

Definition GetCallees (nodeID : string) : list GraphNode + db_error :=
  collect Target (iterate (prefixOutgoing ++ nodeID ++ ":" ++ RelCalls)) [].

(** [getNode]: a missing key is [nil, nil]. *)
Definition getNode (nodeID : string) : option GraphNode + db_error :=
  match txn_Get (nodeKey nodeID) with
  | None => inl None
  | Some Unreadable => inr (ErrReadingNode (nodeKey nodeID))
  | Some (Value val) =>
      match unmarshal_node val with
      | Some node => inl (Some node)
      | None => inr (ErrReadingNode (nodeKey nodeID))
      end
  end.

(** The branch on [direction] inside the loop of [Traverse]. *)
Definition neighbors_of (direction nodeID : string) : list GraphNode + db_error :=
  if decide (direction = "callers") then GetCallers nodeID else GetCallees nodeID.

(** The loop [for len(queue) > 0] of [Traverse], run for at most [fuel]
    iterations; [None] when they do not suffice. *)
Fixpoint Traverse_loop (fuel : nat) (startID : string) (depth : Z) (direction : string)
    (queue : list traversalItem) (visited : gset string) (result : list GraphNode) :
    option (list GraphNode) :=
  match fuel with
  | O => None
  | S fuel =>
      match queue with
      | [] => Some result
      | current :: queue =>
          if decide (current.(nodeID) ∈ visited)
          then Traverse_loop fuel startID depth direction queue visited result
          else
            let visited := {[current.(nodeID)]} ∪ visited in
            match (if decide (current.(nodeID) ≠ startID)
                   then getNode current.(nodeID) else inl None) with
            | inr _ => Traverse_loop fuel startID depth direction queue visited result
            | inl node =>
                let result := match node with
                              | Some node => (result ++ [node])%list
                              | None => result
                              end in
                if (current.(Storage.depth) <? depth)%Z
                then match neighbors_of direction current.(nodeID) with
                     | inr _ =>
                         Traverse_loop fuel startID depth direction queue visited result
                     | inl neighbors =>
                         let queue :=
                           (queue ++ ((λ neighbor,
                                         {| nodeID := ID neighbor;
                                            depth := current.(Storage.depth) + 1 |})
                                      <$> filter (λ neighbor, ID neighbor ∉ visited) neighbors))%list in
                         Traverse_loop fuel startID depth direction queue visited result
                     end
                else Traverse_loop fuel startID depth direction queue visited result
            end
      end
  end.

(** The number of iterations the loop can take for one queued item: the
    size of the call tree below it, cut at the depth limit. *)
Fixpoint tree_size (direction : string) (levels : nat) (nodeID : string) : nat :=
  match levels with
  | O => 1
  | S levels =>
      S (sum_list_with (λ neighbor, tree_size direction levels (ID neighbor))
           match neighbors_of direction nodeID with
           | inl neighbors => neighbors
           | inr _ => []
           end)
  end.

Definition item_weight (direction : string) (depth : Z) (it : traversalItem) : nat :=
  tree_size direction (Z.to_nat (depth - it.(Storage.depth))) it.(nodeID).

Definition queue_weight (direction : string) (depth : Z) (queue : list traversalItem) : nat :=
  sum_list_with (item_weight direction depth) queue.

(** [Traverse]: the nodes and the error, which is always nil. *)
Definition Traverse (startID : string) (depth : Z) (direction : string) :
    option (list GraphNode * option db_error) :=
  let depth := if (10 <? depth)%Z then 10%Z else depth in
  let queue := [{| nodeID := startID; depth := 0 |}] in
  (λ result, (result, None)) <$>
    Traverse_loop (S (queue_weight direction depth queue)) startID depth direction queue ∅ [].

(** What one entry of an adjacency index contributes to [GetCallers] or
    [GetCallees] when it can be read: the node at the end of the
    relationship it names, if both records are there. *)
Definition resolve (endpoint : GraphRelationship → string) (entry : string * item) :
    option GraphNode :=
  match entry.2 with
  | Value relID => load_rel relID ≫= λ rel, load_node (endpoint rel)
  | Unreadable => None
  end.

Definition unreadable (entry : string * item) : bool :=
  match entry.2 with Unreadable => true | Value _ => false end.

(** [callee_edge x y]: the store holds an outgoing [calls] edge from [x]
    to [y] that a traversal can follow.  The index of the outgoing [calls]
    relationships of [x] can be read to its end, and one of its entries
    names a relationship that is in the store, whose target node is in the
    store and carries the ID [y]. *)
Definition callee_edge (x y : string) : Prop :=
  List.find unreadable (iterate (prefixOutgoing ++ x ++ ":" ++ RelCalls)) = None
  ∧ ∃ entry node, entry ∈ iterate (prefixOutgoing ++ x ++ ":" ++ RelCalls)
                  ∧ resolve Target entry = Some node ∧ ID node = y.

(** [expands startID x]: a traversal from [startID] that comes to [x] goes
    on from it.  That is so for the start node, which is never read, and
    for every node that [getNode] reads without an error, be it nil. *)
Definition expands (startID x : string) : Prop :=
  x = startID ∨ ∃ node, getNode x = inl node.

(** [reach startID d y]: [y] is [d] outgoing [calls] edges away from
    [startID], along nodes that the traversal goes on from. *)
Inductive reach (startID : string) : Z → string → Prop :=
  | reach_start : reach startID 0 startID
  | reach_step d x y :
      reach startID d x → expands startID x → callee_edge x y →
      reach startID (d + 1) y.

(** The invariant of the loop of [Traverse] when it follows outgoing
    edges, for the proof that it finds what [reach] describes.  [seen]
    gives every visited node the depth it was taken from the queue with.
    The queue holds items of one depth followed by items of the next. *)
Definition layered (h : Z) (queue : list traversalItem) : Prop :=
  ∃ q1 q2, queue = (q1 ++ q2)%list
           ∧ Forall (λ it, it.(depth) = h) q1
           ∧ Forall (λ it, it.(depth) = (h + 1)%Z) q2.

Record traverse_inv (startID : string) (limit : Z) (seen : gmap string Z)
    (queue : list traversalItem) (visited : gset string) (result : list GraphNode) :
    Prop := {
  inv_dom : dom seen = visited;
  inv_seen : ∀ x dx, seen !! x = Some dx →
    reach startID dx x ∧ (x ≠ startID → dx ≤ limit)%Z;
  inv_queue : ∀ it, it ∈ queue →
    reach startID it.(depth) it.(nodeID) ∧ (it.(nodeID) ≠ startID → it.(depth) ≤ limit)%Z;
  inv_layer : ∃ h, layered h queue ∧ ∀ x dx, seen !! x = Some dx → (dx ≤ h)%Z;
  inv_closed : ∀ x dx y,
    seen !! x = Some dx → expands startID x → (dx < limit)%Z → callee_edge x y →
    (∃ dy, seen !! y = Some dy ∧ (dy ≤ dx + 1)%Z)
    ∨ (∃ it, it ∈ queue ∧ it.(nodeID) = y ∧ (it.(depth) ≤ dx + 1)%Z);
  inv_result : ∀ node,
    node ∈ result ↔ ∃ key, key ∈ visited ∧ key ≠ startID ∧ getNode key = inl (Some node);
  inv_start :
    (∃ d0, seen !! startID = Some d0 ∧ (d0 ≤ 0)%Z)
    ∨ (∃ it, it ∈ queue ∧ it.(nodeID) = startID ∧ it.(depth) = 0%Z)
}.

End Backend.

(** *** Full-text search over the in-memory index *)

(** [sort.Slice(results, func(i, j) bool { return results[i].Score >
    results[j].Score })] on search results. *)
Class SortResults := {
  sort_results : list Search.SearchResult → list Search.SearchResult;
  sort_results_perm : ∀ l, sort_results l ≡ₚ l;
  sort_results_sorted : ∀ l i j x y,
    (i < j)%nat → sort_results l !! i = Some x → sort_results l !! j = Some y →
    ¬ (Search.Score x < Search.Score y)%Q
}.

Definition tokenizeForFTS (text : string) : list string :=
  let text := strings.ToLower text in
  let tokens := strings.FieldsFunc text Embed.is_separator in
  filter (λ t, (2 <= String.length t)%nat) tokens.

(** [for _, nodeID := range nodeIDs { nodeIDSet[nodeID]++ }] *)
Definition count_postings (nodeIDSet : gmap string Z) (nodeIDs : list string) :
    gmap string Z :=
  foldl (λ nodeIDSet nodeID,
           <[nodeID := (default 0 (nodeIDSet !! nodeID) + 1)%Z]> nodeIDSet)
        nodeIDSet nodeIDs.

Definition match_tokens (ftsIndex : gmap string (list string)) (queryTokens : list string) :
    gmap string Z :=
  foldl (λ nodeIDSet token,
           match ftsIndex !! token with
           | Some nodeIDs => count_postings nodeIDSet nodeIDs
           | None => nodeIDSet
           end) ∅ queryTokens.

(** The number of postings of [nodeID] under the tokens of a query, a
    token counted as often as the query has it. *)
Definition postings_matched (ftsIndex : gmap string (list string))
    (queryTokens : list string) (nodeID : string) : nat :=
  sum_list_with (λ token, length (filter (λ id, id = nodeID)
                                         (default [] (ftsIndex !! token))))
                queryTokens.

(** [snippet := node.Content; if len(snippet) > 200 { snippet = snippet[:200] }] *)
Definition snippet_of (content : string) : string :=
  if (200 <? String.length content)%nat then String.substring 0 200 content else content.

Section FullText.
Context `{MapRange} `{SortResults}.
Variable unmarshal_node : string → option GraphNode.
Variable db : list (string * item).

(** The loop that fetches the matching nodes, with its [break]. *)
Fixpoint fetch_results (limit : Z) (entries : list (string * Z))
    (results : list Search.SearchResult) : list Search.SearchResult :=
  match entries with
  | [] => results
  | (nodeID, score) :: rest =>
      match getNode unmarshal_node db nodeID with
      | inl (Some node) =>
          let results :=
            (results ++ [{| Search.NodeID := nodeID; Search.Score := inject_Z score;
                            Search.NodeName := Name node;
                            Search.FilePath := FilePath node;
                            Search.Label := Label node;
                            Search.Snippet := snippet_of (Content node) |}])%list in
          if (limit <=? Z.of_nat (length results))%Z then results
          else fetch_results limit rest results
      | _ => fetch_results limit rest results
      end
  end.

(** [FTSSearch]; [ftsIndex] is [None] for the nil map of a backend that
    was never initialised.  The error is always nil and is left out. *)
Definition FTSSearch (ftsIndex : option (gmap string (list string)))
    (query : string) (limit : Z) : list Search.SearchResult :=
  match ftsIndex with
  | None => []
  | Some ftsIndex =>
      let queryTokens := tokenizeForFTS query in
      if (length queryTokens =? 0)%nat then []
      else
        let nodeIDSet := match_tokens ftsIndex queryTokens in
        if (size nodeIDSet =? 0)%nat then []
        else sort_results (fetch_results limit (range nodeIDSet) [])
  end.

End FullText.

(** [indexNodeForFTS]: the tokens of the name, of the first 500 bytes of
    the content and of the signature, each filed under the node's ID. *)
Definition add_postings (nodeID : string) (tokens : list string)
    (ftsIndex : gmap string (list string)) : gmap string (list string) :=
  foldl (λ ftsIndex token,
           <[token := (default [] (ftsIndex !! token) ++ [nodeID])%list]> ftsIndex)
        ftsIndex tokens.

Definition indexNodeForFTS (node : GraphNode) (ftsIndex : gmap string (list string)) :
    gmap string (list string) :=
  let ftsIndex := add_postings (ID node) (tokenizeForFTS (Name node)) ftsIndex in
  let ftsIndex :=
    if (0 <? String.length (Content node))%nat
    then
      let content :=
        if (500 <? String.length (Content node))%nat
        then String.substring 0 500 (Content node) else Content node in
      add_postings (ID node) (tokenizeForFTS content) ftsIndex
    else ftsIndex in
  if (0 <? String.length (Signature node))%nat
  then add_postings (ID node) (tokenizeForFTS (Signature node)) ftsIndex
  else ftsIndex.

(** An insertion sort by descending score, as one possible [sort.Slice]. *)
Fixpoint insert_result (x : Search.SearchResult) (l : list Search.SearchResult) :
    list Search.SearchResult :=
  match l with
  | [] => [x]
  | y :: rest =>
      if Qle_bool (Search.Score y) (Search.Score x) then x :: l
      else y :: insert_result x rest
  end.

Definition insertion_sort_results (l : list Search.SearchResult) :
    list Search.SearchResult :=
  foldr insert_result [] l.

End Storage.

(** ** The pipeline orchestrator (package ingestion) *)
Module Pipeline.

(** The twelve phases, with the numbers the repository's documentation and
    the comments of [RunPipeline] give them. *)
Inductive phase :=
  | Walk | Structure | Parsing | Imports | Calls | Heritage | Types
  | Communities | Processes | DeadCode | Coupling | Embeddings.

Definition number (p : phase) : nat :=
  match p with
  | Walk => 1 | Structure => 2 | Parsing => 3 | Imports => 4 | Calls => 5
  | Heritage => 6 | Types => 7 | Communities => 8 | Processes => 9
  | DeadCode => 10 | Coupling => 11 | Embeddings => 12
  end.

(** What an observer of a run sees: progress reports, and the function of
    each phase being entered and returning.  [BulkLoad] is the load into
    the store that follows the phases. *)
Inductive event :=
  | Progress (name : string) (finished : bool)
  | Enter (p : phase)
  | Return (p : phase)
  | BulkLoad.

Record PipelineResult := {
  Files : Z;
  Symbols : Z;
  Relationships : Z;
  DeadCodeCount : Z;
  CoupledPairs : Z
}.

Section Run.
(** The functions [RunPipeline] calls, over whatever the file entries, the
    parse data, the graph and the store are.  [WalkRepo] here is the walk
    with the patterns [loadGitignore] has read for the same path. *)
Variables FileEntry ParseData Graph Store Err : Type.
Variable WalkRepo : string → list FileEntry + Err.
Variable NewKnowledgeGraph : Graph.
Variable ProcessStructure : list FileEntry → Graph → Graph.
Variable ProcessParsing : list FileEntry → Graph → ParseData * Graph.
Variable ProcessImports ProcessCalls ProcessHeritage ProcessTypes : ParseData → Graph → Graph.
Variable ProcessProcesses DetectCommunities ProcessDeadCode : Graph → Z * Graph.
Variable ProcessCoupling : Graph → string → Z * Graph.
Variable GenerateAndStoreEmbeddings : Graph → Store → option Err * Store.
Variable StoreBulkLoad : Graph → Store → option Err * Store.
Variable countSymbols RelationshipCount : Graph → Z.
(** Whether the graph has no node at all. *)
Variable no_nodes : Graph → bool.

(** The state of a run: the graph behind the pointer [g], the store, and
    the events so far. *)
Record world := { graph : Graph; store : option Store; trace : list event }.

(** Computations over the world; [None] is a run-time panic. *)
Definition M (A : Type) : Type := world → option (A * world).

#[global] Instance M_ret : MRet M := λ A x w, Some (x, w).

#[global] Instance M_bind : MBind M := λ A B k c w,
  match c w with
  | Some (x, w) => k x w
  | None => None
  end.

Definition get {A} (f : world → A) : M A := λ w, Some (f w, w).

Definition emit (e : event) : M unit :=
  λ w, Some (tt, {| graph := graph w; store := store w; trace := (trace w ++ [e])%list |}).

(** [if progress != nil { progress(name, 0.0 or 1.0) }] *)
Definition report (progress : bool) (name : string) (finished : bool) : M unit :=
  if progress then emit (Progress name finished) else mret tt.

(** A call of a phase function on [g]: it is entered, it works on the
    graph, it returns. *)
Definition call {A} (p : phase) (f : Graph → A * Graph) : M A :=
  emit (Enter p) ;;
  x ← (λ w, let '(x, g) := f (graph w) in
            Some (x, {| graph := g; store := store w; trace := trace w |}));
  emit (Return p) ;;
  mret x.

Definition in_place (f : Graph → Graph) (g : Graph) : unit * Graph := (tt, f g).

(** The call of [GenerateAndStoreEmbeddings]; its error is printed and
    dropped.  It returns at once on a graph without nodes, and otherwise
    ends in [store.StoreEmbeddings], which panics on a nil store. *)
Definition embed : M unit :=
  λ w, match store w with
       | Some s =>
           let '(_, s) := GenerateAndStoreEmbeddings (graph w) s in
           Some (tt, {| graph := graph w; store := Some s; trace := trace w |})
       | None => if no_nodes (graph w) then Some (tt, w) else None
       end.

Definition phases (repoPath : string) (entries : list FileEntry)
    (progress embeddings : bool) : M (PipelineResult + Err) :=
  report progress "Walking files" true ;;
  (* Phase 2: Structure *)
  report progress "Processing structure" false ;;
  call Structure (in_place (ProcessStructure entries)) ;;
  report progress "Processing structure" true ;;
  (* Phase 3: Parsing *)
  report progress "Parsing code" false ;;
  parseData ← call Parsing (ProcessParsing entries);
  report progress "Parsing code" true ;;
  (* Phase 4: Imports *)
  report progress "Resolving imports" false ;;
  call Imports (in_place (ProcessImports parseData)) ;;
  report progress "Resolving imports" true ;;
  (* Phase 5: Calls *)
  report progress "Tracing calls" false ;;
  call Calls (in_place (ProcessCalls parseData)) ;;
  report progress "Tracing calls" true ;;
  (* Phase 6: Heritage *)
  report progress "Extracting heritage" false ;;
  call Heritage (in_place (ProcessHeritage parseData)) ;;
  report progress "Extracting heritage" true ;;
  (* Phase 7: Types *)
  report progress "Analyzing types" false ;;
  call Types (in_place (ProcessTypes parseData)) ;;
  report progress "Analyzing types" true ;;
  (* Phase 9: Process/Flow Detection *)
  report progress "Detecting execution flows" false ;;
  processCount ← call Processes ProcessProcesses;
  report progress "Detecting execution flows" true ;;
  (* Phase 8: Community Detection *)
  report progress "Detecting communities" false ;;
  communityCount ← call Communities DetectCommunities;
  report progress "Detecting communities" true ;;
  (* Phase 11: Git Coupling Analysis *)
  report progress "Analyzing git history" false ;;
  coupledCount ← call Coupling (λ g, ProcessCoupling g repoPath);
  report progress "Analyzing git history" true ;;
  (* Phase 10: Dead Code Detection *)
  report progress "Detecting dead code" false ;;
  deadCodeCount ← call DeadCode ProcessDeadCode;
  report progress "Detecting dead code" true ;;
  (* Phase 12: Embeddings (if enabled) *)
  (if embeddings && progress then emit (Progress "Generating embeddings" false) else mret tt) ;;
  (if embeddings
   then emit (Enter Embeddings) ;;
        embed ;;
        emit (Return Embeddings)
   else mret tt) ;;
  (if embeddings && progress then emit (Progress "Generating embeddings" true) else mret tt) ;;
  (* Count results *)
  symbols ← get (λ w, countSymbols (graph w));
  relationships ← get (λ w, RelationshipCount (graph w));
  let result := {| Files := Z.of_nat (length entries); Symbols := symbols;
                   Relationships := relationships; DeadCodeCount := deadCodeCount;
                   CoupledPairs := coupledCount |} in
  (* Store in backend *)
  backend ← get store;
  match backend with
  | None => mret (inl result)
  | Some s =>
      report progress "Loading to storage" false ;;
      emit BulkLoad ;;
      err ← (λ w, let '(err, s) := StoreBulkLoad (graph w) s in
                  Some (err, {| graph := graph w; store := Some s; trace := trace w |}));
      match err with
      | Some err => mret (inr err)
      | None => report progress "Loading to storage" true ;; mret (inl result)
      end
  end.

(** [RunPipeline]: the result or the error, and the world it leaves. *)
Definition RunPipeline (repoPath : string) (backend : option Store)
    (progress embeddings : bool) : option ((PipelineResult + Err) * world) :=
  (report progress "Walking files" false ;;
   (* Phase 1: File walking *)
   emit (Enter Walk) ;;
   match WalkRepo repoPath with
   | inr err => mret (inr err)
   | inl entries =>
       emit (Return Walk) ;;
       phases repoPath entries progress embeddings
   end) {| graph := NewKnowledgeGraph; store := backend; trace := [] |}.

(** The graph when the last of the phases 2 to 11 has returned. *)
Definition graph_after_phases (repoPath : string) (entries : list FileEntry) : Graph :=
  let g := ProcessStructure entries NewKnowledgeGraph in
  let '(parseData, g) := ProcessParsing entries g in
  let g := ProcessImports parseData g in
  let g := ProcessCalls parseData g in
  let g := ProcessHeritage parseData g in
  let g := ProcessTypes parseData g in
  let g := (ProcessProcesses g).2 in
  let g := (DetectCommunities g).2 in
  let g := (ProcessCoupling g repoPath).2 in
  (ProcessDeadCode g).2.

(** The calls of phase functions in a trace, and the phases in the order
    in which they are entered. *)
Definition is_phase_call (e : event) : bool :=
  match e with Enter _ | Return _ => true | _ => false end.

Definition phase_calls (t : list event) : list event :=
  filter (λ e, is_phase_call e = true) t.

Definition entered (t : list event) : list phase :=
  omap (λ e, match e with Enter p => Some p | _ => None end) t.

(** [before t p q]: in [t], [p] returns, and [q] is entered only later. *)
Definition before (t : list event) (p q : phase) : Prop :=
  ∃ i j, t !! i = Some (Return p) ∧ t !! j = Some (Enter q) ∧ (i < j)%nat.

(** [runs c P es]: started with a store, [c] does not panic, returns a
    value that [P] holds of, keeps the store, and adds the phase calls [es]
    to the trace. *)
Definition runs {A} (c : M A) (P : A → Prop) (es : list event) : Prop :=
  ∀ w, is_Some (store w) →
    ∃ x w', c w = Some (x, w') ∧ P x ∧ is_Some (store w')
            ∧ phase_calls (trace w') = (phase_calls (trace w) ++ es)%list.

(** The phase calls of a run, with or without the embedding phase. *)
Definition expected_calls (embeddings : bool) : list event :=
  ([Enter Walk; Return Walk; Enter Structure; Return Structure;
    Enter Parsing; Return Parsing; Enter Imports; Return Imports;
    Enter Calls; Return Calls; Enter Heritage; Return Heritage;
    Enter Types; Return Types; Enter Processes; Return Processes;
    Enter Communities; Return Communities; Enter Coupling; Return Coupling;
    Enter DeadCode; Return DeadCode]
   ++ if embeddings then [Enter Embeddings; Return Embeddings] else [])%list.

End Run.

Arguments trace {Graph Store} _.
Arguments store {Graph Store} _.
Arguments graph {Graph Store} _.
Arguments runs {Graph Store A} _ _ _.

End Pipeline.

(** ** Concrete graphs *)
Module Examples.
Import Graph DeadCode.

Definition symbol (label : NodeLabel) (file name class : string)
    (entry exported : bool) : GraphNode :=
  {| ID := label ++ ":" ++ file ++ ":" ++ (if bool_decide (class = "") then name
                                          else class ++ "." ++ name);
     Label := label; Name := name; FilePath := file; StartLine := 0; EndLine := 0;
     Content := ""; Signature := ""; Language := ""; ClassName := class;
     IsDead := false; IsEntryPoint := entry; IsExported := exported;
     Decorators := []; Properties := ∅ |}.

Definition edge (id : string) (type : RelType) (source target : string) :
    GraphRelationship :=
  {| rID := id; rType := type; Source := source; Target := target; rProperties := ∅ |}.

(** A two-node graph with one call edge, and a graph holding only an edge
    whose endpoints were never added. *)
Definition node_foo : GraphNode :=
  {| ID := "function:a.py:foo"; Label := NodeFunction; Name := "foo";
     FilePath := "a.py"; StartLine := 0; EndLine := 0; Content := "";
     Signature := ""; Language := ""; ClassName := ""; IsDead := false;
     IsEntryPoint := false; IsExported := false; Decorators := [];
     Properties := ∅ |}.

Definition node_bar : GraphNode :=
  {| ID := "function:b.py:bar"; Label := NodeFunction; Name := "bar";
     FilePath := "b.py"; StartLine := 0; EndLine := 0; Content := "";
     Signature := ""; Language := ""; ClassName := ""; IsDead := false;
     IsEntryPoint := false; IsExported := false; Decorators := [];
     Properties := ∅ |}.

Definition rel1 : GraphRelationship :=
  {| rID := "rel1"; rType := RelCalls; Source := "function:a.py:foo";
     Target := "function:b.py:bar"; rProperties := ∅ |}.

Definition g_cascade : KnowledgeGraph :=
  AddRelationship rel1 (AddNode node_bar (AddNode node_foo NewKnowledgeGraph)).

Definition g_dangling : KnowledgeGraph := AddRelationship rel1 NewKnowledgeGraph.

(** Scenario 2 of the specification: [main] is an entry point and calls
    [helper]; nothing calls [bar]. *)
Definition fn_main : GraphNode := symbol NodeFunction "main.go" "main" "" true false.
Definition fn_helper : GraphNode := symbol NodeFunction "main.go" "helper" "" false false.
Definition fn_bar : GraphNode := symbol NodeFunction "main.go" "bar" "" false false.

Definition g_scenario : KnowledgeGraph :=
  AddRelationship (edge "calls:1" RelCalls (ID fn_main) (ID fn_helper))
    (AddNode fn_bar (AddNode fn_helper (AddNode fn_main NewKnowledgeGraph))).

(** Scenario 3: [Derived] extends [Base]; both have a method [String];
    only [Base.String] is exported. *)
Definition class_Base : GraphNode := symbol NodeClass "base.go" "Base" "" false false.
Definition Base_String : GraphNode := symbol NodeMethod "base.go" "String" "Base" false true.
Definition class_Derived : GraphNode := symbol NodeClass "derived.go" "Derived" "" false false.
Definition Derived_String : GraphNode :=
  symbol NodeMethod "derived.go" "String" "Derived" false false.

Definition g_override : KnowledgeGraph :=
  AddRelationship (edge "extends:1" RelExtends (ID class_Derived) (ID class_Base))
    (AddNode Derived_String (AddNode class_Derived
      (AddNode Base_String (AddNode class_Base NewKnowledgeGraph)))).

(** The same with a class [Middle] between the two, which has no method
    [String]: [Derived] extends [Middle] extends [Base]. *)
Definition class_Middle : GraphNode := symbol NodeClass "middle.go" "Middle" "" false false.

Definition g_chain : KnowledgeGraph :=
  AddRelationship (edge "extends:2" RelExtends (ID class_Middle) (ID class_Base))
    (AddRelationship (edge "extends:1" RelExtends (ID class_Derived) (ID class_Middle))
      (AddNode Derived_String (AddNode class_Derived (AddNode class_Middle
        (AddNode Base_String (AddNode class_Base NewKnowledgeGraph)))))).

(** A service class whose exported method [Run] calls its method [step],
    and a function [registerTools] that nothing calls. *)
Definition Svc_Run : GraphNode := symbol NodeMethod "svc.go" "Run" "Svc" false true.
Definition Svc_step : GraphNode := symbol NodeMethod "svc.go" "step" "Svc" false false.
Definition fn_register : GraphNode :=
  symbol NodeFunction "tools.go" "registerTools" "" false false.

Definition g_service : KnowledgeGraph :=
  AddRelationship (edge "calls:1" RelCalls (ID Svc_Run) (ID Svc_step))
    (AddNode fn_register (AddNode Svc_step (AddNode Svc_Run NewKnowledgeGraph))).

(** A repository whose second file cannot be read. *)
Definition repo_unreadable : Walker.FsNode :=
  Walker.FsDir "repo"
    (Some [Walker.FsFile "a.go" (Some "package a");
           Walker.FsFile "b.go" None;
           Walker.FsFile "c.go" (Some "package c")]).

(** A repository with one Go file, one file of no supported language, and
    a [.git] directory holding a Python file. *)
Definition repo_small : Walker.FsNode :=
  Walker.FsDir "repo"
    (Some [Walker.FsDir ".git" (Some [Walker.FsFile "hook.py" (Some "print()")]);
           Walker.FsFile "README.md" (Some "# readme");
           Walker.FsFile "main.go" (Some "package main")]).

Definition entry_main_go : Walker.FileEntry :=
  {| Walker.Path := "/repo/main.go"; Walker.RelPath := "main.go";
     Walker.Language := "go"; Walker.Content := "package main";
     Walker.SHA256 := ""; Walker.EntryIsDir := false |}.

Definition match_nothing (pathParts : list string) (isDir : bool) : bool := false.
Definition no_digest (content : string) : string := "".

(** A backend whose full-text search ranks [UserService] before
    [parseUser] and whose vector search agrees. *)
Definition hit (id : string) : Search.SearchResult :=
  {| Search.NodeID := id; Search.Score := 1; Search.NodeName := id;
     Search.FilePath := "user.go"; Search.Label := "function"; Search.Snippet := "" |}.

#[export] Instance two_lists : Search.StorageBackend Q := {|
  Search.FTSSearch := λ _ _, inl [hit "UserService"; hit "helper"; hit "parseUser"];
  Search.VectorSearch := λ _ _, inl [hit "UserService"; hit "parseUser"]
|}.

(** A store with three functions: [a] calls [b], and [c] calls [a].  Node
    values are the node's name, relationship values the relationship's ID. *)
Definition decode_node (val : string) : option GraphNode :=
  Some (symbol NodeFunction "x.go" val "" false false).

Definition decode_rel (val : string) : option GraphRelationship :=
  if String.eqb val "r1"
  then Some (edge "r1" RelCalls "function:x.go:a" "function:x.go:b")
  else if String.eqb val "r2"
  then Some (edge "r2" RelCalls "function:x.go:c" "function:x.go:a")
  else None.

Definition db_calls : list (string * Storage.item) :=
  [("i:in:function:x.go:a:calls:r2", Storage.Value "r2");
   ("i:in:function:x.go:b:calls:r1", Storage.Value "r1");
   ("i:out:function:x.go:a:calls:r1", Storage.Value "r1");
   ("i:out:function:x.go:c:calls:r2", Storage.Value "r2");
   ("n:function:x.go:a", Storage.Value "a");
   ("n:function:x.go:b", Storage.Value "b");
   ("n:function:x.go:c", Storage.Value "c");
   ("r:r1", Storage.Value "r1");
   ("r:r2", Storage.Value "r2")].

(** A store holding the one function [parseUser]. *)
Definition fn_parseUser : GraphNode :=
  symbol NodeFunction "x.go" "parseUser" "" false false.

Definition db_search : list (string * Storage.item) :=
  [("n:function:x.go:parseUser", Storage.Value "parseUser")].

(** The smallest run of the pipeline: phases that do nothing, over unit. *)
Definition unit_pipeline (repoPath : string) (progress embeddings : bool) :=
  Pipeline.RunPipeline unit unit unit unit unit
    (λ _, inl []) tt (λ _ g, g) (λ _ g, (tt, g))
    (λ _ g, g) (λ _ g, g) (λ _ g, g) (λ _ g, g)
    (λ g, (0%Z, g)) (λ g, (0%Z, g)) (λ g, (0%Z, g)) (λ g _, (0%Z, g))
    (λ _ s, (None, s)) (λ _ s, (None, s)) (λ _, 0%Z) (λ _, 0%Z) (λ _, true)
    repoPath (Some tt) progress embeddings.

(** A run over file names: the graph is the list of the files seen, the
    store the list of what was loaded; the walk finds the one file
    [a.go], and the embedding step files the graph after what the store
    holds. *)
Definition names_pipeline (backend : option (list string)) (progress embeddings : bool) :=
  Pipeline.RunPipeline string unit (list string) (list string) string
    (λ _, inl ["a.go"]) [] (λ es g, (g ++ es)%list) (λ _ g, (tt, g))
    (λ _ g, g) (λ _ g, g) (λ _ g, g) (λ _ g, g)
    (λ g, (0%Z, g)) (λ g, (0%Z, g)) (λ g, (0%Z, g)) (λ g _, (0%Z, g))
    (λ g s, (None, (s ++ g)%list)) (λ g _, (None, g))
    (λ g, Z.of_nat (length g)) (λ _, 0%Z) (λ g, match g with [] => true | _ => false end)
    "/repo" backend progress embeddings.

End Examples.

(** * Properties

    ** Ranging over a map *)
Section RangeFacts.
Context `{MapRange}.

Lemma elem_of_range {A} (m : gmap string A) k v :
  (k, v) ∈ range m ↔ m !! k = Some v.
Proof.
  unfold range. rewrite (range_order_perm _ (map_to_list m)).
  apply elem_of_map_to_list.
Qed.

Lemma NoDup_fst_range {A} (m : gmap string A) : NoDup (range m).*1.
Proof.
  unfold range. rewrite (range_order_perm _ (map_to_list m)).
  apply NoDup_fst_map_to_list.
Qed.

Lemma elem_of_range_keys {A} (m : gmap string A) k :
  k ∈ (range m).*1 ↔ is_Some (m !! k).
Proof.
  rewrite list_elem_of_fmap. split.
  - intros [[k' v] [-> Hin]]. apply elem_of_range in Hin. eauto.
  - intros [v Hv]. exists (k, v). split; [done|]. by apply elem_of_range.
Qed.

Lemma elem_of_range_values {A} (m : gmap string A) (v : A) :
  v ∈ (range m).*2 ↔ ∃ k, m !! k = Some v.
Proof.
  rewrite list_elem_of_fmap. split.
  - intros [[k v'] [-> Hin]]. apply elem_of_range in Hin. eauto.
  - intros [k Hk]. exists (k, v). split; [done|]. by apply elem_of_range.
Qed.

End RangeFacts.

(** ** The graph: index coherence and the cascade *)
Module GraphFacts.
Import Graph Examples.

Section Facts.
Context `{MapRange}.

Lemma idx_lookup_delete_in {A} (idx : gmap string (gmap string A)) k1 k2 k id :
  idx_lookup (delete_in k1 k2 idx) k id =
  if decide (k = k1 ∧ id = k2) then None else idx_lookup idx k id.
Proof.
  unfold idx_lookup, delete_in. rewrite lookup_alter.
  destruct (decide (k1 = k)) as [->|Hk].
  - destruct (idx !! k) as [m|] eqn:Hm; simpl.
    + rewrite lookup_delete. repeat case_decide; naive_solver.
    + by case_decide.
  - case_decide; naive_solver.
Qed.

Lemma idx_lookup_insert_in {A} (idx : gmap string (gmap string A)) k1 k2 v k id :
  idx_lookup (insert_in k1 k2 v idx) k id =
  if decide (k = k1 ∧ id = k2) then Some v else idx_lookup idx k id.
Proof.
  unfold idx_lookup, insert_in. rewrite lookup_insert.
  destruct (decide (k1 = k)) as [->|Hk]; simpl.
  - rewrite lookup_insert. destruct (idx !! k) as [m|] eqn:Hm; simpl;
      repeat case_decide; naive_solver.
  - case_decide; naive_solver.
Qed.

Lemma idx_lookup_delete {A} (idx : gmap string (gmap string A)) k1 k id :
  idx_lookup (delete k1 idx) k id =
  if decide (k = k1) then None else idx_lookup idx k id.
Proof.
  unfold idx_lookup. rewrite lookup_delete.
  repeat case_decide; naive_solver.
Qed.

Lemma idx_lookup_Some {A} (idx : gmap string (gmap string A)) k id r :
  idx_lookup idx k id = Some r ↔ ∃ m, idx !! k = Some m ∧ m !! id = Some r.
Proof.
  unfold idx_lookup. destruct (idx !! k) as [m|]; simpl; naive_solver.
Qed.

(** What the two cascade loops leave behind, field by field. *)
Lemma cascade_out_fold L g :
  let g' := foldl cascade_out_step g L in
  nodes g' = nodes g ∧ byLabel g' = byLabel g ∧ outgoing g' = outgoing g
  ∧ (∀ id r, relationships g' !! id = Some r ↔
       relationships g !! id = Some r ∧ ∀ rel, rel ∈ L → rID rel ≠ id)
  ∧ (∀ ty id r, idx_lookup (byRelType g') ty id = Some r ↔
       idx_lookup (byRelType g) ty id = Some r
       ∧ ∀ rel, rel ∈ L → ¬ (ty = rType rel ∧ id = rID rel))
  ∧ (∀ t id r, idx_lookup (incoming g') t id = Some r ↔
       idx_lookup (incoming g) t id = Some r
       ∧ ∀ rel, rel ∈ L → ¬ (t = Target rel ∧ id = rID rel)).
Proof.
  revert g. induction L as [|x L IH]; intros g; simpl.
  - split_and!; try done; intros; (split; [intros ?; split; [done|]|intros []; done]);
      intros ? ?%elem_of_nil; done.
  - destruct (IH (cascade_out_step g x)) as (Hn & Hl & Ho & Hr & Ht & Hi).
    simpl in *. rewrite Hn, Hl, Ho. split_and!; try done.
    + intros id r. rewrite Hr. simpl. rewrite lookup_delete.
      setoid_rewrite elem_of_cons. case_decide; naive_solver.
    + intros ty id r. rewrite Ht. simpl. rewrite idx_lookup_delete_in.
      setoid_rewrite elem_of_cons. case_decide; naive_solver.
    + intros t id r. rewrite Hi. simpl. rewrite idx_lookup_delete_in.
      setoid_rewrite elem_of_cons. case_decide; naive_solver.
Qed.

Lemma cascade_in_fold L g :
  let g' := foldl cascade_in_step g L in
  nodes g' = nodes g ∧ byLabel g' = byLabel g ∧ incoming g' = incoming g
  ∧ (∀ id r, relationships g' !! id = Some r ↔
       relationships g !! id = Some r ∧ ∀ rel, rel ∈ L → rID rel ≠ id)
  ∧ (∀ ty id r, idx_lookup (byRelType g') ty id = Some r ↔
       idx_lookup (byRelType g) ty id = Some r
       ∧ ∀ rel, rel ∈ L → ¬ (ty = rType rel ∧ id = rID rel))
  ∧ (∀ s id r, idx_lookup (outgoing g') s id = Some r ↔
       idx_lookup (outgoing g) s id = Some r
       ∧ ∀ rel, rel ∈ L → ¬ (s = Source rel ∧ id = rID rel)).
Proof.
  revert g. induction L as [|x L IH]; intros g; simpl.
  - split_and!; try done; intros; (split; [intros ?; split; [done|]|intros []; done]);
      intros ? ?%elem_of_nil; done.
  - destruct (IH (cascade_in_step g x)) as (Hn & Hl & Ho & Hr & Ht & Hi).
    simpl in *. rewrite Hn, Hl, Ho. split_and!; try done.
    + intros id r. rewrite Hr. simpl. rewrite lookup_delete.
      setoid_rewrite elem_of_cons. case_decide; naive_solver.
    + intros ty id r. rewrite Ht. simpl. rewrite idx_lookup_delete_in.
      setoid_rewrite elem_of_cons. case_decide; naive_solver.
    + intros t id r. rewrite Hi. simpl. rewrite idx_lookup_delete_in.
      setoid_rewrite elem_of_cons. case_decide; naive_solver.
Qed.

Lemma rel_wf_New : rel_wf NewKnowledgeGraph.
Proof. split; simpl; intros *; unfold idx_lookup; rewrite lookup_empty; done. Qed.

Lemma rel_wf_same_rels g g' :
  relationships g' = relationships g → byRelType g' = byRelType g →
  outgoing g' = outgoing g → incoming g' = incoming g →
  rel_wf g → rel_wf g'.
Proof.
  intros Hr Ht Ho Hi [W1 W2 W3 W4].
  split; rewrite ?Hr, ?Ht, ?Ho, ?Hi; assumption.
Qed.

Lemma rel_wf_AddNode n g : rel_wf g → rel_wf (AddNode n g).
Proof. by apply rel_wf_same_rels. Qed.

Lemma rel_wf_unlink_node id n g : rel_wf g → rel_wf (unlink_node id n g).
Proof. by apply rel_wf_same_rels. Qed.

Lemma rel_wf_AddRelationship rel g : rel_wf g → rel_wf (AddRelationship rel g).
Proof.
  intros [W1 W2 W3 W4]. unfold AddRelationship.
  destruct (relationships g !! rID rel) as [old|] eqn:Hold.
  - destruct (W1 _ _ Hold) as (Hid & Ho & Hi & Ht).
    split; simpl; intros *.
    + rewrite lookup_insert. case_decide as Hk.
      * intros [= <-]. rewrite !idx_lookup_insert_in.
        repeat case_decide; naive_solver.
      * intros Hr. destruct (W1 _ _ Hr) as (? & ? & ? & ?).
        rewrite !idx_lookup_insert_in, !idx_lookup_delete_in.
        repeat case_decide; naive_solver.
    + rewrite idx_lookup_insert_in, idx_lookup_delete_in, lookup_insert.
      repeat case_decide; naive_solver.
    + rewrite idx_lookup_insert_in, idx_lookup_delete_in, lookup_insert.
      repeat case_decide; naive_solver.
    + rewrite idx_lookup_insert_in, idx_lookup_delete_in, lookup_insert.
      repeat case_decide; naive_solver.
  - split; simpl; intros *.
    + rewrite lookup_insert. case_decide as Hk.
      * intros [= <-]. rewrite !idx_lookup_insert_in.
        repeat case_decide; naive_solver.
      * intros Hr. destruct (W1 _ _ Hr) as (? & ? & ? & ?).
        rewrite !idx_lookup_insert_in.
        repeat case_decide; naive_solver.
    + rewrite idx_lookup_insert_in, lookup_insert.
      repeat case_decide; naive_solver.
    + rewrite idx_lookup_insert_in, lookup_insert.
      repeat case_decide; naive_solver.
    + rewrite idx_lookup_insert_in, lookup_insert.
      repeat case_decide; naive_solver.
Qed.

(** The first loop and [delete(g.outgoing, nodeID)] keep the indexes
    coherent and leave no adjacency entry under [nodeID]. *)
Lemma rel_wf_cascade_outgoing v g :
  rel_wf g → rel_wf (cascade_outgoing v g) ∧ outgoing (cascade_outgoing v g) !! v = None
  ∧ (incoming g !! v = None → incoming (cascade_outgoing v g) !! v = None).
Proof.
  intros Hwf. pose proof Hwf as [W1 W2 W3 W4]. unfold cascade_outgoing.
  destruct (outgoing g !! v) as [outRels|] eqn:Hout; [|done].
  pose proof (cascade_out_fold (range outRels).*2 g) as (Hn & Hl & Ho & Hr & Ht & Hi).
  simpl in *.
  set (g1 := foldl cascade_out_step g (range outRels).*2) in *.
  assert (HL : ∀ rel, rel ∈ (range outRels).*2 →
            relationships g !! rID rel = Some rel ∧ Source rel = v).
  { intros rel [k Hk]%elem_of_range_values.
    assert (idx_lookup (outgoing g) v k = Some rel) as Hs
      by (apply idx_lookup_Some; eauto).
    destruct (W2 _ _ _ Hs) as [Hrel ?]. destruct (W1 _ _ Hrel) as [-> _]. done. }
  assert (HL' : ∀ id r, relationships g !! id = Some r → Source r = v →
            r ∈ (range outRels).*2).
  { intros id r Hrel Hsrc. destruct (W1 _ _ Hrel) as (_ & Hs & _).
    rewrite Hsrc in Hs. apply idx_lookup_Some in Hs as (m & Hm & Hid).
    rewrite Hout in Hm. injection Hm as <-. apply elem_of_range_values. eauto. }
  split_and!.
  - split; simpl; intros *.
    + rewrite Hr. intros [Hrel Hall]. destruct (W1 _ _ Hrel) as (Hid & Hs & Hin & Hty).
      split; [done|]. rewrite idx_lookup_delete, Ho, Hi, Ht.
      case_decide as Hv.
      * exfalso. apply (Hall r); [by eapply HL'|done].
      * split_and!; try done;
          intros rel Hin' [_ Heq]; apply (Hall rel Hin'); congruence.
    + rewrite idx_lookup_delete, Ho. case_decide; [done|].
      intros Hs. destruct (W2 _ _ _ Hs) as [Hrel Hsrc]. split; [|done].
      apply Hr. split; [done|]. intros rel Hin' Heq.
      destruct (HL _ Hin') as [Hrel' Hv]. rewrite Heq in Hrel'. congruence.
    + rewrite Hi. intros [Hs Hall]. destruct (W3 _ _ _ Hs) as [Hrel Htgt].
      split; [|done]. apply Hr. split; [done|]. intros rel Hin' Heq.
      destruct (HL _ Hin') as [Hrel' Hv]. rewrite Heq in Hrel'.
      apply (Hall rel Hin'). split; congruence.
    + rewrite Ht. intros [Hs Hall]. destruct (W4 _ _ _ Hs) as [Hrel Htgt].
      split; [|done]. apply Hr. split; [done|]. intros rel Hin' Heq.
      destruct (HL _ Hin') as [Hrel' Hv]. rewrite Heq in Hrel'.
      apply (Hall rel Hin'). split; congruence.
  - simpl. apply lookup_delete_eq.
  - simpl. intros Hnone. destruct (incoming g1 !! v) as [m|] eqn:Hm; [|done].
    exfalso. clear -Hm Hnone. subst g1.
    revert g Hm Hnone. induction ((range outRels).*2) as [|x L IH]; intros g; simpl.
    + congruence.
    + intros Hm Hnone. eapply IH; [exact Hm|]. simpl. unfold delete_in.
      rewrite lookup_alter. case_decide; subst; by rewrite ?Hnone.
Qed.

(** The second loop and [delete(g.incoming, nodeID)], likewise. *)
Lemma rel_wf_cascade_incoming v g :
  rel_wf g → rel_wf (cascade_incoming v g) ∧ incoming (cascade_incoming v g) !! v = None
  ∧ (outgoing g !! v = None → outgoing (cascade_incoming v g) !! v = None).
Proof.
  intros Hwf. pose proof Hwf as [W1 W2 W3 W4]. unfold cascade_incoming.
  destruct (incoming g !! v) as [inRels|] eqn:Hinc; [|done].
  pose proof (cascade_in_fold (range inRels).*2 g) as (Hn & Hl & Hi & Hr & Ht & Ho).
  simpl in *.
  set (g1 := foldl cascade_in_step g (range inRels).*2) in *.
  assert (HL : ∀ rel, rel ∈ (range inRels).*2 →
            relationships g !! rID rel = Some rel ∧ Target rel = v).
  { intros rel [k Hk]%elem_of_range_values.
    assert (idx_lookup (incoming g) v k = Some rel) as Hs
      by (apply idx_lookup_Some; eauto).
    destruct (W3 _ _ _ Hs) as [Hrel ?]. destruct (W1 _ _ Hrel) as [-> _]. done. }
  assert (HL' : ∀ id r, relationships g !! id = Some r → Target r = v →
            r ∈ (range inRels).*2).
  { intros id r Hrel Htgt. destruct (W1 _ _ Hrel) as (_ & _ & Hs & _).
    rewrite Htgt in Hs. apply idx_lookup_Some in Hs as (m & Hm & Hid).
    rewrite Hinc in Hm. injection Hm as <-. apply elem_of_range_values. eauto. }
  split_and!.
  - split; simpl; intros *.
    + rewrite Hr. intros [Hrel Hall]. destruct (W1 _ _ Hrel) as (Hid & Hs & Hin & Hty).
      split; [done|]. rewrite idx_lookup_delete, Ho, Hi, Ht.
      case_decide as Hv.
      * exfalso. apply (Hall r); [by eapply HL'|done].
      * split_and!; try done;
          intros rel Hin' [_ Heq]; apply (Hall rel Hin'); congruence.
    + rewrite Ho. intros [Hs Hall]. destruct (W2 _ _ _ Hs) as [Hrel Hsrc].
      split; [|done]. apply Hr. split; [done|]. intros rel Hin' Heq.
      destruct (HL _ Hin') as [Hrel' Hv]. rewrite Heq in Hrel'.
      apply (Hall rel Hin'). split; congruence.
    + rewrite idx_lookup_delete, Hi. case_decide; [done|].
      intros Hs. destruct (W3 _ _ _ Hs) as [Hrel Htgt]. split; [|done].
      apply Hr. split; [done|]. intros rel Hin' Heq.
      destruct (HL _ Hin') as [Hrel' Hv]. rewrite Heq in Hrel'. congruence.
    + rewrite Ht. intros [Hs Hall]. destruct (W4 _ _ _ Hs) as [Hrel Htgt].
      split; [|done]. apply Hr. split; [done|]. intros rel Hin' Heq.
      destruct (HL _ Hin') as [Hrel' Hv]. rewrite Heq in Hrel'.
      apply (Hall rel Hin'). split; congruence.
  - simpl. apply lookup_delete_eq.
  - simpl. intros Hnone. destruct (outgoing g1 !! v) as [m|] eqn:Hm; [|done].
    exfalso. clear -Hm Hnone. subst g1.
    revert g Hm Hnone. induction ((range inRels).*2) as [|x L IH]; intros g; simpl.
    + congruence.
    + intros Hm Hnone. eapply IH; [exact Hm|]. simpl. unfold delete_in.
      rewrite lookup_alter. case_decide; subst; by rewrite ?Hnone.
Qed.

Lemma rel_wf_cascade v g :
  rel_wf g →
  rel_wf (cascadeRelationshipsForNode v g)
  ∧ outgoing (cascadeRelationshipsForNode v g) !! v = None
  ∧ incoming (cascadeRelationshipsForNode v g) !! v = None.
Proof.
  intros Hwf. unfold cascadeRelationshipsForNode.
  destruct (rel_wf_cascade_outgoing v g Hwf) as (Hwf1 & Hout & _).
  destruct (rel_wf_cascade_incoming v _ Hwf1) as (Hwf2 & Hin & Hkeep).
  auto.
Qed.

Lemma rel_wf_RemoveNode v g : rel_wf g → rel_wf (RemoveNode v g).1.
Proof.
  intros Hwf. unfold RemoveNode. destruct (nodes g !! v) as [n|]; simpl; [|done].
  apply rel_wf_cascade. by apply rel_wf_unlink_node.
Qed.

Lemma rel_wf_unlink_all ids g :
  rel_wf g →
  rel_wf (foldl (λ g id, match nodes g !! id with
                         | Some node => unlink_node id node g
                         | None => g end) g ids).
Proof.
  revert g. induction ids as [|i ids IH]; intros g Hwf; simpl; [done|].
  apply IH. destruct (nodes g !! i); [by apply rel_wf_unlink_node|done].
Qed.

Lemma rel_wf_cascade_all ids g :
  rel_wf g → rel_wf (foldl (λ g id, cascadeRelationshipsForNode id g) g ids).
Proof.
  revert g. induction ids as [|i ids IH]; intros g Hwf; simpl; [done|].
  apply IH. by apply rel_wf_cascade.
Qed.

Lemma rel_wf_RemoveNodesByFile p g : rel_wf g → rel_wf (RemoveNodesByFile p g).1.
Proof.
  intros Hwf. unfold RemoveNodesByFile.
  destruct ((filter _ _).*1) as [|i ids]; [done|]. cbn [fst].
  by apply rel_wf_cascade_all, rel_wf_unlink_all.
Qed.

Lemma reachable_rel_wf g : reachable g → rel_wf g.
Proof.
  induction 1; auto using rel_wf_New, rel_wf_AddNode, rel_wf_AddRelationship,
    rel_wf_RemoveNode, rel_wf_RemoveNodesByFile.
Qed.

(** In a coherent graph with no adjacency entry under [v], nothing mentions [v]. *)
Lemma rel_wf_cascaded g v :
  rel_wf g → outgoing g !! v = None → incoming g !! v = None → cascaded g v.
Proof.
  intros [W1 W2 W3 W4] Hout Hin.
  assert (Hp : ∀ id r, relationships g !! id = Some r → Source r ≠ v ∧ Target r ≠ v).
  { intros id r Hr. destruct (W1 _ _ Hr) as (_ & Hs & Ht & _).
    split; intros <-; unfold idx_lookup in *.
    - by rewrite Hout in Hs.
    - by rewrite Hin in Ht. }
  unfold cascaded. split_and!; [done|..].
  - intros ty id r [Hr _]%W4. eauto.
  - intros s id r [Hr _]%W2. eauto.
  - intros t id r [Hr _]%W3. eauto.
Qed.

Lemma cascaded_after_unlink g v n :
  rel_wf g → cascaded (cascadeRelationshipsForNode v (unlink_node v n g)) v.
Proof.
  intros Hwf.
  destruct (rel_wf_cascade v (unlink_node v n g)) as (Hwf' & Hout & Hin).
  { by apply rel_wf_unlink_node. }
  by apply rel_wf_cascaded.
Qed.

(** C2, as amended.  In every graph built through the package's operations,
    [RemoveNode v] on a node [v] that is in the graph (the call that returns
    [true]) leaves no relationship whose source or target is [v]: not in the
    primary map, not in the type index, not in either adjacency index. *)
Theorem RemoveNode_cascades g v :
  reachable g → (RemoveNode v g).2 = true → cascaded (RemoveNode v g).1 v.
Proof.
  intros Hreach%reachable_rel_wf. unfold RemoveNode.
  destruct (nodes g !! v) as [n|]; simpl; [intros _|done].
  by apply cascaded_after_unlink.
Qed.

(** When [v] is not a node, [RemoveNode] returns [false] and touches nothing. *)
Lemma RemoveNode_absent g v :
  nodes g !! v = None → RemoveNode v g = (g, false).
Proof. unfold RemoveNode. by intros ->. Qed.

(** If every relationship of the graph joins two of its nodes, then the
    claim holds for every [v], absent ones included. *)
Lemma closed_graph_cascades g v :
  reachable g →
  (∀ id r, relationships g !! id = Some r →
     is_Some (nodes g !! Source r) ∧ is_Some (nodes g !! Target r)) →
  cascaded (RemoveNode v g).1 v.
Proof.
  intros Hreach Hclosed.
  destruct (nodes g !! v) as [n|] eqn:Hv.
  - unfold RemoveNode. rewrite Hv. simpl.
    by apply cascaded_after_unlink, reachable_rel_wf.
  - rewrite RemoveNode_absent by done. simpl.
    pose proof (reachable_rel_wf _ Hreach) as [W1 W2 W3 W4].
    assert (Hp : ∀ id r, relationships g !! id = Some r → Source r ≠ v ∧ Target r ≠ v).
    { intros id r Hr. destruct (Hclosed _ _ Hr) as [[? Hs] [? Ht]].
      split; intros <-; congruence. }
    unfold cascaded. split_and!; [done|..].
    + intros ty id r [Hr _]%W4. eauto.
    + intros s id r [Hr _]%W2. eauto.
    + intros t id r [Hr _]%W3. eauto.
Qed.

End Facts.

Lemma RemoveNode_cascades_witness :
  reachable g_cascade ∧ (RemoveNode "function:a.py:foo" g_cascade).2 = true
  ∧ cascaded (RemoveNode "function:a.py:foo" g_cascade).1 "function:a.py:foo".
Proof.
  assert (Hr : reachable (H := plain_range) g_cascade) by (repeat constructor).
  assert (Ht : (RemoveNode "function:a.py:foo" g_cascade).2 = true) by (vm_compute; reflexivity).
  split; [exact Hr|]. split; [exact Ht|].
  exact (RemoveNode_cascades g_cascade "function:a.py:foo" Hr Ht).
Defined.

(** C2 as stated fails: the graph that holds only [rel1] is reachable,
    ["function:a.py:foo"] is not one of its nodes, so [RemoveNode] returns
    [false] at once and [rel1], whose source it is, stays. *)
Lemma RemoveNode_absent_keeps_relationship :
  reachable g_dangling
  ∧ (RemoveNode "function:a.py:foo" g_dangling).2 = false
  ∧ ¬ cascaded (RemoveNode "function:a.py:foo" g_dangling).1 "function:a.py:foo".
Proof.
  split; [repeat constructor|]. split; [vm_compute; reflexivity|].
  intros [Hp _]. destruct (Hp "rel1" rel1) as [Hs _].
  - vm_compute. reflexivity.
  - by apply Hs.
Qed.

End GraphFacts.

(** ** Dead-code detection *)
Module DeadCodeFacts.
Import Graph DeadCode Examples GraphFacts.

#[local] Instance static_eq_refl : Reflexive static_eq.
Proof. by intros n. Qed.

#[local] Instance static_eq_trans : Transitive static_eq.
Proof. unfold static_eq. intros n1 n2 n3 ? ?. naive_solver congruence. Qed.

#[local] Instance any_change_refl : Reflexive any_change.
Proof. done. Qed.

#[local] Instance any_change_trans : Transitive any_change.
Proof. done. Qed.

#[local] Instance clears_refl : Reflexive clears.
Proof. by intros n. Qed.

#[local] Instance clears_trans : Transitive clears.
Proof.
  intros n1 n2 n3 [S1 D1] [S2 D2]. split; [by etrans|auto].
Qed.

#[local] Instance steps_refl R `{!Reflexive R} : Reflexive (steps R).
Proof.
  intros g. split; try done; intros ptr; by destruct (nodes g !! ptr); constructor.
Qed.

#[local] Instance steps_trans R `{!Transitive R} : Transitive (steps R).
Proof.
  intros g1 g2 g3 [] []. split; try congruence.
  intros ptr. by etrans.
Qed.

Lemma steps_weaken (R R' : GraphNode → GraphNode → Prop) g g' :
  (∀ n n', R n n' → R' n n') → steps R g g' → steps R' g g'.
Proof.
  intros HR [? ? ? ? ? Hn]. split; try done.
  intros ptr. destruct (Hn ptr); constructor; auto.
Qed.

Lemma steps_lookup R g g' ptr n :
  steps R g g' → nodes g !! ptr = Some n → ∃ n', nodes g' !! ptr = Some n' ∧ R n n'.
Proof.
  intros [_ _ _ _ _ Hn] Hptr. specialize (Hn ptr). rewrite Hptr in Hn.
  inversion Hn; eauto.
Qed.

Lemma steps_lookup_inv R g g' ptr n' :
  steps R g g' → nodes g' !! ptr = Some n' → ∃ n, nodes g !! ptr = Some n ∧ R n n'.
Proof.
  intros [_ _ _ _ _ Hn] Hptr. specialize (Hn ptr). rewrite Hptr in Hn.
  inversion Hn; eauto.
Qed.

Lemma steps_update_node R `{!Reflexive R} ptr f g :
  (∀ n, nodes g !! ptr = Some n → R n (f n)) → steps R g (update_node ptr f g).
Proof.
  intros Hf. split; try done. intros p. simpl. rewrite lookup_alter.
  case_decide as Hp; [subst p|].
  - destruct (nodes g !! ptr) eqn:E; constructor; auto.
  - by destruct (nodes g !! p); constructor.
Qed.

Lemma steps_foldl R `{!Reflexive R, !Transitive R} {A}
    (step : KnowledgeGraph → A → KnowledgeGraph) l g :
  (∀ g x, steps R g (step g x)) → steps R g (foldl step g l).
Proof.
  intros Hstep. revert g. induction l as [|x l IH]; intros g; simpl; [done|].
  etrans; [apply Hstep|apply IH].
Qed.

Lemma static_set_IsDead b n : static_eq n (set_IsDead b n).
Proof. by destruct n. Qed.

Lemma static_set_Property k v n : static_eq n (set_Property k v n).
Proof. by destruct n. Qed.

Lemma clears_set_Property k v n : clears n (set_Property k v n).
Proof. by destruct n. Qed.

Lemma clears_set_IsDead_false n : clears n (set_IsDead false n).
Proof. by destruct n. Qed.

Lemma clears_mark_called p n : clears n (mark_called p n).
Proof. by destruct n. Qed.

Lemma clears_mark_exempt n : clears n (mark_exempt n).
Proof. by destruct n. Qed.

(** The exemption test reads static fields only. *)
Lemma isDeadCodeExempt_static n n' :
  static_eq n n' → isDeadCodeExempt n = isDeadCodeExempt n'.
Proof.
  intros (HI & HL & HN & HF & HC & HE & HX).
  unfold isDeadCodeExempt, isTestFunction, isDunderMethod, isConstructor.
  by rewrite HL, HN, HF, HC, HE, HX.
Qed.

Section Facts.
Context `{MapRange}.

Lemma steps_for_nodes R `{!Reflexive R, !Transitive R} body g :
  (∀ ptr node g, nodes g !! ptr = Some node → steps R g (body ptr node g)) →
  steps R g (for_nodes body g).
Proof.
  intros Hbody. unfold for_nodes. apply steps_foldl; try done.
  intros g' ptr. destruct (nodes g' !! ptr) eqn:E; [by apply Hbody|done].
Qed.

Lemma steps_for_callees R `{!Reflexive R, !Transitive R} rels body g :
  (∀ ptr node g, nodes g !! ptr = Some node → steps R g (body ptr node g)) →
  steps R g (for_callees rels body g).
Proof.
  intros Hbody. unfold for_callees. apply steps_foldl; try done.
  intros g' rel. unfold GetNode.
  destruct (nodes g' !! Target rel) eqn:E; [by apply Hbody|done].
Qed.

Lemma clears_detectCallPatterns g : steps clears g (detectCallPatterns g).
Proof.
  apply steps_for_nodes; try apply _. intros ptr node g' _.
  cbv zeta.
  match goal with
  | |- steps _ _ (match nodes ?g1 !! _ with _ => _ end) =>
      assert (steps clears g' g1) as H1; [|etrans; [exact H1|]; generalize g1; intros g2]
  end.
  - destruct (hasDynamicDispatch node); [|done].
    apply steps_for_callees; try apply _. intros p c g'' _.
    apply steps_update_node; [apply _|]. intros; apply clears_set_Property.
  - destruct (nodes g2 !! ptr) as [caller|]; [|done].
    destruct (hasSwitchDispatch caller); [|done].
    apply steps_for_callees; try apply _. intros p c g'' _.
    apply steps_update_node; [apply _|]. intros; apply clears_set_Property.
Qed.

Lemma static_flagUnreachable g : steps static_eq g (flagUnreachable g).
Proof.
  apply steps_for_nodes; try apply _. intros ptr node g' _.
  repeat case_bool_decide; try done.
  destruct (negb _); [|done].
  apply steps_update_node; [apply _|]. intros; apply static_set_IsDead.
Qed.

Lemma clears_applyExemptions g : steps clears g (applyExemptions g).
Proof.
  apply steps_for_nodes; try apply _. intros ptr node g' _.
  destruct (negb _); [done|]. destruct (isDeadCodeExempt node); [|done].
  apply steps_update_node; [apply _|]. intros; apply clears_set_IsDead_false.
Qed.

Lemma clears_applyAllowlistExemptions g : steps clears g (applyAllowlistExemptions g).
Proof.
  apply steps_for_nodes; try apply _. intros ptr node g' _.
  destruct (negb _); [done|]. destruct (isAllowlistExempt node); [|done].
  apply steps_update_node; [apply _|]. intros; apply clears_mark_exempt.
Qed.

Lemma clears_applyOverridePass g : steps clears g (applyOverridePass g).
Proof.
  apply steps_for_nodes; try apply _. intros ptr node g' _.
  destruct (negb _); [done|]. case_bool_decide; [done|].
  destruct (isOverrideOfNonDeadMethod g' node); [|done].
  apply steps_update_node; [apply _|]. intros; apply clears_set_IsDead_false.
Qed.

Lemma clears_assignConfidenceScores g : steps clears g (assignConfidenceScores g).
Proof.
  apply steps_for_nodes; try apply _. intros ptr node g' _.
  destruct (negb _); [done|].
  apply steps_update_node; [apply _|]. intros; apply clears_set_Property.
Qed.

Lemma clears_trackIntraClassCalls g : steps clears g (trackIntraClassCalls g).
Proof.
  unfold trackIntraClassCalls. generalize (fileMethods_of g). intros fm.
  cbv zeta.
  match goal with |- steps _ _ (foldl _ ?g1 _) => trans g1 end.
  - apply steps_for_nodes; try apply _. intros ptr node g' _.
    case_bool_decide; [|done].
    apply steps_for_callees; try apply _. intros p c g'' _.
    repeat case_bool_decide; try done.
    apply steps_update_node; [apply _|]. intros; apply clears_mark_called.
  - apply steps_foldl; try apply _. intros g' [filePath methods].
    apply steps_foldl; try apply _. intros g'' [? cptr].
    destruct (nodes g'' !! cptr) as [caller|]; [|done].
    apply steps_for_callees; try apply _. intros p c g3 _.
    repeat case_bool_decide; try done.
    apply steps_update_node; [apply _|]. intros; apply clears_mark_called.
Qed.

(** *** Loops that write only to the node they visit

    Such a loop maps a function over the node table, whatever the order. *)
Lemma foldl_alter_lookup (f : GraphNode → GraphNode) l (m : gmap string GraphNode) k :
  NoDup l →
  foldl (λ m k, alter f k m) m l !! k = if decide (k ∈ l) then f <$> m !! k else m !! k.
Proof.
  revert m. induction l as [|x l IH]; intros m Hnd; cbn [foldl].
  - case_decide as Hk; [by apply elem_of_nil in Hk|done].
  - apply NoDup_cons in Hnd as [Hx Hnd]. rewrite IH by done.
    rewrite lookup_alter.
    destruct (decide (k ∈ l)), (decide (k ∈ x :: l)), (decide (x = k));
      subst; try done; set_solver.
Qed.

Lemma update_node_absent ptr f g : nodes g !! ptr = None → update_node ptr f g = g.
Proof.
  intros Hnone. unfold update_node, with_nodes. destruct g; simpl in *. f_equal.
  apply map_eq. intros k. rewrite lookup_alter. case_decide; subst; by rewrite ?Hnone.
Qed.

Lemma for_nodes_pointwise (f : GraphNode → GraphNode) body g :
  (∀ g' ptr node, steps any_change g g' → nodes g' !! ptr = Some node →
     body ptr node g' = update_node ptr f g') →
  for_nodes body g = with_nodes g (f <$> nodes g).
Proof.
  intros Hbody. unfold for_nodes, IterNodes.
  pose proof (NoDup_fst_range (nodes g)) as Hnd.
  pose proof (elem_of_range_keys (nodes g)) as Hkeys.
  revert Hnd Hkeys. generalize ((range (nodes g)).*1). intros l Hnd Hkeys.
  assert (Hgen : ∀ g', steps any_change g g' →
    foldl (λ g ptr, match nodes g !! ptr with
                    | Some node => body ptr node g
                    | None => g
                    end) g' l
    = with_nodes g' (foldl (λ m k, alter f k m) (nodes g') l)).
  { clear Hnd Hkeys. induction l as [|x l IH]; intros g' Hg'; simpl.
    - by destruct g'.
    - assert (Hstep : match nodes g' !! x with
                      | Some node => body x node g'
                      | None => g'
                      end = update_node x f g').
      { destruct (nodes g' !! x) eqn:E; [by apply Hbody|].
        by rewrite update_node_absent. }
      rewrite Hstep, IH; [done|].
      etrans; [exact Hg'|]. by apply steps_update_node; [apply _|]. }
  rewrite Hgen by done. destruct g as [ns rs bl bt og ic]; unfold with_nodes; simpl in *.
  f_equal. apply map_eq. intros k. rewrite foldl_alter_lookup by done.
  rewrite lookup_fmap. case_decide as Hk; [done|].
  destruct (ns !! k) eqn:E; [|done].
  exfalso. apply Hk, Hkeys. eauto.
Qed.

Lemma update_node_ext ptr f f' g node :
  nodes g !! ptr = Some node → f node = f' node → update_node ptr f g = update_node ptr f' g.
Proof.
  intros Hptr Hf. unfold update_node. f_equal. apply map_eq. intros k.
  rewrite !lookup_alter. case_decide; [subst k|done]. rewrite Hptr. simpl. by f_equal.
Qed.

Lemma update_node_id ptr f g node :
  nodes g !! ptr = Some node → f node = node → update_node ptr f g = g.
Proof.
  intros Hptr Hf. unfold update_node, with_nodes. destruct g as [ns rs bl bt og ic].
  simpl in *. f_equal. apply map_eq. intros k.
  rewrite lookup_alter. case_decide; [subst k|done]. rewrite Hptr. simpl. by f_equal.
Qed.

Lemma HasIncoming_steps R g g' id ty :
  steps R g g' → HasIncoming id ty g' = HasIncoming id ty g.
Proof. intros [_ _ _ _ Hi _]. unfold HasIncoming. by rewrite Hi. Qed.

Lemma flagUnreachable_pointwise g :
  flagUnreachable g = with_nodes g (flag_node g <$> nodes g).
Proof.
  apply for_nodes_pointwise. intros g' ptr node Hg' Hptr.
  rewrite (HasIncoming_steps _ _ _ _ _ Hg').
  symmetry.
  destruct (bool_decide (Label node = NodeFile ∨ Label node = NodeFolder)) eqn:E1;
    [eapply update_node_id; [done|]; unfold flag_node; by rewrite E1|].
  destruct (bool_decide (Label node = NodeCommunity ∨ Label node = NodeProcess)) eqn:E2;
    [eapply update_node_id; [done|]; unfold flag_node; by rewrite E1, E2|].
  destruct (negb (HasIncoming (ID node) RelCalls g)) eqn:E.
  - eapply update_node_ext; [done|]. unfold flag_node. by rewrite E1, E2, E.
  - eapply update_node_id; [done|]. unfold flag_node. by rewrite E1, E2, E.
Qed.

Lemma applyExemptions_pointwise g :
  applyExemptions g = with_nodes g (exempt_node <$> nodes g).
Proof.
  apply for_nodes_pointwise. intros g' ptr node Hg' Hptr. symmetry.
  destruct (negb (IsDead node)) eqn:E1;
    [eapply update_node_id; [done|]; unfold exempt_node; by rewrite E1|].
  destruct (isDeadCodeExempt node) eqn:E2.
  - eapply update_node_ext; [done|]. unfold exempt_node. by rewrite E1, E2.
  - eapply update_node_id; [done|]. unfold exempt_node. by rewrite E1, E2.
Qed.

Lemma applyAllowlistExemptions_pointwise g :
  applyAllowlistExemptions g = with_nodes g (allowlist_node <$> nodes g).
Proof.
  apply for_nodes_pointwise. intros g' ptr node Hg' Hptr. symmetry.
  destruct (negb (IsDead node)) eqn:E1;
    [eapply update_node_id; [done|]; unfold allowlist_node; by rewrite E1|].
  destruct (isAllowlistExempt node) eqn:E2.
  - eapply update_node_ext; [done|]. unfold allowlist_node. by rewrite E1, E2.
  - eapply update_node_id; [done|]. unfold allowlist_node. by rewrite E1, E2.
Qed.

Lemma assignConfidenceScores_pointwise g :
  assignConfidenceScores g = with_nodes g (confidence_node <$> nodes g).
Proof.
  apply for_nodes_pointwise. intros g' ptr node Hg' Hptr. symmetry.
  destruct (negb (IsDead node)) eqn:E1.
  - eapply update_node_id; [done|]; unfold confidence_node; by rewrite E1.
  - eapply update_node_ext; [done|]. unfold confidence_node. by rewrite E1.
Qed.

(** After the exemption pass no exempt node is flagged. *)
Lemma applyExemptions_exempt g ptr n :
  nodes (applyExemptions g) !! ptr = Some n → isDeadCodeExempt n = true →
  IsDead n = false.
Proof.
  rewrite applyExemptions_pointwise. simpl. rewrite lookup_fmap.
  destruct (nodes g !! ptr) as [n0|]; simpl; [|done].
  intros [= <-]. unfold exempt_node.
  destruct (IsDead n0) eqn:E1; simpl; [|done].
  destruct (isDeadCodeExempt n0) eqn:E2; simpl; [done|].
  by rewrite E2.
Qed.

Lemma static_before_exemptions g :
  steps static_eq g (trackIntraClassCalls (flagUnreachable (detectCallPatterns g))).
Proof.
  etrans; [|eapply steps_weaken, clears_trackIntraClassCalls; by intros ?? []].
  etrans; [|apply static_flagUnreachable].
  eapply steps_weaken, clears_detectCallPatterns. by intros ?? [].
Qed.

Lemma clears_after_exemptions g :
  steps clears (applyExemptions g)
    (assignConfidenceScores (applyOverridePass (applyAllowlistExemptions (applyExemptions g)))).
Proof.
  etrans; [|apply clears_assignConfidenceScores].
  etrans; [|apply clears_applyOverridePass].
  apply clears_applyAllowlistExemptions.
Qed.

(** A node that the exemption pass recognises leaves the phase unflagged. *)
Lemma exempt_survives g ptr N :
  nodes g !! ptr = Some N → isDeadCodeExempt N = true →
  ∃ N', nodes (ProcessDeadCode g).1 !! ptr = Some N' ∧ static_eq N N' ∧ IsDead N' = false.
Proof.
  intros Hptr Hex. unfold ProcessDeadCode, before_override. cbn [fst].
  set (g3 := trackIntraClassCalls (flagUnreachable (detectCallPatterns g))).
  destruct (steps_lookup _ _ _ _ _ (static_before_exemptions g) Hptr) as (N3 & H3 & S3).
  fold g3 in H3.
  destruct (steps_lookup _ _ _ _ _ (clears_applyExemptions g3) H3) as (N4 & H4 & [S4 _]).
  assert (IsDead N4 = false) as D4.
  { eapply applyExemptions_exempt; [done|].
    rewrite <-(isDeadCodeExempt_static N N4); [done|]. by etrans. }
  destruct (steps_lookup _ _ _ _ _ (clears_after_exemptions g3) H4) as (N7 & H7 & [S7 D7]).
  exists N7. split_and!; [done|by repeat (etrans; [eassumption|])|].
  destruct (IsDead N7); [|done]. rewrite D7 in D4; done.
Qed.

(** C3.  Whatever the graph and whatever order the maps are ranged over, a
    node that is an entry point, or exported, or a test function
    ([isTestFunction]: file name ending in _test.go or _test.py, or a
    function named Test... or test_...), or a dunder method
    ([isDunderMethod]), or a constructor ([isConstructor]) has
    [IsDead = false] once [ProcessDeadCode] has returned. *)
Theorem ProcessDeadCode_exemptions g ptr N :
  nodes g !! ptr = Some N →
  IsEntryPoint N = true ∨ IsExported N = true ∨ isTestFunction N = true
    ∨ isDunderMethod N = true ∨ isConstructor N = true →
  ∃ N', nodes (ProcessDeadCode g).1 !! ptr = Some N' ∧ static_eq N N' ∧ IsDead N' = false.
Proof.
  intros Hptr Hcase. apply exempt_survives; [done|].
  unfold isDeadCodeExempt.
  destruct Hcase as [Hc | [Hc | [Hc | [Hc | Hc]]]]; rewrite Hc; by repeat case_match.
Qed.

(** *** The override pass *)
Lemma foldl_prefix_inv {A B} (step : B → A → B) (P : B → list A → Prop) b l :
  P b [] → (∀ b l x, P b l → P (step b x) (l ++ [x])%list) → P (foldl step b l) l.
Proof.
  intros H0 Hstep. induction l as [|x l IH] using rev_ind; [done|].
  rewrite foldl_app. simpl. by apply Hstep.
Qed.

Lemma find_is_Some {A} (p : A → bool) l x :
  x ∈ l → p x = true → ∃ y, List.find p l = Some y ∧ y ∈ l ∧ p y = true.
Proof.
  intros Hin Hp. destruct (List.find p l) as [y|] eqn:E.
  - apply find_some in E as [Hy ?]. exists y. by rewrite list_elem_of_In.
  - eapply find_none in E; [|by apply list_elem_of_In]. congruence.
Qed.

Lemma override_step_clears ptr node g :
  steps clears g
    (if negb (IsDead node) then g
     else if bool_decide (Label node ≠ NodeMethod) then g
     else if isOverrideOfNonDeadMethod g node then update_node ptr (set_IsDead false) g
     else g).
Proof.
  destruct (negb _); [done|]. case_bool_decide; [done|].
  destruct (isOverrideOfNonDeadMethod g node); [|done].
  apply steps_update_node; [apply _|]. intros; apply clears_set_IsDead_false.
Qed.

Section Override.
Variables (g5 : KnowledgeGraph) (m c rid : string) (M C B : GraphNode)
  (rel : GraphRelationship).
Hypothesis HM : nodes g5 !! m = Some M.
Hypothesis HMlabel : Label M = NodeMethod.
Hypothesis HMclass : ClassName M ≠ "".
Hypothesis HC : nodes g5 !! c = Some C.
Hypothesis HClabel : Label C = NodeClass.
Hypothesis HCname : Name C = ClassName M.
Hypothesis HCunique : ∀ c2 C2, nodes g5 !! c2 = Some C2 →
  Label C2 = NodeClass → Name C2 = ClassName M → c2 = c.
Hypothesis Hrel : idx_lookup (outgoing g5) (ID C) rid = Some rel.
Hypothesis Hext : rType rel = RelExtends.
Hypothesis HB : nodes g5 !! Target rel = Some B.
Hypothesis HBlabel : Label B = NodeClass.
Hypothesis Hbase_has : ∃ b BM, nodes g5 !! b = Some BM ∧ Label BM = NodeMethod
  ∧ ClassName BM = Name B ∧ Name BM = Name M.
Hypothesis Hbase_live : ∀ b BM, nodes g5 !! b = Some BM → Label BM = NodeMethod →
  ClassName BM = Name B → Name BM = Name M → IsDead BM = false.

(** In every state the pass goes through, the check on [M] succeeds. *)
Lemma isOverride_during g M' :
  steps clears g5 g → nodes g !! m = Some M' → isOverrideOfNonDeadMethod g M' = true.
Proof using All.
  intros Hst HM'. pose proof Hst as [_ _ _ Hout _ _].
  destruct (steps_lookup _ _ _ _ _ Hst HM) as (M1 & HM1 & (_ & _ & HMn & _ & HMc & _) & _).
  assert (M1 = M') as -> by congruence.
  destruct (steps_lookup _ _ _ _ _ Hst HC) as (C' & HC' & (HCi & HCl & HCn & _) & _).
  destruct (steps_lookup _ _ _ _ _ Hst HB) as (B' & HB' & (_ & HBl & HBn & _) & _).
  unfold isOverrideOfNonDeadMethod.
  rewrite bool_decide_eq_false_2 by congruence.
  (* the class *)
  destruct (find_is_Some
    (λ node, bool_decide (Label node = NodeClass ∧ Name node = ClassName M'))
    (range (nodes g)).*2 C') as (C2 & HfindC & HC2in & HC2p).
  { apply elem_of_range_values. eauto. }
  { apply bool_decide_eq_true_2. split; congruence. }
  unfold findClassByName. rewrite HfindC.
  apply elem_of_range_values in HC2in as [c2 Hc2].
  apply bool_decide_eq_true_1 in HC2p as [HC2l HC2n].
  destruct (steps_lookup_inv _ _ _ _ _ Hst Hc2) as (C0 & HC0 & (_ & HC0l & HC0n & _) & _).
  assert (c2 = c) as -> by (eapply HCunique; [done|congruence|congruence]).
  assert (C2 = C') as -> by congruence.
  (* the base class *)
  apply existsb_exists. exists B'. split.
  { apply list_elem_of_In. unfold findBaseClasses. apply list_elem_of_omap.
    exists rel. split.
    - unfold GetOutgoing. rewrite Hout, <-HCi.
      apply idx_lookup_Some in Hrel as (rels & -> & Hrid).
      rewrite decide_True by done. apply list_elem_of_filter. split; [done|].
      apply elem_of_range_values. eauto.
    - unfold GetNode. rewrite HB'. rewrite bool_decide_eq_true_2; congruence. }
  (* its method *)
  destruct Hbase_has as (b & BM & Hb & HbL & HbC & HbN).
  destruct (steps_lookup _ _ _ _ _ Hst Hb) as (BM' & Hb' & (_ & HbL' & HbN' & _ & HbC' & _) & _).
  destruct (find_is_Some
    (λ node, bool_decide (Label node = NodeMethod ∧ ClassName node = Name B'
                          ∧ Name node = Name M'))
    (range (nodes g)).*2 BM') as (bm & Hfind & Hbmin & Hbmp).
  { apply elem_of_range_values. eauto. }
  { apply bool_decide_eq_true_2. split_and!; congruence. }
  unfold findMethodInClass. rewrite Hfind.
  apply elem_of_range_values in Hbmin as [k Hk].
  apply bool_decide_eq_true_1 in Hbmp as (HkL & HkC & HkN).
  destruct (steps_lookup_inv _ _ _ _ _ Hst Hk) as (bm0 & Hk0 & (_ & Lb0 & Nb0 & _ & Cb0 & _) & D0).
  assert (IsDead bm0 = false) as Hlive
    by (eapply Hbase_live; [done|congruence..]).
  destruct (IsDead bm); [|done]. rewrite D0 in Hlive; done.
Qed.

Lemma applyOverridePass_unflags :
  ∃ M', nodes (applyOverridePass g5) !! m = Some M' ∧ IsDead M' = false.
Proof using All.
  unfold applyOverridePass, for_nodes.
  set (step := λ g ptr, match nodes g !! ptr with Some node => _ | None => g end).
  assert (Hstep : ∀ g x, steps clears g (step g x)).
  { intros g x. unfold step. destruct (nodes g !! x); [apply override_step_clears|done]. }
  pose proof (foldl_prefix_inv step
    (λ g done, steps clears g5 g
       ∧ (m ∈ done → ∃ M', nodes g !! m = Some M' ∧ IsDead M' = false))
    g5 (IterNodes g5)) as Hinv.
  destruct Hinv as [_ Hm].
  - split; [done|]. by intros ?%elem_of_nil.
  - intros g l x [Hst Hdone]. split; [by etrans|].
    intros [Hin | Hx%list_elem_of_singleton]%elem_of_app; [|subst x].
    + destruct (Hdone Hin) as (M' & HM' & HD').
      destruct (steps_lookup _ _ _ _ _ (Hstep g x) HM') as (M2 & HM2 & [_ D2]).
      exists M2. split; [done|]. destruct (IsDead M2); [|done]. rewrite D2 in HD'; done.
    + destruct (steps_lookup _ _ _ _ _ Hst HM) as (M' & HM' & (_ & HL & _) & _).
      unfold step. rewrite HM'.
      destruct (IsDead M') eqn:HD; simpl; [|eauto].
      destruct (bool_decide (Label M' ≠ NodeMethod)) eqn:HLM.
      * apply bool_decide_eq_true_1 in HLM. congruence.
      * rewrite (isOverride_during g M') by done.
        exists (set_IsDead false M'). split; [|done].
        simpl. rewrite lookup_alter. rewrite decide_True by done. by rewrite HM'.
  - apply Hm. apply elem_of_range_keys. eauto.
Qed.

End Override.

(** C4, as amended.  Let [M] be a method still dead when the override pass
    starts, with a non-empty [ClassName] that names exactly one class node
    [C].  If [C] has an [extends] edge to a class node [B] (a direct base),
    and [B] has a method of [M]'s name, none of them dead, then [M] is not
    dead when [ProcessDeadCode] returns. *)
Theorem override_direct_base g m c rid M C B rel :
  nodes (before_override g) !! m = Some M →
  Label M = NodeMethod → IsDead M = true → ClassName M ≠ "" →
  nodes (before_override g) !! c = Some C → Label C = NodeClass → Name C = ClassName M →
  (∀ c2 C2, nodes (before_override g) !! c2 = Some C2 →
     Label C2 = NodeClass → Name C2 = ClassName M → c2 = c) →
  idx_lookup (outgoing (before_override g)) (ID C) rid = Some rel →
  rType rel = RelExtends →
  nodes (before_override g) !! Target rel = Some B → Label B = NodeClass →
  (∃ b BM, nodes (before_override g) !! b = Some BM ∧ Label BM = NodeMethod
           ∧ ClassName BM = Name B ∧ Name BM = Name M) →
  (∀ b BM, nodes (before_override g) !! b = Some BM → Label BM = NodeMethod →
     ClassName BM = Name B → Name BM = Name M → IsDead BM = false) →
  ∃ M', nodes (ProcessDeadCode g).1 !! m = Some M' ∧ IsDead M' = false.
Proof.
  intros HM HMl _ HMc HC HCl HCn HCu Hrel Hext HB HBl Hhas Hlive.
  destruct (applyOverridePass_unflags (before_override g) m c rid M C B rel)
    as (M1 & HM1 & HD1); try done.
  unfold ProcessDeadCode. cbn [fst].
  destruct (steps_lookup _ _ _ _ _ (clears_assignConfidenceScores _) HM1)
    as (M2 & HM2 & [_ D2]).
  exists M2. split; [done|]. destruct (IsDead M2); [|done]. rewrite D2 in HD1; done.
Qed.

(** *** Graphs without methods and without dispatching callers

    There the phase is one map over the node table, in any order. *)
Lemma for_nodes_id body g :
  (∀ ptr node, nodes g !! ptr = Some node → body ptr node g = g) →
  for_nodes body g = g.
Proof.
  intros Hbody. unfold for_nodes. induction (IterNodes g) as [|x l IH]; simpl; [done|].
  destruct (nodes g !! x) eqn:E; [by rewrite Hbody|done].
Qed.

Lemma existsb_Permutation {A} (p : A → bool) l l' :
  l ≡ₚ l' → existsb p l = existsb p l'.
Proof.
  induction 1 as [|x l l' _ IH|x y l|l1 l2 l3 _ IH1 _ IH2]; simpl;
    [done|by rewrite IH|by destruct (p x), (p y)|congruence].
Qed.

Lemma HasIncoming_any_order id ty g :
  HasIncoming id ty g = HasIncoming (H := plain_range) id ty g.
Proof.
  unfold HasIncoming. destruct (incoming g !! id) as [rels|]; [|done].
  apply existsb_Permutation. unfold range.
  by rewrite (range_order_perm _ (map_to_list rels)).
Qed.

Lemma flag_node_any_order g n : flag_node g n = flag_node (H := plain_range) g n.
Proof. unfold flag_node. by rewrite HasIncoming_any_order. Qed.

Lemma no_methods_steps g g' : steps static_eq g g' → no_methods g → no_methods g'.
Proof.
  intros Hst Hno ptr n' Hptr.
  destruct (steps_lookup_inv _ _ _ _ _ Hst Hptr) as (n & Hn & (_ & HL & _)).
  rewrite <-HL. by eapply Hno.
Qed.

Lemma detectCallPatterns_id g : no_dispatchers g → detectCallPatterns g = g.
Proof.
  intros Hno. apply for_nodes_id. intros ptr node Hptr.
  destruct (Hno _ _ Hptr) as [Hdd Hsw]. cbv zeta. by rewrite Hdd, Hptr, Hsw.
Qed.

Lemma fileMethods_of_no_methods g : no_methods g → fileMethods_of g = ∅.
Proof.
  intros Hno. unfold fileMethods_of.
  induction (IterNodes g) as [|x l IH] using rev_ind; [done|].
  rewrite foldl_app. simpl. rewrite IH.
  destruct (nodes g !! x) as [n|] eqn:E; [|done].
  rewrite bool_decide_eq_false_2; [done|]. by eapply Hno.
Qed.

Lemma range_empty {A} : range (∅ : gmap string A) = [].
Proof.
  unfold range. rewrite map_to_list_empty.
  apply Permutation_nil_r. apply range_order_perm.
Qed.

Lemma trackIntraClassCalls_id g : no_methods g → trackIntraClassCalls g = g.
Proof.
  intros Hno. unfold trackIntraClassCalls.
  rewrite fileMethods_of_no_methods by done. rewrite range_empty. simpl.
  apply for_nodes_id. intros ptr node Hptr.
  rewrite bool_decide_eq_false_2; [done|]. intros [? _]. by eapply Hno.
Qed.

Lemma applyOverridePass_id g : no_methods g → applyOverridePass g = g.
Proof.
  intros Hno. apply for_nodes_id. intros ptr node Hptr.
  destruct (negb (IsDead node)); [done|].
  rewrite bool_decide_eq_true_2; [done|]. by eapply Hno.
Qed.

Lemma ProcessDeadCode_simple g :
  no_methods g → no_dispatchers g →
  (ProcessDeadCode g).1 = with_nodes g (simple_phase_node g <$> nodes g).
Proof.
  intros Hm Hd. unfold ProcessDeadCode, before_override. cbn [fst].
  rewrite detectCallPatterns_id by done.
  assert (no_methods (flagUnreachable g)) as Hm1
    by (eapply no_methods_steps; [apply static_flagUnreachable|done]).
  rewrite trackIntraClassCalls_id by done.
  assert (no_methods (applyAllowlistExemptions (applyExemptions (flagUnreachable g)))) as Hm2.
  { eapply no_methods_steps; [|exact Hm1].
    etrans; (eapply steps_weaken; [|first [apply clears_applyExemptions
      |apply clears_applyAllowlistExemptions]]); by intros ?? []. }
  rewrite applyOverridePass_id by done.
  rewrite assignConfidenceScores_pointwise, applyAllowlistExemptions_pointwise,
    applyExemptions_pointwise, flagUnreachable_pointwise.
  unfold with_nodes; simpl. f_equal.
  rewrite <-!map_fmap_compose. apply map_fmap_ext. intros ptr n _. simpl.
  unfold simple_phase_node. by rewrite flag_node_any_order.
Qed.

Lemma filter_fst_fmap {A} (P : string → Prop) (Q : string * A → Prop)
    `{!∀ k, Decision (P k), !∀ kv, Decision (Q kv)} (l : list (string * A)) :
  (∀ kv, kv ∈ l → P kv.1 ↔ Q kv) → filter P l.*1 = (filter Q l).*1.
Proof.
  induction l as [|kv l IH]; intros HPQ; [done|].
  rewrite fmap_cons, !filter_cons.
  assert (filter P l.*1 = (filter Q l).*1) as -> by (apply IH; intros; apply HPQ; by right).
  pose proof (HPQ kv (list_elem_of_here _ _)).
  repeat case_decide; try done; tauto.
Qed.

Lemma dead_count_any_order g :
  (ProcessDeadCode g).2
  = Z.of_nat (length (filter (λ kv, IsDead kv.2 = true)
                             (map_to_list (nodes (ProcessDeadCode g).1)))).
Proof.
  unfold ProcessDeadCode. cbn [fst snd]. f_equal.
  set (g' := assignConfidenceScores _). unfold IterNodes, range.
  rewrite (range_order_perm _ (map_to_list (nodes g'))).
  rewrite (filter_fst_fmap _ (λ kv, IsDead kv.2 = true)).
  - by rewrite length_fmap.
  - intros [k v] Hin%elem_of_map_to_list. simpl. rewrite Hin. simpl.
    by destruct (IsDead v).
Qed.

End Facts.

(** Decide a statement about every entry of a concrete map by evaluation. *)
Ltac map_Forall_compute :=
  match goal with
  | |- ∀ i x, ?m !! i = Some x → @?P i x =>
      apply (proj1 (map_Forall_lookup P m));
      apply (bool_decide_unpack (map_Forall P m)); vm_compute; exact I
  end.

Lemma g_scenario_simple : no_methods g_scenario ∧ no_dispatchers g_scenario.
Proof.
  split; apply map_Forall_lookup.
  - apply (bool_decide_unpack (map_Forall (λ _ n, Label n ≠ NodeMethod) _)).
    vm_compute. exact I.
  - apply (bool_decide_unpack (map_Forall (λ _ n,
      hasDynamicDispatch n = false ∧ hasSwitchDispatch n = false) _)).
    vm_compute. exact I.
Qed.

(** C5, as amended.  On the graph of scenario 2 ([main] an entry point that
    calls [helper], [bar] called by nobody), whatever the iteration order,
    the node of [bar] is the only dead one after [ProcessDeadCode], the
    count returned is 1, and [bar]'s [dead_code_confidence] is ["medium"]:
    [bar] is a function whose name starts with a lower-case letter. *)
Theorem scenario_dead_code `{MapRange} :
  (∀ ptr n, nodes (ProcessDeadCode g_scenario).1 !! ptr = Some n →
     (IsDead n = true ↔ ptr = "function:main.go:bar"))
  ∧ (∃ n, nodes (ProcessDeadCode g_scenario).1 !! "function:main.go:bar" = Some n
          ∧ IsDead n = true
          ∧ Properties n !! "dead_code_confidence" = Some (AnyString "medium"))
  ∧ (ProcessDeadCode g_scenario).2 = 1%Z.
Proof.
  rewrite dead_count_any_order.
  rewrite ProcessDeadCode_simple by apply g_scenario_simple.
  split_and!.
  - apply map_Forall_lookup.
    apply (bool_decide_unpack (map_Forall (λ ptr n,
      IsDead n = true ↔ ptr = "function:main.go:bar") _)).
    vm_compute. exact I.
  - eexists. split_and!; vm_compute; reflexivity.
  - vm_compute. reflexivity.
Qed.

(** C5 as stated fails: [bar] is dead, but its confidence is not ["high"]. *)
Lemma scenario_confidence_not_high :
  ∃ n, nodes (ProcessDeadCode g_scenario).1 !! "function:main.go:bar" = Some n
       ∧ IsDead n = true
       ∧ Properties n !! "dead_code_confidence" ≠ Some (AnyString "high").
Proof.
  eexists. split_and!; [vm_compute; reflexivity|vm_compute; reflexivity|].
  vm_compute. discriminate.
Qed.

Lemma override_direct_base_witness :
  ∃ M', nodes (ProcessDeadCode g_override).1 !! "method:derived.go:Derived.String" = Some M'
        ∧ IsDead M' = false.
Proof.
  eapply (override_direct_base g_override "method:derived.go:Derived.String"
            "class:derived.go:Derived" "extends:1"
            (set_IsDead true Derived_String) (set_IsDead true class_Derived)
            (set_IsDead true class_Base)
            (edge "extends:1" RelExtends (ID class_Derived) (ID class_Base))).
  - vm_compute; reflexivity.
  - reflexivity.
  - reflexivity.
  - vm_compute; discriminate.
  - vm_compute; reflexivity.
  - reflexivity.
  - reflexivity.
  - map_Forall_compute.
  - vm_compute; reflexivity.
  - reflexivity.
  - vm_compute; reflexivity.
  - reflexivity.
  - exists "method:base.go:Base.String", Base_String.
    split_and!; vm_compute; reflexivity.
  - map_Forall_compute.
Defined.

(** C4 as stated fails.  In [g_chain] the method [Derived.String] is dead
    when the override pass starts; [Base], reached from [Derived] through
    [Middle], has the non-dead method [Base.String]; [Middle], the only
    class the pass looks at, has no method [String]; and [Derived.String]
    is still dead at the end. *)
Lemma override_misses_grandparent : ¬ transitive_override_rule g_chain.
Proof.
  intros Hrule.
  destruct (Hrule "method:derived.go:Derived.String" (set_IsDead true Derived_String)
              "class:derived.go:Derived" (set_IsDead true class_Derived)
              "class:base.go:Base" (set_IsDead true class_Base)
              "method:base.go:Base.String" Base_String) as (M' & HM' & HD').
  - vm_compute; reflexivity.
  - reflexivity.
  - reflexivity.
  - vm_compute; reflexivity.
  - reflexivity.
  - reflexivity.
  - eapply (chain_step _ _ "extends:1"
              (edge "extends:1" RelExtends (ID class_Derived) (ID class_Middle)));
      [vm_compute; reflexivity|reflexivity|].
    eapply (chain_direct _ _ "extends:2"
              (edge "extends:2" RelExtends (ID class_Middle) (ID class_Base)));
      [vm_compute; reflexivity|reflexivity].
  - vm_compute; reflexivity.
  - reflexivity.
  - vm_compute; reflexivity.
  - reflexivity.
  - reflexivity.
  - reflexivity.
  - reflexivity.
  - assert (nodes (ProcessDeadCode g_chain).1 !! "method:derived.go:Derived.String"
            = Some (set_Property "dead_code_confidence" (AnyString "high")
                      (set_IsDead true Derived_String))) as Hfinal
      by (vm_compute; reflexivity).
    rewrite Hfinal in HM'. injection HM' as <-. discriminate HD'.
Qed.

Lemma ProcessDeadCode_exemptions_witness :
  nodes g_scenario !! "function:main.go:main" = Some fn_main
  ∧ ∃ N', nodes (ProcessDeadCode g_scenario).1 !! "function:main.go:main" = Some N'
          ∧ static_eq fn_main N' ∧ IsDead N' = false.
Proof.
  assert (H1 : nodes g_scenario !! "function:main.go:main" = Some fn_main)
    by (vm_compute; reflexivity).
  split; [exact H1|].
  apply (ProcessDeadCode_exemptions g_scenario "function:main.go:main" fn_main H1).
  left. reflexivity.
Defined.

End DeadCodeFacts.

(** ** The walker: when [WalkRepo] returns an error *)
Module WalkerFacts.
Import Walker Examples.

Section Facts.
Variable Match : list string → bool → bool.
Variable sha256_hex : string → string.
Variable repoPath : string.

Abbreviation walkDir := (walkDir Match sha256_hex repoPath).
Abbreviation readable := (readable Match).
Abbreviation WalkRepo := (WalkRepo Match sha256_hex repoPath).
Abbreviation walk_entries := (walk_entries Match sha256_hex repoPath).
Abbreviation all_readable := (all_readable Match).

Lemma walkDir_error rel d entries :
  (walkDir rel d entries).2 ≠ Some SkipDir
  ∧ ((walkDir rel d entries).2 = None ↔ readable rel d).
Proof.
  revert rel entries. induction d as [name content|name|name dirs IH] using FsNode_tree_ind;
    intros rel entries.
  - simpl. destruct (isSupportedFile name); simpl; [|by split; [|split]].
    destruct (Match (splitPath_Rel rel) false); simpl; [by split; [|split]|].
    destruct content as [content|]; simpl; (split; [done|]); split.
    + intros _ _ _. eauto.
    + done.
    + done.
    + intros Hr. by destruct (Hr eq_refl eq_refl) as [? ?].
  - simpl. destruct (shouldSkipDir Match name rel); simpl; (split; [done|]); split;
      try done; intros Hr; by destruct (Hr eq_refl).
  - simpl. destruct (shouldSkipDir Match name rel); simpl; [by split; [|split]|].
    change (((walk_entries rel dirs entries).2 ≠ Some SkipDir)
            ∧ ((walk_entries rel dirs entries).2 = None
               ↔ (false = false → all_readable rel dirs))).
    revert entries. induction IH as [|d1 rest Hd1 _ IHrest]; intros entries; simpl.
    + by split; [|split].
    + destruct (Hd1 (rel ++ [node_name d1])%list entries) as [Hskip Hiff].
      destruct (Walker.walkDir Match sha256_hex repoPath (rel ++ [node_name d1])%list d1 entries)
        as [entries1 [e|]]; simpl in *.
      * assert (¬ readable (rel ++ [node_name d1])%list d1) as Hnot
          by (intros Hr%Hiff; done).
        destruct e; simpl; try done; (split; [done|]); split; try done;
          intros Hr; destruct (Hr eq_refl) as [Hr1 _]; done.
      * destruct (IHrest entries1) as [Hskip' Hiff']. split; [done|].
        rewrite Hiff'. split.
        -- intros Hr _. split; [by apply Hiff|by apply Hr].
        -- intros Hr _. by apply Hr.
Qed.

(** When [WalkRepo] returns a nil error. *)
Lemma WalkRepo_nil_iff root :
  (WalkRepo root).2 = None ↔ ∃ d, root = Some d ∧ readable [] d.
Proof.
  unfold Walker.WalkRepo, WalkDir. destruct root as [d|]; simpl.
  - destruct (walkDir_error [] d []) as [Hskip Hiff].
    destruct (walkDir [] d []) as [entries [e|]]; simpl in *.
    + destruct e; simpl; try done; split; try done;
        intros (d' & [= <-] & Hr); by apply Hiff in Hr.
    + split; [|done]. intros _. exists d. split; [done|]. by apply Hiff.
  - split; [done|]. by intros (d & ? & _).
Qed.

(** The walk appends to the entries it is given, and what it appends and
    what it returns do not depend on them. *)
Lemma walk_entries_shift rel dirs entries :
  Forall (λ d, ∀ rel entries,
            walkDir rel d entries
            = ((entries ++ (walkDir rel d []).1)%list, (walkDir rel d []).2)) dirs →
  walk_entries rel dirs entries
  = ((entries ++ (walk_entries rel dirs []).1)%list, (walk_entries rel dirs []).2).
Proof.
  intros Hall. revert entries.
  induction Hall as [|d1 rest Hd1 _ IH]; intros entries; simpl.
  - by rewrite app_nil_r.
  - rewrite (Hd1 (rel ++ [node_name d1])%list entries).
    destruct (Walker.walkDir Match sha256_hex repoPath (rel ++ [node_name d1])%list d1 [])
      as [f1 [e|]]; simpl.
    + by destruct (is_SkipDir e).
    + rewrite (IH (entries ++ f1)%list), (IH f1). simpl. by rewrite app_assoc.
Qed.

Lemma walkDir_shift rel d entries :
  walkDir rel d entries
  = ((entries ++ (walkDir rel d []).1)%list, (walkDir rel d []).2).
Proof.
  revert rel entries. induction d as [name content|name|name dirs IH] using FsNode_tree_ind;
    intros rel entries.
  - simpl. destruct (isSupportedFile name); simpl; [|by rewrite app_nil_r].
    destruct (Match (splitPath_Rel rel) false); simpl; [by rewrite app_nil_r|].
    destruct content as [content|]; simpl; by rewrite ?app_nil_r.
  - simpl. destruct (shouldSkipDir Match name rel); simpl; by rewrite app_nil_r.
  - simpl. destruct (shouldSkipDir Match name rel); simpl; [by rewrite app_nil_r|].
    by apply (walk_entries_shift rel dirs entries).
Qed.

Lemma all_readable_app rel before rest :
  all_readable rel (before ++ rest) ↔ all_readable rel before ∧ all_readable rel rest.
Proof.
  induction before as [|d1 before IH]; simpl.
  - split; [by intros ?; split|by intros [_ ?]].
  - rewrite IH. split; [intros (? & ? & ?)|intros ((? & ?) & ?)]; by split_and!.
Qed.

(** The entries of a directory that are walked without error are passed
    over with what they yield. *)
Lemma walk_entries_app rel before rest entries :
  all_readable rel before →
  walk_entries rel (before ++ rest) entries
  = walk_entries rel rest (entries ++ (walk_entries rel before []).1)%list.
Proof.
  revert entries. induction before as [|d1 before IH]; intros entries Hr; simpl.
  - by rewrite app_nil_r.
  - destruct Hr as [Hr1 Hr].
    destruct (walkDir_error (rel ++ [node_name d1])%list d1 []) as [_ Hiff].
    apply Hiff in Hr1.
    rewrite (walkDir_shift (rel ++ [node_name d1])%list d1 entries).
    destruct (Walker.walkDir Match sha256_hex repoPath (rel ++ [node_name d1])%list d1 [])
      as [f1 e1]. simpl in Hr1. subst e1. simpl.
    rewrite (IH (entries ++ f1)%list Hr).
    rewrite (walk_entries_shift rel before f1); [|apply Forall_forall; intros; apply walkDir_shift].
    simpl. by rewrite app_assoc.
Qed.

(** A walk that meets its first failure returns it, with the entries
    appended until then. *)
Lemma walkDir_stops rel d found err entries :
  stops Match sha256_hex repoPath rel d found err →
  walkDir rel d entries = ((entries ++ found)%list, Some err).
Proof.
  intros Hs. revert entries.
  induction Hs as [rel name Hs Hm|rel name Hskip
                  |rel name before d1 after found err Hskip Hr Hs IH]; intros entries.
  - simpl. by rewrite Hs, Hm, app_nil_r.
  - simpl. by rewrite Hskip, app_nil_r.
  - simpl. rewrite Hskip. simpl.
    change (walk_entries rel (before ++ d1 :: after) entries
            = ((entries ++ (walk_entries rel before []).1 ++ found)%list, Some err)).
    rewrite (walk_entries_app rel before (d1 :: after) entries Hr). simpl.
    rewrite IH.
    destruct (walkDir_error (rel ++ [node_name d1])%list d1
                (entries ++ (walk_entries rel before []).1)%list) as [Hns _].
    rewrite IH in Hns. simpl in Hns.
    destruct err; try done; simpl; by rewrite app_assoc.
Qed.

(** A walk that returns an error has met a first failure. *)
Lemma walkDir_fails rel d entries err :
  (walkDir rel d entries).2 = Some err →
  ∃ found, stops Match sha256_hex repoPath rel d found err.
Proof.
  revert rel entries. induction d as [name content|name|name dirs IH] using FsNode_tree_ind;
    intros rel entries.
  - simpl. destruct (isSupportedFile name) eqn:Hs; simpl; [|done].
    destruct (Match (splitPath_Rel rel) false) eqn:Hm; simpl; [done|].
    destruct content as [content|]; simpl; [done|].
    intros [= <-]. exists []. by apply stops_file.
  - simpl. destruct (shouldSkipDir Match name rel) eqn:Hskip; simpl; [done|].
    intros [= <-]. exists []. by apply stops_list.
  - simpl. destruct (shouldSkipDir Match name rel) eqn:Hskip; simpl; [done|].
    change ((walk_entries rel dirs entries).2 = Some err →
            ∃ found, stops Match sha256_hex repoPath rel (FsDir name (Some dirs)) found err).
    assert (Hgen : ∀ rest before entries, dirs = (before ++ rest)%list →
              all_readable rel before →
              Forall (λ d, ∀ rel entries,
                        (walkDir rel d entries).2 = Some err →
                        ∃ found, stops Match sha256_hex repoPath rel d found err) rest →
              (walk_entries rel rest entries).2 = Some err →
              ∃ found, stops Match sha256_hex repoPath rel (FsDir name (Some dirs)) found err).
    { clear IH entries. intros rest.
      induction rest as [|d1 rest IHrest]; intros before entries Hdirs Hr Hall; simpl; [done|].
      apply Forall_cons in Hall as [Hd1 Hall].
      destruct (walkDir_error (rel ++ [node_name d1])%list d1 entries) as [Hns Hiff].
      specialize (Hd1 (rel ++ [node_name d1])%list entries).
      destruct (Walker.walkDir Match sha256_hex repoPath (rel ++ [node_name d1])%list d1 entries)
        as [entries1 [e|]]; simpl in *.
      - destruct e; try done; simpl; intros [= <-];
          destruct Hd1 as [found Hfound]; try done;
          eexists; rewrite Hdirs; by apply stops_entry.
      - intros Herr. apply (IHrest (before ++ [d1])%list entries1); [|  |done|done].
        + by rewrite <-app_assoc.
        + apply all_readable_app. split; [done|]. simpl. split; [|done]. by apply Hiff. }
    intros Herr. by apply (Hgen dirs [] entries).
Qed.

(** C6, as amended.  [WalkRepo] returns a nil error exactly when the root
    can be stat'ed, every directory the walk enters can be listed, and every
    supported file that no ignore pattern matches can be read.  A root that
    cannot be stat'ed gives its error and no entry.  Any other failure is
    not skipped: the walk stops at the first file it cannot read or
    directory it cannot list, and [WalkRepo] returns that error together
    with the entries collected before it, those of the directory entries
    that come before the failing one at every level, and nothing of what
    comes after. *)
Theorem WalkRepo_stops_at_first_error root :
  ((WalkRepo root).2 = None ↔ ∃ d, root = Some d ∧ readable [] d)
  ∧ (root = None → WalkRepo root = ([], Some (LstatError repoPath)))
  ∧ (∀ d, root = Some d → ¬ readable [] d →
       ∃ found err, stops Match sha256_hex repoPath [] d found err)
  ∧ (∀ d found err, root = Some d → stops Match sha256_hex repoPath [] d found err →
       WalkRepo root = (found, Some err)).
Proof.
  split_and!.
  - apply WalkRepo_nil_iff.
  - by intros ->.
  - intros d -> Hnot. destruct (walkDir_error [] d []) as [_ Hiff].
    destruct (Walker.walkDir Match sha256_hex repoPath [] d []) as [entries [err|]] eqn:Hw;
      simpl in Hiff; [|by destruct Hnot; apply Hiff].
    destruct (walkDir_fails [] d [] err) as [found Hs]; [by rewrite Hw|].
    by exists found, err.
  - intros d found err -> Hs. unfold Walker.WalkRepo, WalkDir.
    rewrite (walkDir_stops [] d found err [] Hs). simpl.
    destruct (walkDir_error [] d []) as [Hns _].
    rewrite (walkDir_stops [] d found err [] Hs) in Hns. simpl in Hns.
    by destruct err.
Qed.

(** A file that cannot be read stops every walk that reaches it. *)
Lemma walkDir_unreadable_file rel name entries :
  isSupportedFile name = true → Match (splitPath_Rel rel) false = false →
  walkDir rel (FsFile name None) entries
  = (entries, Some (ReadFileError (abs_path repoPath rel))).
Proof. intros Hs Hm. simpl. by rewrite Hs, Hm. Qed.

End Facts.

(** C6 as stated fails: the root of [repo_unreadable] is accessible, the
    read of [b.go] fails, and [WalkRepo] returns that failure as its error;
    [a.go], read before it, is returned, and [c.go] is never reached. *)
Lemma WalkRepo_read_error_not_skipped :
  WalkRepo match_nothing no_digest "/repo" (Some repo_unreadable)
  = ([{| Path := "/repo/a.go"; RelPath := "a.go"; Language := "go";
         Content := "package a"; SHA256 := ""; EntryIsDir := false |}],
     Some (ReadFileError "/repo/b.go")).
Proof. vm_compute. reflexivity. Qed.

Lemma WalkRepo_stops_at_first_error_witness :
  stops match_nothing no_digest "/repo" [] repo_unreadable
    [{| Path := "/repo/a.go"; RelPath := "a.go"; Language := "go";
        Content := "package a"; SHA256 := ""; EntryIsDir := false |}]
    (ReadFileError "/repo/b.go")
  ∧ WalkRepo match_nothing no_digest "/repo" (Some repo_unreadable)
    = ([{| Path := "/repo/a.go"; RelPath := "a.go"; Language := "go";
           Content := "package a"; SHA256 := ""; EntryIsDir := false |}],
       Some (ReadFileError "/repo/b.go")).
Proof.
  assert (Hs : stops match_nothing no_digest "/repo" [] repo_unreadable
                 [{| Path := "/repo/a.go"; RelPath := "a.go"; Language := "go";
                     Content := "package a"; SHA256 := ""; EntryIsDir := false |}]
                 (ReadFileError "/repo/b.go")).
  { apply (stops_entry match_nothing no_digest "/repo" [] "repo"
             [FsFile "a.go" (Some "package a")] (FsFile "b.go" None)
             [FsFile "c.go" (Some "package c")] [] (ReadFileError "/repo/b.go")).
    - reflexivity.
    - simpl. split; [|exact I]. intros _ _. exists "package a". reflexivity.
    - apply (stops_file match_nothing no_digest "/repo" ["b.go"] "b.go"); reflexivity. }
  split; [exact Hs|].
  exact (proj2 (proj2 (proj2 (WalkRepo_stops_at_first_error match_nothing no_digest "/repo"
                                (Some repo_unreadable))))
           repo_unreadable _ _ eq_refl Hs).
Defined.

End WalkerFacts.

(** ** Reciprocal Rank Fusion is monotone *)
Module SearchFacts.
Import Search Examples.




Section Facts.
Context `{MapRange} `{SortSlice}.



End Facts.

Section Backend.
Context `{MapRange} `{SortSlice} {float32 : Type} `{StorageBackend float32}.


End Backend.

(** Insertion sort keeps the contract of [sort.Slice]. *)
Lemma insert_by_score_perm x l : insert_by_score x l ≡ₚ x :: l.
Proof.
  induction l as [|y rest IH]; simpl; [done|].
  destruct (Qle_bool (hScore y) (hScore x)); [done|].
  rewrite IH. apply Permutation_swap.
Qed.

Lemma insertion_sort_perm l : insertion_sort l ≡ₚ l.
Proof.
  induction l as [|x l IH]; simpl; [done|].
  by rewrite insert_by_score_perm, IH.
Qed.

Lemma insert_by_score_descending x l : descending l → descending (insert_by_score x l).
Proof.
  unfold descending. induction 1 as [|y rest Hrest IH Hy]; simpl.
  - by repeat constructor.
  - destruct (Qle_bool (hScore y) (hScore x)) eqn:E.
    + apply Qle_bool_iff in E. constructor; [by constructor|].
      constructor; [done|]. eapply Forall_impl; [exact Hy|].
      intros z Hz. simpl in *. by eapply Qle_trans.
    + constructor; [done|].
      assert (hScore x <= hScore y)%Q as Hxy.
      { apply Qlt_le_weak, Qnot_le_lt. intros Hle%Qle_bool_iff. congruence. }
      rewrite (insert_by_score_perm x rest). by constructor.
Qed.

Lemma insertion_sort_descending l : descending (insertion_sort l).
Proof.
  induction l as [|x l IH]; simpl; [constructor|].
  by apply insert_by_score_descending.
Qed.

Lemma descending_lookup l i j x y :
  descending l → (i < j)%nat → l !! i = Some x → l !! j = Some y →
  (hScore y <= hScore x)%Q.
Proof.
  intros Hl. revert i j. induction Hl as [|z rest Hrest IH Hz]; intros i j Hij Hi Hj; [done|].
  destruct i as [|i], j as [|j]; try lia; simpl in *.
  - injection Hi as ->. eapply Forall_forall in Hz; [exact Hz|].
    by eapply list_elem_of_lookup_2.
  - eapply (IH i j); [lia|done..].
Qed.

#[local] Program Instance insertion_SortSlice : SortSlice :=
  {| sort_by_score := insertion_sort |}.
Next Obligation. apply insertion_sort_perm. Qed.
Next Obligation.
  intros l i j x y Hij Hi Hj Hlt.
  pose proof (descending_lookup _ _ _ _ _ (insertion_sort_descending l) Hij Hi Hj) as Hle.
  by apply Qle_not_lt in Hle.
Qed.


End SearchFacts.

(** ** Cosine similarity *)
Module CosineFacts.
Import Cosine.
#[local] Open Scope R_scope.

Lemma foldl_accumulate a b d na nb :
  length a = length b →
  foldl accumulate (d, na, nb) (combine a b) = (d + dot a b, na + dot a a, nb + dot b b).
Proof.
  revert b d na nb. induction a as [|x a IH]; intros [|y b] d na nb Hlen; simpl in *;
    try discriminate.
  - by rewrite !Rplus_0_r.
  - rewrite IH by congruence. f_equal; [f_equal|]; ring.
Qed.

Lemma dot_self_nonneg v : 0 <= dot v v.
Proof. induction v as [|x v IH]; simpl; [lra|]. nra. Qed.



Lemma dot_comm a b : dot a b = dot b a.
Proof.
  revert b. induction a as [|x a IH]; intros [|y b]; simpl; try ring.
  rewrite IH. ring.
Qed.


Lemma non_zero_length v : non_zero v → length v ≠ 0%nat.
Proof. intros (x & Hin & _). by destruct v; [apply elem_of_nil in Hin|]. Qed.






End CosineFacts.

(** ** The TF-IDF embedder: the document count at the vocabulary cap *)
Module EmbedFacts.
Import Embed.

(** [BuildVocabulary] records the number of documents only if its loops
    run to their end. *)
Lemma BuildVocabulary_docCount docs e :
  docCount (BuildVocabulary docs e)
  = if (scan_docs docs (vocab e) 0).2 then docCount e else Z.of_nat (length docs).
Proof.
  unfold BuildVocabulary. by destruct (scan_docs docs (vocab e) 0) as [v []].
Qed.

(** [count_terms] adds one to the count of each term of the document that
    is not yet seen, and leaves the other counts. *)
Lemma count_terms_lookup terms seen docFreq term :
  count_terms terms seen docFreq !! term
  = if decide (term ∈ terms ∧ term ∉ seen)
    then Some (default 0 (docFreq !! term) + 1)%Z
    else docFreq !! term.
Proof.
  revert seen docFreq.
  induction terms as [|t rest IH]; intros seen docFreq; cbn [count_terms].
  - rewrite decide_False; [done|]. intros [Hd _]. by apply elem_of_nil in Hd.
  - destruct (decide (t ∈ seen)) as [Hseen|Hseen]; rewrite IH.
    + repeat case_decide; first [done | exfalso; set_solver].
    + destruct (decide (term = t)) as [->|Hne].
      * rewrite lookup_insert_eq.
        rewrite decide_False by set_solver.
        rewrite decide_True; [done|]. split; [apply list_elem_of_here|done].
      * rewrite lookup_insert_ne by done.
        repeat case_decide; first [done | exfalso; set_solver].
Qed.

(** The frequency map of [ComputeIDF] holds, for each term that occurs in
    some document, the number of documents it occurs in, and nothing for
    the other terms. *)
Lemma document_frequency_from docs docFreq term :
  foldl (λ docFreq doc, count_terms (tokenize doc) ∅ docFreq) docFreq docs !! term
  = if decide (documents_containing term docs = 0)%Z
    then docFreq !! term
    else Some (default 0 (docFreq !! term) + documents_containing term docs)%Z.
Proof.
  unfold documents_containing.
  revert docFreq. induction docs as [|doc rest IH]; intros docFreq; [done|].
  cbn [foldl]. rewrite IH, count_terms_lookup. rewrite filter_cons.
  destruct (decide (term ∈ tokenize doc)) as [Hin|Hin].
  - rewrite (decide_True (P := _ ∧ _)) by set_solver.
    rewrite (decide_False (P := Z.of_nat (length (_ :: _)) = 0%Z)) by (simpl; lia).
    case_decide as Hz; simpl; f_equal; simpl length; lia.
  - rewrite (decide_False (P := _ ∧ _)) by tauto. done.
Qed.

Lemma document_frequency_lookup docs term :
  (0 < documents_containing term docs)%Z →
  document_frequency docs !! term = Some (documents_containing term docs).
Proof.
  intros Hpos. unfold document_frequency. rewrite document_frequency_from.
  rewrite decide_False by lia. rewrite lookup_empty. simpl. by rewrite Z.add_0_l.
Qed.

(** What [BuildVocabulary] adds to the vocabulary are terms of the
    documents. *)
Lemma scan_terms_vocab terms seen vocab termIndex term :
  is_Some ((scan_terms terms seen vocab termIndex).1.1 !! term) →
  is_Some (vocab !! term) ∨ term ∈ terms.
Proof.
  revert seen vocab termIndex.
  induction terms as [|t rest IH]; intros seen vocab termIndex;
    cbn [scan_terms fst]; [by left|].
  assert (Hrest : ∀ seen vocab termIndex,
    is_Some ((scan_terms rest seen vocab termIndex).1.1 !! term) →
    is_Some (vocab !! term) ∨ term ∈ t :: rest).
  { intros s v i Hs. destruct (IH s v i Hs); [by left|right; by apply list_elem_of_further]. }
  assert (Hins : is_Some (<[t := termIndex]> vocab !! term) →
    is_Some (vocab !! term) ∨ term ∈ t :: rest).
  { destruct (decide (term = t)) as [->|Hne]; [right; apply list_elem_of_here|].
    rewrite lookup_insert_ne by done. by left. }
  destruct (decide (t ∈ seen)); [apply Hrest|].
  destruct (vocab !! t) eqn:Hv; [apply Hrest|].
  destruct (EmbeddingDimension <=? S termIndex)%nat; cbn [fst]; [exact Hins|].
  intros Hs. destruct (IH _ _ _ Hs) as [Hs'|Hs']; [by apply Hins|].
  right. by apply list_elem_of_further.
Qed.

Lemma scan_docs_vocab docs vocab termIndex term :
  is_Some ((scan_docs docs vocab termIndex).1 !! term) →
  is_Some (vocab !! term) ∨ (0 < documents_containing term docs)%Z.
Proof.
  unfold documents_containing.
  revert vocab termIndex. induction docs as [|doc rest IH]; intros vocab termIndex;
    simpl; [by left|].
  pose proof (scan_terms_vocab (tokenize doc) ∅ vocab termIndex term) as Hdoc.
  destruct (scan_terms (tokenize doc) ∅ vocab termIndex) as [[v i] returned].
  simpl in Hdoc. rewrite filter_cons.
  assert (Hhere : is_Some (v !! term) →
    is_Some (vocab !! term)
    ∨ (0 < Z.of_nat (length (if decide (term ∈ tokenize doc)
                             then doc :: filter (λ doc, term ∈ tokenize doc) rest
                             else filter (λ doc, term ∈ tokenize doc) rest)))%Z).
  { intros Hs. destruct (Hdoc Hs) as [Hv|Hin]; [by left|right].
    rewrite decide_True by done. simpl. lia. }
  destruct returned; simpl; [exact Hhere|].
  intros Hs. destruct (IH _ _ Hs) as [Hv|Hpos]; [by apply Hhere|right].
  case_decide; simpl length; lia.
Qed.

Lemma documents_containing_le term docs :
  (documents_containing term docs <= Z.of_nat (length docs))%Z.
Proof.
  unfold documents_containing. pose proof (length_filter (λ doc, term ∈ tokenize doc) docs).
  lia.
Qed.

Section Facts.
Context `{MapRange}.

(** [ComputeIDF] stores [ln(docCount / df)] for every term that occurs in
    a document, with the [docCount] it finds in the embedder. *)
Lemma ComputeIDF_lookup docs e term df :
  document_frequency docs !! term = Some df → (0 < df)%Z →
  idf (ComputeIDF docs e) !! term = Some (log_ratio (docCount e) df).
Proof.
  intros Hdf Hpos. unfold ComputeIDF. simpl.
  apply elem_of_range in Hdf.
  pose proof (NoDup_fst_range (document_frequency docs)) as Hnd.
  revert Hdf Hnd. generalize (idf e). generalize (range (document_frequency docs)).
  intros l. induction l as [|[t d] l IH]; intros m Hin Hnd; [by apply elem_of_nil in Hin|].
  rewrite fmap_cons in Hnd. apply NoDup_cons in Hnd as [Ht Hnd]. simpl.
  apply elem_of_cons in Hin as [[= <- <-]|Hin].
  - rewrite (proj2 (Z.ltb_lt 0 df)) by done.
    clear IH. revert m. induction l as [|[t' d'] l IH]; intros m; simpl.
    + apply lookup_insert_eq.
    + rewrite fmap_cons in Ht, Hnd. apply not_elem_of_cons in Ht as [Hne Ht].
      apply NoDup_cons in Hnd as [_ Hnd].
      destruct (0 <? d')%Z.
      * rewrite insert_insert_ne by done. by apply IH.
      * by apply IH.
  - by apply IH.
Qed.

(** X24.  Below the cap.  On an embedder with an empty vocabulary, if
    [BuildVocabulary] runs its loops to the end, then every term of the
    vocabulary occurs in a document, and its stored score is [ln(N / df)]
    with [N] the number of documents and [df] the number of them the term
    occurs in. *)
Lemma idf_below_cap_all docs e term :
  vocab e = ∅ →
  (scan_docs docs ∅ 0).2 = false →
  is_Some (vocab (ComputeIDF docs (BuildVocabulary docs e)) !! term) →
  (0 < documents_containing term docs)%Z
  ∧ idf (ComputeIDF docs (BuildVocabulary docs e)) !! term
    = Some (Real (ln (IZR (Z.of_nat (length docs))
                      / IZR (documents_containing term docs)))).
Proof.
  intros Hempty Hend Hterm.
  assert (Hpos : (0 < documents_containing term docs)%Z).
  { revert Hterm. unfold ComputeIDF, BuildVocabulary. simpl. rewrite Hempty.
    pose proof (scan_docs_vocab docs ∅ 0 term) as Hv.
    destruct (scan_docs docs ∅ 0) as [v returned]. simpl in Hend. subst returned.
    simpl in *. intros Hs. destruct (Hv Hs) as [Hs'|]; [|done].
    rewrite lookup_empty in Hs'. by destruct Hs'. }
  split; [done|].
  rewrite (ComputeIDF_lookup docs _ term _ (document_frequency_lookup _ _ Hpos) Hpos).
  rewrite BuildVocabulary_docCount, Hempty, Hend.
  pose proof (documents_containing_le term docs).
  unfold log_ratio.
  rewrite (proj2 (Z.ltb_ge _ _)) by lia.
  by rewrite (proj2 (Z.eqb_neq _ _)) by lia.
Qed.

(** At the cap.  On a new embedder, if [BuildVocabulary] returns from
    inside its loops, the document count stays 0 and every term that occurs
    in a document gets the score [ln(0 / df)], minus infinity. *)
Lemma idf_at_cap_all docs term :
  (scan_docs docs ∅ 0).2 = true →
  (0 < documents_containing term docs)%Z →
  idf (ComputeIDF docs (BuildVocabulary docs NewTFIDFEmbedder)) !! term = Some NegInf.
Proof.
  intros Hret Hpos.
  rewrite (ComputeIDF_lookup docs _ term _ (document_frequency_lookup _ _ Hpos) Hpos).
  rewrite BuildVocabulary_docCount. simpl vocab. by rewrite Hret.
Qed.

End Facts.

(** Below the cap the stored score is [ln(N / df)]: two documents, the
    term [beta] in one of them. *)
Lemma idf_below_cap :
  let docs := [doc_3_terms; "alpha"] in
  idf (ComputeIDF docs (BuildVocabulary docs NewTFIDFEmbedder)) !! "beta"
  = Some (Real (ln (IZR 2 / IZR 1))).
Proof.
  intros docs. rewrite (ComputeIDF_lookup docs _ "beta" 1); [|by vm_compute|lia].
  rewrite BuildVocabulary_docCount.
  replace (scan_docs docs (vocab NewTFIDFEmbedder) 0).2 with false by (by vm_compute).
  reflexivity.
Qed.

(** C9 at the cap.  One document with the hundred distinct terms [t00] to
    [t99] on a fresh embedder: the hundredth term makes [BuildVocabulary]
    return before it sets [docCount], which stays 0; [t00] is in the
    vocabulary and in one document of one, so its score should be
    [ln(1/1)], and [ComputeIDF] stores [ln(0/1)], minus infinity. *)
Theorem idf_lost_at_cap :
  let docs := [doc_100_terms] in
  let e := ComputeIDF docs (BuildVocabulary docs NewTFIDFEmbedder) in
  vocab e !! "t00" = Some 0%nat
  ∧ document_frequency docs !! "t00" = Some 1%Z
  ∧ docCount e = 0%Z
  ∧ idf e !! "t00" = Some NegInf
  ∧ NegInf ≠ log_ratio (Z.of_nat (length docs)) 1.
Proof.
  intros docs e.
  assert (Hdf : document_frequency docs !! "t00" = Some 1%Z) by (by vm_compute).
  assert (Hcount : docCount (BuildVocabulary docs NewTFIDFEmbedder) = 0%Z)
    by (by vm_compute).
  split_and!; [by vm_compute|done|exact Hcount| |done].
  unfold e. rewrite (ComputeIDF_lookup docs _ "t00" 1) by (done || lia).
  by rewrite Hcount.
Qed.

End EmbedFacts.

(** ** Traversal: the direction argument *)
Module StorageFacts.
Import Graph Storage Examples.

Section Facts.
Variable unmarshal_node : string → option GraphNode.
Variable unmarshal_rel : string → option GraphRelationship.
Variable db : list (string * item).

Abbreviation neighbors_of := (neighbors_of unmarshal_node unmarshal_rel db).
Abbreviation Traverse_loop := (Traverse_loop unmarshal_node unmarshal_rel db).
Abbreviation tree_size := (tree_size unmarshal_node unmarshal_rel db).
Abbreviation item_weight := (item_weight unmarshal_node unmarshal_rel db).
Abbreviation queue_weight := (queue_weight unmarshal_node unmarshal_rel db).
Abbreviation Traverse := (Traverse unmarshal_node unmarshal_rel db).
Abbreviation collect := (collect unmarshal_node unmarshal_rel db).
Abbreviation resolve := (resolve unmarshal_node unmarshal_rel db).
Abbreviation GetCallees := (GetCallees unmarshal_node unmarshal_rel db).
Abbreviation getNode := (getNode unmarshal_node db).
Abbreviation callee_edge := (callee_edge unmarshal_node unmarshal_rel db).
Abbreviation expands := (expands unmarshal_node db).
Abbreviation reach := (reach unmarshal_node unmarshal_rel db).
Abbreviation traverse_inv := (traverse_inv unmarshal_node unmarshal_rel db).

(** Any direction but ["callers"] takes the branch of ["callees"]. *)
Lemma neighbors_of_other direction nodeID :
  direction ≠ "callers" → neighbors_of direction nodeID = neighbors_of "callees" nodeID.
Proof. intros Hd. unfold Storage.neighbors_of. by rewrite decide_False. Qed.

Lemma tree_size_other direction levels nodeID :
  direction ≠ "callers" → tree_size direction levels nodeID = tree_size "callees" levels nodeID.
Proof.
  intros Hd. revert nodeID. induction levels as [|levels IH]; intros nodeID; simpl; [done|].
  rewrite neighbors_of_other by done. f_equal.
  destruct (neighbors_of "callees" nodeID) as [neighbors|]; [|done].
  induction neighbors as [|n neighbors IHn]; simpl; [done|]. by rewrite IH, IHn.
Qed.

Lemma queue_weight_other direction depth queue :
  direction ≠ "callers" → queue_weight direction depth queue = queue_weight "callees" depth queue.
Proof.
  intros Hd. unfold Storage.queue_weight, Storage.item_weight.
  induction queue as [|it queue IH]; simpl; [done|].
  by rewrite IH, tree_size_other.
Qed.

Lemma Traverse_loop_other fuel startID depth direction queue visited result :
  direction ≠ "callers" →
  Traverse_loop fuel startID depth direction queue visited result
  = Traverse_loop fuel startID depth "callees" queue visited result.
Proof.
  intros Hd. revert queue visited result.
  induction fuel as [|fuel IH]; intros queue visited result; simpl; [done|].
  destruct queue as [|current queue]; [done|].
  rewrite neighbors_of_other by done.
  repeat (case_match; try done).
Qed.

Lemma tree_size_pos direction levels nodeID : (0 < tree_size direction levels nodeID)%nat.
Proof. destruct levels; simpl; lia. Qed.

Lemma sum_list_with_filter_le {A} (f : A → nat) (P : A → Prop)
    `{!∀ x, Decision (P x)} l :
  (sum_list_with f (filter P l) ≤ sum_list_with f l)%nat.
Proof.
  induction l as [|x l IH]; [done|]. rewrite filter_cons.
  destruct (decide (P x)); simpl; lia.
Qed.

Lemma sum_list_with_fmap {A B} (f : B → nat) (g : A → B) l :
  sum_list_with f (g <$> l) = sum_list_with (f ∘ g) l.
Proof.
  induction l as [|x l IH]; [done|]. rewrite fmap_cons. simpl. by rewrite IH.
Qed.

(** The loop ends: every iteration takes the weight of the queue down. *)
Lemma Traverse_loop_ends fuel startID depth direction queue visited result :
  (queue_weight direction depth queue < fuel)%nat →
  is_Some (Traverse_loop fuel startID depth direction queue visited result).
Proof.
  revert queue visited result.
  induction fuel as [|fuel IH]; intros queue visited result Hw; [lia|]. simpl.
  destruct queue as [|current queue]; [done|].
  unfold Storage.queue_weight in Hw. simpl in Hw.
  fold (queue_weight direction depth queue) in Hw.
  pose proof (tree_size_pos direction (Z.to_nat (depth - Storage.depth current))
                (nodeID current)) as Hpos.
  unfold Storage.item_weight in Hw.
  destruct (decide (nodeID current ∈ visited)); [apply IH; lia|].
  destruct (if decide (nodeID current ≠ startID) then _ else _) as [node|err];
    [|apply IH; lia].
  destruct (Storage.depth current <? depth)%Z eqn:Hdepth; [|apply IH; lia].
  apply Z.ltb_lt in Hdepth.
  destruct (Z.to_nat (depth - Storage.depth current)) as [|levels] eqn:Hlevels; [lia|].
  simpl in Hw.
  destruct (neighbors_of direction (nodeID current)) as [neighbors|err];
    [|apply IH; lia].
  apply IH. unfold Storage.queue_weight. rewrite sum_list_with_app.
  fold (queue_weight direction depth queue).
  rewrite sum_list_with_fmap.
  pose proof (sum_list_with_filter_le
    (item_weight direction depth ∘ (λ neighbor,
       {| nodeID := ID neighbor; depth := Storage.depth current + 1 |}))
    (λ neighbor, ID neighbor ∉ {[nodeID current]} ∪ visited) neighbors) as Hle.
  assert (Heq : sum_list_with (item_weight direction depth ∘ (λ neighbor,
                  {| nodeID := ID neighbor; depth := Storage.depth current + 1 |}))
                  neighbors
                = sum_list_with (λ neighbor, tree_size direction levels (ID neighbor))
                    neighbors).
  { clear -Hlevels. induction neighbors as [|n neighbors IHn]; simpl; [done|].
    rewrite IHn. f_equal. unfold Storage.item_weight. simpl. f_equal. lia. }
  rewrite Heq in Hle. lia.
Qed.

Lemma Traverse_returns startID depth direction :
  ∃ nodes, Traverse startID depth direction = Some (nodes, None).
Proof.
  unfold Storage.Traverse.
  edestruct Traverse_loop_ends as [nodes Hnodes]; [|rewrite Hnodes; eauto]. lia.
Qed.

(** Any direction but ["callers"] gives the traversal of ["callees"]. *)
Lemma Traverse_other startID depth direction :
  direction ≠ "callers" →
  Traverse startID depth direction = Traverse startID depth "callees".
Proof.
  intros Hd. unfold Storage.Traverse.
  by rewrite (queue_weight_other direction), (Traverse_loop_other _ _ _ direction).
Qed.

(** *** What [GetCallees] returns, entry by entry *)
Lemma collect_result endpoint items found :
  collect endpoint items found
  = match List.find unreadable items with
    | Some entry => inr (ErrReadingRelID entry.1)
    | None => inl (found ++ omap (resolve endpoint) items)%list
    end.
Proof.
  revert found. induction items as [|[key it] items IH]; intros found; simpl.
  - by rewrite app_nil_r.
  - destruct it as [relID|]; simpl; [|done].
    unfold Storage.resolve at 1. simpl.
    destruct (load_rel unmarshal_rel db relID) as [rel|]; simpl; [|by rewrite IH].
    destruct (load_node unmarshal_node db (endpoint rel)) as [node|]; simpl;
      rewrite IH; [|done].
    destruct (List.find unreadable items); [done|]. by rewrite <-app_assoc.
Qed.

Lemma GetCallees_edges x neighbors y :
  GetCallees x = inl neighbors →
  callee_edge x y ↔ ∃ node, node ∈ neighbors ∧ ID node = y.
Proof.
  unfold Storage.GetCallees, Storage.callee_edge. rewrite collect_result.
  destruct (List.find unreadable _) as [entry|]; [done|]. intros [= <-]. simpl.
  split.
  - intros (_ & entry & node & Hin & Hres & Hid). exists node. split; [|done].
    apply list_elem_of_omap. by exists entry.
  - intros (node & (entry & Hin & Hres)%list_elem_of_omap & Hid).
    split; [done|]. by exists entry, node.
Qed.

Lemma GetCallees_error x err y : GetCallees x = inr err → ¬ callee_edge x y.
Proof.
  unfold Storage.GetCallees, Storage.callee_edge. rewrite collect_result.
  destruct (List.find unreadable _) as [entry|]; [|done]. by intros _ [? _].
Qed.

(** *** The loop of [Traverse] keeps its invariant *)
Lemma layered_pop h it queue newq :
  layered h (it :: queue) →
  Forall (λ it', Storage.depth it' = (Storage.depth it + 1)%Z) newq →
  (h ≤ Storage.depth it)%Z ∧ layered (Storage.depth it) (queue ++ newq).
Proof.
  intros (q1 & q2 & Heq & H1 & H2) Hnew. destruct q1 as [|it1 q1].
  - simpl in Heq. subst q2. apply Forall_cons in H2 as [Hd H2]. split; [lia|].
    exists queue, newq. split_and!; [done| |done].
    eapply Forall_impl; [exact H2|]. simpl. intros; lia.
  - injection Heq as <- ->. apply Forall_cons in H1 as [Hd H1]. split; [lia|].
    exists q1, (q2 ++ newq)%list. split_and!; [by rewrite app_assoc| |].
    + eapply Forall_impl; [exact H1|]. simpl. intros; lia.
    + apply Forall_app. split; [|done].
      eapply Forall_impl; [exact H2|]. simpl. intros; lia.
Qed.

Lemma traverse_inv_skip startID limit seen it queue visited result :
  traverse_inv startID limit seen (it :: queue) visited result →
  nodeID it ∈ visited →
  traverse_inv startID limit seen queue visited result.
Proof.
  intros [Hdom Hseen Hq (h & Hl & Hh) Hc Hr Hs] Hv.
  assert (∃ dc, seen !! nodeID it = Some dc) as [dc Hdc].
  { apply elem_of_dom. by rewrite Hdom. }
  destruct (layered_pop h it queue [] Hl ltac:(constructor)) as [Hle Hl'].
  rewrite app_nil_r in Hl'. pose proof (Hh _ _ Hdc) as Hdch.
  split.
  - done.
  - done.
  - intros it' Hin. apply Hq. by apply list_elem_of_further.
  - exists (Storage.depth it). split; [done|].
    intros x dx Hx. specialize (Hh _ _ Hx). lia.
  - intros x dx y Hx He Hlt Hedge.
    destruct (Hc x dx y Hx He Hlt Hedge) as [?|(it' & Hin & Hid & Hd)]; [by left|].
    apply elem_of_cons in Hin as [->|Hin]; [|right; eauto].
    left. exists dc. rewrite <-Hid. split; [done|lia].
  - done.
  - destruct Hs as [?|(it' & Hin & Hid & Hd)]; [by left|].
    apply elem_of_cons in Hin as [->|Hin]; [|right; eauto].
    left. exists dc. rewrite <-Hid. split; [done|lia].
Qed.

Lemma traverse_inv_step startID limit seen it queue visited result newq result' :
  traverse_inv startID limit seen (it :: queue) visited result →
  nodeID it ∉ visited →
  Forall (λ it', Storage.depth it' = (Storage.depth it + 1)%Z
                 ∧ reach startID (Storage.depth it + 1) (nodeID it')
                 ∧ (Storage.depth it < limit)%Z) newq →
  (expands startID (nodeID it) → (Storage.depth it < limit)%Z →
   ∀ y, callee_edge (nodeID it) y →
        y ∈ ({[nodeID it]} ∪ visited : gset string)
        ∨ ∃ it', it' ∈ newq ∧ nodeID it' = y) →
  (∀ node, node ∈ result' ↔
           node ∈ result
           ∨ (nodeID it ≠ startID ∧ getNode (nodeID it) = inl (Some node))) →
  traverse_inv startID limit (<[nodeID it := Storage.depth it]> seen)
    (queue ++ newq) ({[nodeID it]} ∪ visited) result'.
Proof.
  intros [Hdom Hseen Hq (h & Hl & Hh) Hc Hr Hs] Hv Hnew Hcover Hres.
  assert (Hnone : seen !! nodeID it = None).
  { apply not_elem_of_dom. by rewrite Hdom. }
  destruct (layered_pop h it queue newq Hl) as [Hle Hl'].
  { eapply Forall_impl; [exact Hnew|]. by intros ? (? & _). }
  destruct (Hq it ltac:(apply list_elem_of_here)) as [Hreach Hbound].
  assert (Hlookup : ∀ x dx, <[nodeID it := Storage.depth it]> seen !! x = Some dx →
            (x = nodeID it ∧ dx = Storage.depth it) ∨ (x ≠ nodeID it ∧ seen !! x = Some dx)).
  { intros x dx. rewrite lookup_insert. case_decide; [intros [= <-]; by left|by right]. }
  split.
  - by rewrite dom_insert_L, Hdom.
  - intros x dx [[-> ->]|[_ Hx]]%Hlookup; [done|by apply Hseen].
  - intros it' [Hin|Hin]%elem_of_app.
    + apply Hq. by apply list_elem_of_further.
    + rewrite Forall_forall in Hnew. destruct (Hnew _ Hin) as (Hd & Hr' & Hlt).
      rewrite Hd. split; [done|]. intros _. lia.
  - exists (Storage.depth it). split; [done|].
    intros x dx [[-> ->]|[_ Hx]]%Hlookup; [lia|]. specialize (Hh _ _ Hx). lia.
  - intros x dx y [[-> ->]|[Hne Hx]]%Hlookup He Hlt Hedge.
    + destruct (Hcover He Hlt y Hedge) as [Hy|(it' & Hin & Hid)].
      * left. apply elem_of_union in Hy as [->%elem_of_singleton|Hy].
        -- exists (Storage.depth it). rewrite lookup_insert_eq. split; [done|lia].
        -- assert (∃ dy, seen !! y = Some dy) as [dy Hdy].
           { apply elem_of_dom. by rewrite Hdom. }
           exists dy. rewrite lookup_insert_ne by (intros <-; congruence).
           split; [done|]. specialize (Hh _ _ Hdy). lia.
      * right. exists it'. split_and!; [apply elem_of_app; by right|done|].
        rewrite Forall_forall in Hnew. destruct (Hnew _ Hin) as (Hd & _). lia.
    + destruct (Hc x dx y Hx He Hlt Hedge) as [(dy & Hdy & Hle')|(it' & Hin & Hid & Hd)].
      * left. exists dy. rewrite lookup_insert_ne by (intros <-; congruence). done.
      * apply elem_of_cons in Hin as [->|Hin].
        -- left. exists (Storage.depth it). rewrite <-Hid, lookup_insert_eq. done.
        -- right. exists it'. split_and!; [apply elem_of_app; by left|done|done].
  - intros node. rewrite Hres, Hr. split.
    + intros [(key & Hk & Hks & Hget)|[Hks Hget]].
      * exists key. split_and!; [set_solver|done|done].
      * exists (nodeID it). split_and!; [set_solver|done|done].
    + intros (key & [->%elem_of_singleton|Hk]%elem_of_union & Hks & Hget).
      * by right.
      * left. by exists key.
  - destruct Hs as [(d0 & Hd0 & Hle0)|(it' & Hin & Hid & Hd)].
    + left. exists d0. rewrite lookup_insert_ne by (intros <-; congruence). done.
    + apply elem_of_cons in Hin as [->|Hin].
      * left. exists (Storage.depth it). rewrite <-Hid, lookup_insert_eq. split; [done|lia].
      * right. exists it'. split_and!; [apply elem_of_app; by left|done|done].
Qed.

(** One iteration on an item that is not visited yet: what it appends to
    the queue and to the result. *)
Lemma Traverse_loop_body fuel startID limit direction it queue visited result :
  direction ≠ "callers" → nodeID it ∉ visited →
  reach startID (Storage.depth it) (nodeID it) →
  ∃ newq result',
    Traverse_loop (S fuel) startID limit direction (it :: queue) visited result
    = Traverse_loop fuel startID limit direction (queue ++ newq)
        ({[nodeID it]} ∪ visited) result'
    ∧ Forall (λ it', Storage.depth it' = (Storage.depth it + 1)%Z
                     ∧ reach startID (Storage.depth it + 1) (nodeID it')
                     ∧ (Storage.depth it < limit)%Z) newq
    ∧ (expands startID (nodeID it) → (Storage.depth it < limit)%Z →
       ∀ y, callee_edge (nodeID it) y →
            y ∈ ({[nodeID it]} ∪ visited : gset string)
            ∨ ∃ it', it' ∈ newq ∧ nodeID it' = y)
    ∧ (∀ node, node ∈ result' ↔
               node ∈ result
               ∨ (nodeID it ≠ startID ∧ getNode (nodeID it) = inl (Some node))).
Proof.
  intros Hdir Hv Hreach. simpl. rewrite decide_False by done.
  unfold Storage.neighbors_of. rewrite (decide_False (P := direction = "callers")) by done.
  set (visited' := {[nodeID it]} ∪ visited).
  (* the outcomes that append nothing to the queue *)
  assert (Hnil : ∀ result',
    (expands startID (nodeID it) → (Storage.depth it < limit)%Z →
     ∀ y, ¬ callee_edge (nodeID it) y) →
    (∀ node, node ∈ result' ↔
             node ∈ result
             ∨ (nodeID it ≠ startID ∧ getNode (nodeID it) = inl (Some node))) →
    ∃ newq result'',
      Traverse_loop fuel startID limit direction queue visited' result'
      = Traverse_loop fuel startID limit direction (queue ++ newq) visited' result''
      ∧ Forall (λ it', Storage.depth it' = (Storage.depth it + 1)%Z
                       ∧ reach startID (Storage.depth it + 1) (nodeID it')
                       ∧ (Storage.depth it < limit)%Z) newq
      ∧ (expands startID (nodeID it) → (Storage.depth it < limit)%Z →
         ∀ y, callee_edge (nodeID it) y →
              y ∈ visited' ∨ ∃ it', it' ∈ newq ∧ nodeID it' = y)
      ∧ (∀ node, node ∈ result'' ↔
                 node ∈ result
                 ∨ (nodeID it ≠ startID ∧ getNode (nodeID it) = inl (Some node)))).
  { intros result' Hno Hres. exists [], result'. rewrite app_nil_r.
    split_and!; [done|constructor| |done].
    intros He Hlt y Hedge. by destruct (Hno He Hlt y). }
  (* the outcome that appends the callees *)
  assert (Hexp : ∀ result' neighbors,
    expands startID (nodeID it) → (Storage.depth it < limit)%Z →
    GetCallees (nodeID it) = inl neighbors →
    (∀ node, node ∈ result' ↔
             node ∈ result
             ∨ (nodeID it ≠ startID ∧ getNode (nodeID it) = inl (Some node))) →
    ∃ newq result'',
      Traverse_loop fuel startID limit direction
        (queue ++ ((λ neighbor, {| nodeID := ID neighbor;
                                   depth := Storage.depth it + 1 |})
                   <$> filter (λ neighbor, ID neighbor ∉ visited') neighbors))
        visited' result'
      = Traverse_loop fuel startID limit direction (queue ++ newq) visited' result''
      ∧ Forall (λ it', Storage.depth it' = (Storage.depth it + 1)%Z
                       ∧ reach startID (Storage.depth it + 1) (nodeID it')
                       ∧ (Storage.depth it < limit)%Z) newq
      ∧ (expands startID (nodeID it) → (Storage.depth it < limit)%Z →
         ∀ y, callee_edge (nodeID it) y →
              y ∈ visited' ∨ ∃ it', it' ∈ newq ∧ nodeID it' = y)
      ∧ (∀ node, node ∈ result'' ↔
                 node ∈ result
                 ∨ (nodeID it ≠ startID ∧ getNode (nodeID it) = inl (Some node)))).
  { intros result' neighbors He Hlt Hn Hres. eexists _, result'.
    split_and!; [reflexivity| | |done].
    - apply Forall_fmap, Forall_forall. intros n [Hnv Hin]%list_elem_of_filter. simpl.
      split_and!; [done| |done].
      apply (reach_step _ _ _ _ _ (nodeID it)); [done|done|].
      apply (GetCallees_edges _ neighbors); [done|]. by exists n.
    - intros _ _ y (n & Hin & Hid)%(GetCallees_edges _ neighbors); [|done].
      destruct (decide (y ∈ visited')) as [Hy|Hy]; [by left|right].
      exists {| nodeID := ID n; depth := Storage.depth it + 1 |}. split; [|exact Hid].
      apply list_elem_of_fmap. exists n. split; [done|].
      apply list_elem_of_filter. split; [by rewrite Hid|done]. }
  destruct (decide (nodeID it ≠ startID)) as [Hs|Hs].
  - destruct (getNode (nodeID it)) as [[node|]|err] eqn:Hget.
    + assert (Hres : ∀ node', node' ∈ (result ++ [node])%list ↔
                node' ∈ result
                ∨ (nodeID it ≠ startID
                   ∧ (inl (Some node) : option GraphNode + db_error) = inl (Some node'))).
      { intros node'. rewrite elem_of_app, list_elem_of_singleton.
        split; [intros [? | ->]; [by left|by right]|intros [? | [_ [= ->] ] ]; [by left|by right]]. }
      destruct (Storage.depth it <? limit)%Z eqn:Hd.
      * apply Z.ltb_lt in Hd.
        destruct (GetCallees (nodeID it)) as [neighbors|err] eqn:Hn.
        -- apply Hexp; [right; eauto|done|done|done].
        -- apply Hnil; [|done]. intros _ _ y. by apply (GetCallees_error _ err).
      * apply Z.ltb_ge in Hd. apply Hnil; [|done]. intros _ ?. lia.
    + assert (Hres : ∀ node', node' ∈ result ↔
                node' ∈ result
                ∨ (nodeID it ≠ startID
                   ∧ (inl None : option GraphNode + db_error) = inl (Some node'))).
      { intros node'. split; [by left|by intros [?|[_ ?]]]. }
      destruct (Storage.depth it <? limit)%Z eqn:Hd.
      * apply Z.ltb_lt in Hd.
        destruct (GetCallees (nodeID it)) as [neighbors|err] eqn:Hn.
        -- apply Hexp; [right; eauto|done|done|done].
        -- apply Hnil; [|done]. intros _ _ y. by apply (GetCallees_error _ err).
      * apply Z.ltb_ge in Hd. apply Hnil; [|done]. intros _ ?. lia.
    + apply Hnil.
      * intros [?|[node Hnode]]; [done|congruence].
      * intros node'. split; [by left|by intros [?|[_ ?]]].
  - assert (Hres : ∀ node', node' ∈ result ↔
              node' ∈ result
              ∨ (nodeID it ≠ startID ∧ getNode (nodeID it) = inl (Some node'))).
    { intros node'. split; [by left|by intros [?|[? _]]]. }
    destruct (Storage.depth it <? limit)%Z eqn:Hd.
    + apply Z.ltb_lt in Hd.
      destruct (GetCallees (nodeID it)) as [neighbors|err] eqn:Hn.
      * apply Hexp; [left; by destruct (decide (nodeID it = startID))|done|done|done].
      * apply Hnil; [|done]. intros _ _ y. by apply (GetCallees_error _ err).
    + apply Z.ltb_ge in Hd. apply Hnil; [|done]. intros _ ?. lia.
Qed.

Lemma Traverse_loop_inv fuel startID limit direction seen queue visited result out :
  direction ≠ "callers" →
  traverse_inv startID limit seen queue visited result →
  Traverse_loop fuel startID limit direction queue visited result = Some out →
  ∃ seen' visited', traverse_inv startID limit seen' [] visited' out.
Proof.
  intros Hdir. revert seen queue visited result.
  induction fuel as [|fuel IH]; intros seen queue visited result Hinv Hloop; [done|].
  destruct queue as [|it queue].
  - injection Hloop as <-. eauto.
  - destruct (decide (nodeID it ∈ visited)) as [Hv|Hv].
    + simpl in Hloop. rewrite decide_True in Hloop by done.
      apply (IH seen queue visited result); [|done]. by apply (traverse_inv_skip _ _ _ it).
    + destruct (inv_queue _ _ _ _ _ _ _ _ _ Hinv it ltac:(apply list_elem_of_here))
        as [Hreach _].
      destruct (Traverse_loop_body fuel startID limit direction it queue visited result
                  Hdir Hv Hreach) as (newq & result' & Heq & Hnew & Hcover & Hres).
      rewrite Heq in Hloop.
      apply (IH _ _ _ _ (traverse_inv_step _ _ _ _ _ _ _ _ _ Hinv Hv Hnew Hcover Hres) Hloop).
Qed.

(** With an empty queue, the visited nodes are the nodes within reach. *)
Lemma traverse_inv_reach startID limit seen visited result d x :
  traverse_inv startID limit seen [] visited result →
  reach startID d x → (d ≤ limit)%Z → ∃ dx, seen !! x = Some dx ∧ (dx ≤ d)%Z.
Proof.
  intros [Hdom Hseen Hq _ Hc Hr Hs] Hreach.
  induction Hreach as [|d x y Hreach IH He Hedge]; intros Hle.
  - destruct Hs as [?|(it & Hin & _)]; [done|by apply elem_of_nil in Hin].
  - destruct IH as (dx & Hx & Hdx); [lia|].
    destruct (Hc x dx y Hx He ltac:(lia) Hedge) as [(dy & Hy & Hdy)|(it & Hin & _)];
      [|by apply elem_of_nil in Hin].
    exists dy. split; [done|lia].
Qed.

(** C10.  For every direction other than ["callers"], [Traverse] returns
    with a nil error, and what it returns it has found along outgoing
    [calls] edges: its nodes are exactly the nodes, other than the start
    node, that [getNode] reads and that are at most [depth], and at most
    10, outgoing [calls] edges away from the start node. *)
Theorem Traverse_expands_callees startID depth direction :
  direction ≠ "callers" →
  ∃ nodes, Traverse startID depth direction = Some (nodes, None)
    ∧ ∀ node, node ∈ nodes ↔
        ∃ key d, key ≠ startID ∧ reach startID d key ∧ (d ≤ Z.min depth 10)%Z
                 ∧ getNode key = inl (Some node).
Proof.
  intros Hdir.
  destruct (Traverse_returns startID depth direction) as [nodes Hnodes].
  exists nodes. split; [done|].
  unfold Storage.Traverse in Hnodes.
  set (limit := if (10 <? depth)%Z then 10%Z else depth) in Hnodes.
  assert (Hlimit : limit = Z.min depth 10).
  { unfold limit. destruct (10 <? depth)%Z eqn:Hd;
      [apply Z.ltb_lt in Hd|apply Z.ltb_ge in Hd]; lia. }
  destruct (Traverse_loop _ startID limit direction _ _ _) as [out|] eqn:Hloop; [|done].
  injection Hnodes as <-. rewrite <-Hlimit.
  assert (Hinit : traverse_inv startID limit ∅ [{| nodeID := startID; depth := 0 |}] ∅ []).
  { split.
    - by rewrite dom_empty_L.
    - intros x dx Hx. by rewrite lookup_empty in Hx.
    - intros it ->%list_elem_of_singleton. simpl. split; [constructor|done].
    - exists 0%Z. split; [|intros x dx Hx; by rewrite lookup_empty in Hx].
      exists [{| nodeID := startID; depth := 0 |}], []. split_and!; [done| |constructor].
      by repeat constructor.
    - intros x dx y Hx. by rewrite lookup_empty in Hx.
    - intros node. split; [by intros ?%elem_of_nil|]. intros (key & Hk & _). set_solver.
    - right. eexists. split; [apply list_elem_of_here|done]. }
  destruct (Traverse_loop_inv _ _ _ _ _ _ _ _ _ Hdir Hinit Hloop) as (seen & visited & Hinv).
  intros node. rewrite (inv_result _ _ _ _ _ _ _ _ _ Hinv). split.
  - intros (key & Hk & Hks & Hget).
    assert (∃ dk, seen !! key = Some dk) as [dk Hdk].
    { apply elem_of_dom. by rewrite (inv_dom _ _ _ _ _ _ _ _ _ Hinv). }
    destruct (inv_seen _ _ _ _ _ _ _ _ _ Hinv key dk Hdk) as [Hreach Hle].
    exists key, dk. split_and!; [done|done|by apply Hle|done].
  - intros (key & d & Hks & Hreach & Hle & Hget).
    destruct (traverse_inv_reach _ _ _ _ _ _ _ Hinv Hreach Hle) as (dk & Hdk & _).
    exists key. split_and!; [|done|done].
    rewrite <-(inv_dom _ _ _ _ _ _ _ _ _ Hinv). apply elem_of_dom. eauto.
Qed.

End Facts.

(** In [db_calls], from [a] and for a direction that is no direction, the
    traversal finds the callee [b] and not the caller [c]. *)
Lemma Traverse_sideways :
  Storage.Traverse decode_node decode_rel db_calls "function:x.go:a" 3 "sideways"
  = Some ([symbol NodeFunction "x.go" "b" "" false false], None)
  ∧ Storage.Traverse decode_node decode_rel db_calls "function:x.go:a" 3 "callers"
    = Some ([symbol NodeFunction "x.go" "c" "" false false], None).
Proof. split; vm_compute; reflexivity. Qed.

Lemma Traverse_expands_callees_witness :
  ∃ nodes,
    Storage.Traverse decode_node decode_rel db_calls "function:x.go:a" 3 "sideways"
    = Some (nodes, None)
    ∧ ∀ node, node ∈ nodes ↔
        ∃ key d, key ≠ "function:x.go:a"
                 ∧ reach decode_node decode_rel db_calls "function:x.go:a" d key
                 ∧ (d ≤ Z.min 3 10)%Z
                 ∧ Storage.getNode decode_node db_calls key = inl (Some node).
Proof.
  apply (Traverse_expands_callees decode_node decode_rel db_calls
           "function:x.go:a" 3 "sideways").
  discriminate.
Defined.

End StorageFacts.

(** ** The order in which [RunPipeline] runs the phases *)
Module PipelineFacts.
Import Pipeline Examples.

Section Monad.
Context {Graph Store : Type}.
Implicit Types w : world Graph Store.

Lemma runs_ret {A} (x : A) (P : A → Prop) : P x → runs (Graph := Graph) (Store := Store) (mret x) P [].
Proof.
  intros HP w Hs. exists x, w. by rewrite app_nil_r.
Qed.

Lemma runs_bind {A B} (c : M Graph Store A) (k : A → M Graph Store B) P Q es1 es2 :
  runs c P es1 → (∀ x, P x → runs (k x) Q es2) → runs (c ≫= k) Q (es1 ++ es2)%list.
Proof.
  intros Hc Hk w Hs. destruct (Hc w Hs) as (x & w1 & Hcw & HP & Hs1 & Ht1).
  destruct (Hk x HP w1 Hs1) as (y & w2 & Hkw & HQ & Hs2 & Ht2).
  exists y, w2. unfold mbind, M_bind. rewrite Hcw. split_and!; try done.
  by rewrite Ht2, Ht1, app_assoc.
Qed.

Lemma runs_emit (e : event) :
  runs (Graph := Graph) (Store := Store) (emit Graph Store e) (λ _, True)
    (if is_phase_call e then [e] else []).
Proof.
  intros w Hs. eexists tt, _. split; [done|]. split; [done|]. split; [done|]. simpl.
  unfold phase_calls. rewrite filter_app, filter_cons, filter_nil.
  by destruct (is_phase_call e) eqn:E; case_decide.
Qed.

Lemma runs_report progress name finished :
  runs (Graph := Graph) (Store := Store) (report Graph Store progress name finished)
    (λ _, True) [].
Proof.
  destruct progress; simpl; [apply (runs_emit (Progress name finished))|by apply runs_ret].
Qed.

Lemma runs_get {A} (f : world Graph Store → A) (P : A → Prop) :
  (∀ w, is_Some (store w) → P (f w)) → runs (get Graph Store f) P [].
Proof.
  intros HP w Hs. exists (f w), w. rewrite app_nil_r. split_and!; auto.
Qed.

Lemma runs_call {A} p (f : Graph → A * Graph) :
  runs (call Graph Store p f) (λ _, True) [Enter p; Return p].
Proof.
  unfold call.
  change [Enter p; Return p] with ([Enter p] ++ ([] ++ ([Return p] ++ [])))%list.
  eapply runs_bind; [apply (runs_emit (Enter p))|]. intros _ _.
  eapply (runs_bind _ _ (λ _, True)).
  { intros w Hs. destruct (f (graph w)) as [x g] eqn:E.
    eexists x, _. split; [done|]. rewrite app_nil_r. by split_and!. }
  intros x _. eapply runs_bind; [apply (runs_emit (Return p))|]. intros _ _.
  by apply runs_ret.
Qed.

Lemma runs_eq {A} (c : M Graph Store A) P es es' : es = es' → runs c P es → runs c P es'.
Proof. by intros ->. Qed.

End Monad.

Section Facts.
Variables FileEntry ParseData Graph Store Err : Type.
Variable WalkRepo : string → list FileEntry + Err.
Variable NewKnowledgeGraph : Graph.
Variable ProcessStructure : list FileEntry → Graph → Graph.
Variable ProcessParsing : list FileEntry → Graph → ParseData * Graph.
Variable ProcessImports ProcessCalls ProcessHeritage ProcessTypes : ParseData → Graph → Graph.
Variable ProcessProcesses DetectCommunities ProcessDeadCode : Graph → Z * Graph.
Variable ProcessCoupling : Graph → string → Z * Graph.
Variable GenerateAndStoreEmbeddings : Graph → Store → option Err * Store.
Variable StoreBulkLoad : Graph → Store → option Err * Store.
Variable countSymbols RelationshipCount : Graph → Z.
Variable no_nodes : Graph → bool.

Abbreviation RunPipeline :=
  (RunPipeline FileEntry ParseData Graph Store Err WalkRepo NewKnowledgeGraph
     ProcessStructure ProcessParsing ProcessImports ProcessCalls ProcessHeritage
     ProcessTypes ProcessProcesses DetectCommunities ProcessDeadCode ProcessCoupling
     GenerateAndStoreEmbeddings StoreBulkLoad countSymbols RelationshipCount no_nodes).
Abbreviation phases :=
  (phases FileEntry ParseData Graph Store Err
     ProcessStructure ProcessParsing ProcessImports ProcessCalls ProcessHeritage
     ProcessTypes ProcessProcesses DetectCommunities ProcessDeadCode ProcessCoupling
     GenerateAndStoreEmbeddings StoreBulkLoad countSymbols RelationshipCount no_nodes).

Lemma runs_embed :
  runs (embed Graph Store Err GenerateAndStoreEmbeddings no_nodes) (λ _, True) [].
Proof.
  intros w [s Hs]. unfold embed. rewrite Hs.
  destruct (GenerateAndStoreEmbeddings (graph w) s) as [err s'].
  eexists tt, _. split; [done|]. rewrite app_nil_r. by split_and!.
Qed.

(** One step of a run: a bind, then whatever the first computation is. *)
Ltac step :=
  first [ apply runs_report | apply runs_call | apply runs_embed
        | apply (runs_emit (Enter _)) | apply (runs_emit (Return _))
        | apply (runs_emit (Progress _ _)) | apply (runs_emit BulkLoad)
        | by apply runs_ret ].

Ltac steps :=
  repeat first [ step | eapply runs_bind; [step|intros ? ?] ].

Lemma runs_phases repoPath entries progress embeddings :
  runs (phases repoPath entries progress embeddings) (λ _, True)
    (skipn 2 (expected_calls embeddings)).
Proof.
  unfold Pipeline.phases.
  eapply runs_eq; cycle 1.
  - steps.
    eapply (runs_bind _ _ (λ _, True) _
              (if embeddings then [Enter Embeddings; Return Embeddings] else [])).
    { destruct embeddings; [|by apply runs_ret].
      eapply runs_eq; cycle 1; [steps|reflexivity]. }
    intros ? ?. steps.
    eapply (runs_bind _ _ (λ _, True)); [by apply runs_get|intros ? ?].
    eapply (runs_bind _ _ (λ _, True)); [by apply runs_get|intros ? ?].
    eapply (runs_bind _ _ is_Some); [by apply runs_get|intros backend [s ->]].
    steps.
    eapply (runs_bind _ _ (λ _, True)).
    { intros w Hs. destruct (StoreBulkLoad (graph w) s) as [err s'].
      eexists err, _. split; [done|]. rewrite app_nil_r. by split_and!. }
    intros [err|] _; [by apply runs_ret|].
    eapply runs_eq; cycle 1; [steps|reflexivity].
  - by destruct embeddings.
Qed.

(** A run with a store, once the walk has succeeded. *)
Lemma RunPipeline_calls repoPath entries (s : Store) progress embeddings :
  WalkRepo repoPath = inl entries →
  ∃ r w, RunPipeline repoPath (Some s) progress embeddings = Some (r, w)
         ∧ phase_calls (trace w) = expected_calls embeddings.
Proof.
  intros Hwalk. unfold Pipeline.RunPipeline. rewrite Hwalk.
  assert (Hruns : runs (Graph := Graph) (Store := Store)
            (report Graph Store progress "Walking files" false ;;
             emit Graph Store (Enter Walk) ;;
             emit Graph Store (Return Walk) ;;
             phases repoPath entries progress embeddings)
            (λ _, True) (expected_calls embeddings)).
  { eapply runs_eq; cycle 1.
    - eapply runs_bind; [apply runs_report|intros ? ?].
      eapply runs_bind; [apply (runs_emit (Enter Walk))|intros ? ?].
      eapply runs_bind; [apply (runs_emit (Return Walk))|intros ? ?].
      apply runs_phases.
    - by destruct embeddings. }
  destruct (Hruns {| graph := NewKnowledgeGraph; store := Some s; trace := [] |})
    as (r & w & Hrun & _ & _ & Ht); [by eexists|].
  exists r, w. split; [exact Hrun|]. by rewrite Ht.
Qed.

(** Where an event sits in the calls of a full run. *)
Lemma expected_calls_lookup i e :
  expected_calls true !! i = Some e →
  is_phase_call e = true
  ∧ (e = Return Communities → i = 17%nat) ∧ (e = Enter Processes → i = 14%nat)
  ∧ (e = Return DeadCode → i = 21%nat) ∧ (e = Enter Coupling → i = 18%nat).
Proof.
  intros Hi.
  do 24 (destruct i as [|i];
         [injection Hi as <-; by split_and!|simpl in Hi]).
  by destruct i.
Qed.

(** C1 against the code.  In a run with a store and with embeddings, once
    the walk has succeeded, the phase functions are entered in the order
    1 to 7, 9, 8, 11, 10, 12, each returning before the next is entered:
    flow detection (9) has returned before community detection (8) is
    entered, and coupling analysis (11) before dead-code detection (10),
    and not the other way round. *)
Theorem RunPipeline_phase_order repoPath entries (s : Store) progress :
  WalkRepo repoPath = inl entries →
  ∃ r w, RunPipeline repoPath (Some s) progress true = Some (r, w)
    ∧ number <$> entered (phase_calls (trace w))
      = [1; 2; 3; 4; 5; 6; 7; 9; 8; 11; 10; 12]%nat
    ∧ before (phase_calls (trace w)) Processes Communities
    ∧ ¬ before (phase_calls (trace w)) Communities Processes
    ∧ before (phase_calls (trace w)) Coupling DeadCode
    ∧ ¬ before (phase_calls (trace w)) DeadCode Coupling.
Proof.
  intros Hwalk.
  destruct (RunPipeline_calls repoPath entries s progress true Hwalk)
    as (r & w & Hrun & Ht).
  exists r, w. rewrite Ht. split_and!; [done|reflexivity|..].
  - exists 15%nat, 16%nat. split_and!; [reflexivity|reflexivity|lia].
  - intros (i & j & Hi & Hj & Hij).
    apply expected_calls_lookup in Hi as (_ & Hi & _).
    apply expected_calls_lookup in Hj as (_ & _ & Hj & _).
    specialize (Hi eq_refl). specialize (Hj eq_refl). lia.
  - exists 19%nat, 20%nat. split_and!; [reflexivity|reflexivity|lia].
  - intros (i & j & Hi & Hj & Hij).
    apply expected_calls_lookup in Hi as (_ & _ & _ & Hi & _).
    apply expected_calls_lookup in Hj as (_ & _ & _ & _ & Hj).
    specialize (Hi eq_refl). specialize (Hj eq_refl). lia.
Qed.

End Facts.

Lemma RunPipeline_phase_order_witness :
  ∃ r w, unit_pipeline "/repo" false true = Some (r, w)
    ∧ number <$> entered (phase_calls (trace w))
      = [1; 2; 3; 4; 5; 6; 7; 9; 8; 11; 10; 12]%nat
    ∧ before (phase_calls (trace w)) Processes Communities
    ∧ ¬ before (phase_calls (trace w)) Communities Processes
    ∧ before (phase_calls (trace w)) Coupling DeadCode
    ∧ ¬ before (phase_calls (trace w)) DeadCode Coupling.
Proof.
  apply (RunPipeline_phase_order unit unit unit unit unit (λ _, inl []) tt
           (λ _ g, g) (λ _ g, (tt, g)) (λ _ g, g) (λ _ g, g) (λ _ g, g) (λ _ g, g)
           (λ g, (0%Z, g)) (λ g, (0%Z, g)) (λ g, (0%Z, g)) (λ g _, (0%Z, g))
           (λ _ s, (None, s)) (λ _ s, (None, s)) (λ _, 0%Z) (λ _, 0%Z) (λ _, true)
           "/repo" [] tt false).
  reflexivity.
Defined.

End PipelineFacts.

(** ** The graph: what the queries return *)
Module GraphQueries.
Import Graph Examples GraphFacts.

Section Facts.
Context `{MapRange}.

Lemma elem_of_range_keys_set (ids : gset string) id : id ∈ range_keys ids ↔ id ∈ ids.
Proof.
  unfold range_keys. rewrite (range_order_perm _ (elements ids)).
  apply elem_of_elements.
Qed.

Lemma NoDup_range_keys (ids : gset string) : NoDup (range_keys ids).
Proof.
  unfold range_keys. rewrite (range_order_perm _ (elements ids)).
  apply NoDup_elements.
Qed.

Lemma length_range_keys (ids : gset string) : length (range_keys ids) = size ids.
Proof.
  unfold range_keys. by rewrite (range_order_perm _ (elements ids)).
Qed.

Lemma length_range {A} (m : gmap string A) : length (range m) = size m.
Proof.
  unfold range. rewrite (range_order_perm _ (map_to_list m)).
  apply length_map_to_list.
Qed.

(** The relationships found under [v] in an adjacency index. *)
Lemma elem_of_adjacent (idx : gmap string (gmap string GraphRelationship)) v rel :
  rel ∈ match idx !! v with Some rels => (range rels).*2 | None => [] end
  ↔ ∃ id, idx_lookup idx v id = Some rel.
Proof.
  unfold idx_lookup. destruct (idx !! v) as [rels|]; simpl.
  - apply elem_of_range_values.
  - split; [by intros ?%elem_of_nil|by intros [? ?]].
Qed.

(** In an index whose entries sit under their own ID, no relationship is
    listed twice. *)
Lemma NoDup_adjacent (rels : gmap string GraphRelationship) :
  (∀ id r, rels !! id = Some r → rID r = id) →
  NoDup (rID <$> (range rels).*2).
Proof.
  intros Hid.
  assert (Heq : rID <$> (range rels).*2 = (range rels).*1).
  { rewrite <-list_fmap_compose. apply Forall_fmap_ext, Forall_forall.
    intros [id r] Hin. apply elem_of_range in Hin. simpl. by apply Hid. }
  rewrite Heq. apply NoDup_fst_range.
Qed.

Lemma NoDup_fmap_filter {A B} (f : A → B) (P : A → Prop) `{∀ x, Decision (P x)} l :
  NoDup (f <$> l) → NoDup (f <$> filter P l).
Proof.
  induction l as [|x l IH]; [done|].
  rewrite fmap_cons, NoDup_cons. intros [Hx Hl].
  rewrite filter_cons. case_decide; [|by apply IH].
  rewrite fmap_cons, NoDup_cons. split; [|by apply IH].
  intros [y [Hy Hin]]%list_elem_of_fmap. apply Hx. apply list_elem_of_fmap.
  exists y. split; [done|]. by apply list_elem_of_filter in Hin as [_ ?].
Qed.

(** *** The label index *)
Lemma node_wf_New : node_wf NewKnowledgeGraph.
Proof. split; simpl; intros *; rewrite lookup_empty; done. Qed.

Lemma node_wf_same_nodes g g' :
  nodes g' = nodes g → byLabel g' = byLabel g → node_wf g → node_wf g'.
Proof. intros Hn Hl [W1 W2]. split; rewrite ?Hn, ?Hl; assumption. Qed.

Lemma node_wf_AddRelationship rel g : node_wf g → node_wf (AddRelationship rel g).
Proof.
  apply node_wf_same_nodes; unfold AddRelationship;
    by destruct (relationships g !! rID rel).
Qed.

Lemma node_wf_AddNode node g : node_wf g → node_wf (AddNode node g).
Proof.
  intros [W1 W2]. unfold AddNode.
  set (bl := match nodes g !! ID node with
             | Some old => if decide (Label old ≠ Label node)
                           then alter (λ s, s ∖ {[ID node]}) (Label old) (byLabel g)
                           else byLabel g
             | None => byLabel g
             end).
  (* what the label index holds before the new node is filed *)
  assert (Hbl : ∀ l ids id, bl !! l = Some ids → id ∈ ids →
            (∃ n, nodes g !! id = Some n ∧ Label n = l)
            ∧ (id = ID node → l = Label node)).
  { intros l ids id Hl Hin. subst bl.
    destruct (nodes g !! ID node) as [old|] eqn:Hold.
    - destruct (decide (Label old ≠ Label node)) as [Hne|Heq%dec_stable].
      + rewrite lookup_alter in Hl. case_decide as Hk.
        * subst l. destruct (byLabel g !! Label old) as [s|] eqn:Hs; [|done].
          injection Hl as <-. apply elem_of_difference in Hin as [Hin Hnot].
          split; [by eapply W2|]. intros ->. set_solver.
        * split; [by eapply W2|]. intros ->.
          destruct (W2 _ _ _ Hl Hin) as (n & Hn & <-). congruence.
      + split; [by eapply W2|]. intros ->.
        destruct (W2 _ _ _ Hl Hin) as (n & Hn & <-). congruence.
    - split; [by eapply W2|]. intros ->.
      destruct (W2 _ _ _ Hl Hin) as (n & Hn & _). congruence. }
  assert (Hkeep : ∀ id n, nodes g !! id = Some n → id ≠ ID node →
            ∃ ids, bl !! Label n = Some ids ∧ id ∈ ids).
  { intros id n Hn Hne. destruct (W1 _ _ Hn) as (_ & ids & Hids & Hin). subst bl.
    destruct (nodes g !! ID node) as [old|]; [|eauto].
    destruct (decide (Label old ≠ Label node)); [|eauto].
    rewrite lookup_alter. case_decide as Hk; [|eauto].
    rewrite Hk, Hids. simpl. eexists. split; [done|]. set_solver. }
  split; simpl.
  - intros id n. rewrite lookup_insert. case_decide as Hk.
    + intros [= <-]. split; [done|]. rewrite lookup_insert_eq.
      eexists. split; [done|]. set_solver.
    + intros Hn. destruct (W1 _ _ Hn) as [Hid _]. split; [done|].
      destruct (Hkeep _ _ Hn) as (ids & Hids & Hin); [congruence|].
      rewrite lookup_insert. case_decide as Hl; [|eauto].
      rewrite Hl, Hids. simpl. eexists. split; [done|]. set_solver.
  - intros l ids id. rewrite lookup_insert. case_decide as Hl.
    + intros [= <-]. subst l. rewrite elem_of_union, elem_of_singleton.
      intros [->|Hin].
      * exists node. by rewrite lookup_insert_eq.
      * destruct (bl !! Label node) as [s|] eqn:Hs; simpl in Hin; [|set_solver].
        destruct (Hbl _ _ _ Hs Hin) as [(n & Hn & Hlab) _].
        rewrite lookup_insert. case_decide as Hk; [by exists node|eauto].
    + intros Hids Hin. destruct (Hbl _ _ _ Hids Hin) as [(n & Hn & Hlab) Hnew].
      rewrite lookup_insert. case_decide as Hk; [|eauto].
      exfalso. apply Hl. symmetry. by apply Hnew.
Qed.

Lemma node_wf_unlink_node id n g :
  node_wf g → nodes g !! id = Some n → node_wf (unlink_node id n g).
Proof.
  intros [W1 W2] Hn. split; simpl.
  - intros id' n'. rewrite lookup_delete. case_decide as Hk; [done|].
    intros Hn'. destruct (W1 _ _ Hn') as (Hid & ids & Hids & Hin). split; [done|].
    rewrite lookup_alter. case_decide as Hl; [|eauto].
    rewrite Hl, Hids. simpl. eexists. split; [done|]. set_solver.
  - intros l ids id'. rewrite lookup_alter. case_decide as Hl.
    + subst l. destruct (byLabel g !! Label n) as [s|] eqn:Hs; [|done].
      intros [= <-] [Hin Hne]%elem_of_difference.
      destruct (W2 _ _ _ Hs Hin) as (n' & Hn' & Hlab).
      exists n'. split; [|done]. rewrite lookup_delete. case_decide; [set_solver|done].
    + intros Hids Hin. destruct (W2 _ _ _ Hids Hin) as (n' & Hn' & Hlab).
      exists n'. split; [|done]. rewrite lookup_delete. case_decide as Hk; [|done].
      subst id'. congruence.
Qed.

(** The cascade touches neither the nodes nor the label index. *)
Lemma cascade_nodes v g :
  nodes (cascadeRelationshipsForNode v g) = nodes g
  ∧ byLabel (cascadeRelationshipsForNode v g) = byLabel g.
Proof.
  unfold cascadeRelationshipsForNode, cascade_incoming, cascade_outgoing.
  set (g1 := match outgoing g !! v with
             | Some outRels => drop_outgoing v (foldl cascade_out_step g (range outRels).*2)
             | None => g
             end).
  assert (H1 : nodes g1 = nodes g ∧ byLabel g1 = byLabel g).
  { subst g1. destruct (outgoing g !! v) as [outRels|]; [|done]. simpl.
    by destruct (cascade_out_fold (range outRels).*2 g) as (-> & -> & _). }
  destruct H1 as [<- <-].
  destruct (incoming g1 !! v) as [inRels|]; [|done]. simpl.
  by destruct (cascade_in_fold (range inRels).*2 g1) as (-> & -> & _).
Qed.

Lemma node_wf_cascade v g : node_wf g → node_wf (cascadeRelationshipsForNode v g).
Proof. by destruct (cascade_nodes v g); apply node_wf_same_nodes. Qed.

Lemma node_wf_RemoveNode v g : node_wf g → node_wf (RemoveNode v g).1.
Proof.
  intros Hwf. unfold RemoveNode. destruct (nodes g !! v) as [n|] eqn:Hn; simpl; [|done].
  by apply node_wf_cascade, node_wf_unlink_node.
Qed.

Lemma node_wf_unlink_all ids g :
  node_wf g →
  node_wf (foldl (λ g id, match nodes g !! id with
                          | Some node => unlink_node id node g
                          | None => g end) g ids).
Proof.
  revert g. induction ids as [|i ids IH]; intros g Hwf; simpl; [done|].
  apply IH. destruct (nodes g !! i) eqn:Hi; [by apply node_wf_unlink_node|done].
Qed.

Lemma node_wf_cascade_all ids g :
  node_wf g → node_wf (foldl (λ g id, cascadeRelationshipsForNode id g) g ids).
Proof.
  revert g. induction ids as [|i ids IH]; intros g Hwf; simpl; [done|].
  apply IH. by apply node_wf_cascade.
Qed.

Lemma node_wf_RemoveNodesByFile p g : node_wf g → node_wf (RemoveNodesByFile p g).1.
Proof.
  intros Hwf. unfold RemoveNodesByFile.
  destruct ((filter _ _).*1) as [|i ids]; [done|]. cbn [fst].
  by apply node_wf_cascade_all, node_wf_unlink_all.
Qed.

Lemma reachable_node_wf g : reachable g → node_wf g.
Proof.
  induction 1; auto using node_wf_New, node_wf_AddNode, node_wf_AddRelationship,
    node_wf_RemoveNode, node_wf_RemoveNodesByFile.
Qed.

(** *** The adjacency and type indexes *)

(** An index that files each relationship under [proj] of it lists, under
    [v], the relationships whose [proj] is [v], each once. *)
Lemma adjacency_spec (idx : gmap string (gmap string GraphRelationship))
    (proj : GraphRelationship → string) g v :
  (∀ k id r, idx_lookup idx k id = Some r → relationships g !! id = Some r ∧ proj r = k) →
  (∀ id r, relationships g !! id = Some r →
     rID r = id ∧ idx_lookup idx (proj r) id = Some r) →
  let L := match idx !! v with Some rels => (range rels).*2 | None => [] end in
  (∀ rel, rel ∈ L ↔ relationships g !! rID rel = Some rel ∧ proj rel = v)
  ∧ NoDup (rID <$> L).
Proof.
  intros Hidx Hprim L. split.
  - intros rel. subst L. rewrite elem_of_adjacent. split.
    + intros [id Hid]. destruct (Hidx _ _ _ Hid) as [Hrel Hp].
      destruct (Hprim _ _ Hrel) as [<- _]. done.
    + intros [Hrel Hp]. destruct (Hprim _ _ Hrel) as [_ Hid]. rewrite Hp in Hid. eauto.
  - subst L. destruct (idx !! v) as [rels|] eqn:Hv; [|constructor].
    apply NoDup_adjacent. intros id r Hr.
    assert (Hid : idx_lookup idx v id = Some r) by (apply idx_lookup_Some; eauto).
    destruct (Hidx _ _ _ Hid) as [Hrel _]. by destruct (Hprim _ _ Hrel).
Qed.

Lemma outgoing_spec g v :
  rel_wf g →
  let L := match outgoing g !! v with Some rels => (range rels).*2 | None => [] end in
  (∀ rel, rel ∈ L ↔ relationships g !! rID rel = Some rel ∧ Source rel = v)
  ∧ NoDup (rID <$> L).
Proof.
  intros [W1 W2 W3 W4]. apply adjacency_spec; [exact W2|].
  intros id r Hr. destruct (W1 _ _ Hr) as (? & ? & ? & ?). done.
Qed.

Lemma incoming_spec g v :
  rel_wf g →
  let L := match incoming g !! v with Some rels => (range rels).*2 | None => [] end in
  (∀ rel, rel ∈ L ↔ relationships g !! rID rel = Some rel ∧ Target rel = v)
  ∧ NoDup (rID <$> L).
Proof.
  intros [W1 W2 W3 W4]. apply adjacency_spec; [exact W3|].
  intros id r Hr. destruct (W1 _ _ Hr) as (? & ? & ? & ?). done.
Qed.

Lemma GetOutgoing_eq v ty g :
  GetOutgoing v ty g =
  let L := match outgoing g !! v with Some rels => (range rels).*2 | None => [] end in
  if decide (ty ≠ "") then filter (λ rel, rType rel = ty) L else L.
Proof. unfold GetOutgoing. destruct (outgoing g !! v); by case_decide. Qed.

Lemma GetIncoming_eq v ty g :
  GetIncoming v ty g =
  let L := match incoming g !! v with Some rels => (range rels).*2 | None => [] end in
  if decide (ty ≠ "") then filter (λ rel, rType rel = ty) L else L.
Proof. unfold GetIncoming. destruct (incoming g !! v); by case_decide. Qed.

(** X1.  [GetOutgoing] returns exactly the relationships of the graph whose
    source is [v], of the given type when one is given, each once. *)
Theorem GetOutgoing_exact g v ty :
  reachable g →
  (∀ rel, rel ∈ GetOutgoing v ty g
     ↔ relationships g !! rID rel = Some rel ∧ Source rel = v
       ∧ (ty = "" ∨ rType rel = ty))
  ∧ NoDup (rID <$> GetOutgoing v ty g).
Proof.
  intros Hwf%reachable_rel_wf. rewrite GetOutgoing_eq.
  destruct (outgoing_spec g v Hwf) as [Hin Hnd]. cbv zeta.
  destruct (decide (ty ≠ "")) as [Hty|Hty%dec_stable]; split.
  - intros rel. rewrite list_elem_of_filter, Hin. naive_solver.
  - by apply NoDup_fmap_filter.
  - intros rel. rewrite Hin. naive_solver.
  - done.
Qed.

(** [GetIncoming], likewise, for the relationships whose target is [v]. *)
Theorem GetIncoming_exact g v ty :
  reachable g →
  (∀ rel, rel ∈ GetIncoming v ty g
     ↔ relationships g !! rID rel = Some rel ∧ Target rel = v
       ∧ (ty = "" ∨ rType rel = ty))
  ∧ NoDup (rID <$> GetIncoming v ty g).
Proof.
  intros Hwf%reachable_rel_wf. rewrite GetIncoming_eq.
  destruct (incoming_spec g v Hwf) as [Hin Hnd]. cbv zeta.
  destruct (decide (ty ≠ "")) as [Hty|Hty%dec_stable]; split.
  - intros rel. rewrite list_elem_of_filter, Hin. naive_solver.
  - by apply NoDup_fmap_filter.
  - intros rel. rewrite Hin. naive_solver.
  - done.
Qed.

(** [GetRelationshipsByType] returns exactly the relationships of the
    given type, each once. *)
Theorem GetRelationshipsByType_exact g ty :
  reachable g →
  (∀ rel, rel ∈ GetRelationshipsByType ty g
     ↔ relationships g !! rID rel = Some rel ∧ rType rel = ty)
  ∧ NoDup (rID <$> GetRelationshipsByType ty g).
Proof.
  intros [W1 W2 W3 W4]%reachable_rel_wf.
  apply (adjacency_spec (byRelType g) rType g ty); [exact W4|].
  intros id r Hr. destruct (W1 _ _ Hr) as (? & ? & ? & ?). done.
Qed.

(** X2.  [HasIncoming] answers whether the graph holds a relationship of the
    given type whose target is [v]. *)
Theorem HasIncoming_exact g v ty :
  reachable g →
  HasIncoming v ty g = true
  ↔ ∃ rel, relationships g !! rID rel = Some rel ∧ Target rel = v ∧ rType rel = ty.
Proof.
  intros Hwf%reachable_rel_wf. destruct (incoming_spec g v Hwf) as [Hin _].
  cbv zeta in Hin. unfold HasIncoming.
  destruct (incoming g !! v) as [rels|].
  - rewrite existsb_exists. split.
    + intros [rel [Hrel%list_elem_of_In Hty%bool_decide_eq_true_1]].
      apply Hin in Hrel. naive_solver.
    + intros (rel & Hrel & Ht & Hty). exists rel. split.
      * apply list_elem_of_In, Hin. done.
      * by apply bool_decide_eq_true_2.
  - split; [done|]. intros (rel & Hrel & Ht & Hty).
    assert (Hnil : rel ∈ @nil GraphRelationship) by (by apply Hin).
    by apply elem_of_nil in Hnil.
Qed.

(** X3.  [GetCallees] returns the nodes of the graph that [v] has a [calls]
    relationship to; a call whose target is not a node yields nothing. *)
Theorem GetCallees_exact g v n :
  reachable g →
  n ∈ Graph.GetCallees v g
  ↔ ∃ rel, relationships g !! rID rel = Some rel ∧ Source rel = v
           ∧ rType rel = RelCalls ∧ nodes g !! Target rel = Some n.
Proof.
  intros Hwf%reachable_rel_wf. destruct (outgoing_spec g v Hwf) as [Hin _].
  cbv zeta in Hin. unfold Graph.GetCallees.
  destruct (outgoing g !! v) as [rels|].
  - rewrite list_elem_of_omap. split.
    + intros (rel & Hrel & Hn). apply Hin in Hrel as [Hrel Hs].
      case_decide; [|done]. eauto 6.
    + intros (rel & Hrel & Hs & Hty & Hn). exists rel. split; [by apply Hin|].
      by rewrite decide_True.
  - split; [by intros ?%elem_of_nil|]. intros (rel & Hrel & Hs & _).
    assert (Hnil : rel ∈ @nil GraphRelationship) by (by apply Hin).
    by apply elem_of_nil in Hnil.
Qed.

(** *** The label index, read *)
Lemma omap_lookup_IDs (m : gmap string GraphNode) (ids : list string) :
  (∀ id, id ∈ ids → ∃ n, m !! id = Some n ∧ ID n = id) →
  ID <$> omap (λ id, m !! id) ids = ids.
Proof.
  induction ids as [|i ids IH]; intros Hall; [done|]. csimpl.
  destruct (Hall i) as (n & -> & Hid); [apply list_elem_of_here|].
  csimpl. rewrite Hid, IH; [done|]. intros id Hin. apply Hall. by apply list_elem_of_further.
Qed.

(** X4.  [GetNodesByLabel] returns exactly the nodes of the graph that carry
    the label, each once, and [CountNodesByLabel] is their number. *)
Theorem GetNodesByLabel_exact g label :
  reachable g →
  (∀ n, n ∈ GetNodesByLabel label g ↔ nodes g !! ID n = Some n ∧ Label n = label)
  ∧ NoDup (ID <$> GetNodesByLabel label g)
  ∧ CountNodesByLabel label g = Z.of_nat (length (GetNodesByLabel label g)).
Proof.
  intros [W1 W2]%reachable_node_wf. unfold GetNodesByLabel, CountNodesByLabel.
  destruct (byLabel g !! label) as [ids|] eqn:Hids.
  - assert (Hall : ∀ id, id ∈ range_keys ids → ∃ n, nodes g !! id = Some n ∧ ID n = id).
    { intros id Hin%elem_of_range_keys_set.
      destruct (W2 _ _ _ Hids Hin) as (n & Hn & _). exists n. split; [done|].
      by destruct (W1 _ _ Hn). }
    split_and!.
    + intros n. rewrite list_elem_of_omap. split.
      * intros (id & Hin%elem_of_range_keys_set & Hn).
        destruct (W2 _ _ _ Hids Hin) as (n' & Hn' & Hlab).
        destruct (W1 _ _ Hn) as [-> _]. split; [done|]. congruence.
      * intros [Hn Hlab]. exists (ID n). split; [|done].
        apply elem_of_range_keys_set.
        destruct (W1 _ _ Hn) as (_ & ids' & Hids' & Hin). congruence.
    + rewrite omap_lookup_IDs by done. apply NoDup_range_keys.
    + rewrite <-(length_fmap ID), omap_lookup_IDs by done. by rewrite length_range_keys.
  - split_and!; [|constructor|done].
    intros n. split; [by intros ?%elem_of_nil|]. intros [Hn Hlab].
    destruct (W1 _ _ Hn) as (_ & ids' & Hids' & _). congruence.
Qed.

(** *** What a removal takes away *)
Lemma cascade_outgoing_relationships v g id r :
  rel_wf g →
  relationships (cascade_outgoing v g) !! id = Some r
  ↔ relationships g !! id = Some r ∧ Source r ≠ v.
Proof.
  intros Hwf. destruct (outgoing_spec g v Hwf) as [Hin _]. cbv zeta in Hin.
  destruct Hwf as [W1 _ _ _]. unfold cascade_outgoing.
  destruct (outgoing g !! v) as [outRels|].
  - destruct (cascade_out_fold (range outRels).*2 g) as (_ & _ & _ & Hr & _).
    simpl. rewrite Hr. split.
    + intros [Hrel Hall]. split; [done|]. intros Hs.
      destruct (W1 _ _ Hrel) as [Hid _]. apply (Hall r); [|done].
      apply Hin. by rewrite Hid.
    + intros [Hrel Hs]. split; [done|]. intros rel [Hrel' Hs']%Hin Hid.
      rewrite Hid in Hrel'. congruence.
  - split; [|by intros []]. intros Hrel. split; [done|]. intros Hs.
    destruct (W1 _ _ Hrel) as [Hid _].
    assert (Hnil : r ∈ @nil GraphRelationship) by (apply Hin; by rewrite Hid).
    by apply elem_of_nil in Hnil.
Qed.

Lemma cascade_incoming_relationships v g id r :
  rel_wf g →
  relationships (cascade_incoming v g) !! id = Some r
  ↔ relationships g !! id = Some r ∧ Target r ≠ v.
Proof.
  intros Hwf. destruct (incoming_spec g v Hwf) as [Hin _]. cbv zeta in Hin.
  destruct Hwf as [W1 _ _ _]. unfold cascade_incoming.
  destruct (incoming g !! v) as [inRels|].
  - destruct (cascade_in_fold (range inRels).*2 g) as (_ & _ & _ & Hr & _).
    simpl. rewrite Hr. split.
    + intros [Hrel Hall]. split; [done|]. intros Hs.
      destruct (W1 _ _ Hrel) as [Hid _]. apply (Hall r); [|done].
      apply Hin. by rewrite Hid.
    + intros [Hrel Hs]. split; [done|]. intros rel [Hrel' Hs']%Hin Hid.
      rewrite Hid in Hrel'. congruence.
  - split; [|by intros []]. intros Hrel. split; [done|]. intros Hs.
    destruct (W1 _ _ Hrel) as [Hid _].
    assert (Hnil : r ∈ @nil GraphRelationship) by (apply Hin; by rewrite Hid).
    by apply elem_of_nil in Hnil.
Qed.

(** The cascade for [v] removes the relationships that mention [v] and no
    other. *)
Lemma cascade_relationships v g id r :
  rel_wf g →
  relationships (cascadeRelationshipsForNode v g) !! id = Some r
  ↔ relationships g !! id = Some r ∧ Source r ≠ v ∧ Target r ≠ v.
Proof.
  intros Hwf. unfold cascadeRelationshipsForNode.
  destruct (rel_wf_cascade_outgoing v g Hwf) as (Hwf1 & _).
  rewrite cascade_incoming_relationships by done.
  rewrite cascade_outgoing_relationships by done. tauto.
Qed.

(** X5.  [RemoveNode] on a node of the graph returns [true], takes that node
    out and no other, and takes out the relationships that mention it and
    no other. *)
Theorem RemoveNode_exact g v :
  reachable g → is_Some (nodes g !! v) →
  (RemoveNode v g).2 = true
  ∧ nodes (RemoveNode v g).1 = delete v (nodes g)
  ∧ ∀ id r, relationships (RemoveNode v g).1 !! id = Some r
      ↔ relationships g !! id = Some r ∧ Source r ≠ v ∧ Target r ≠ v.
Proof.
  intros Hwf%reachable_rel_wf [n Hn]. unfold RemoveNode. rewrite Hn. cbn [fst snd].
  split; [done|]. split.
  - by destruct (cascade_nodes v (unlink_node v n g)) as [-> _].
  - intros id r. rewrite cascade_relationships by (by apply rel_wf_unlink_node). done.
Qed.

Lemma unlink_all_spec ids g :
  let g' := foldl (λ g id, match nodes g !! id with
                           | Some node => unlink_node id node g
                           | None => g end) g ids in
  relationships g' = relationships g
  ∧ ∀ id n, nodes g' !! id = Some n ↔ nodes g !! id = Some n ∧ id ∉ ids.
Proof.
  revert g. induction ids as [|i ids IH]; intros g; simpl.
  - split; [done|]. intros id n. split; [|by intros []]. intros ?. split; [done|].
    by intros ?%elem_of_nil.
  - destruct (IH (match nodes g !! i with
                  | Some node => unlink_node i node g | None => g end)) as [Hr Hn].
    split.
    + rewrite Hr. by destruct (nodes g !! i).
    + intros id n. rewrite Hn, not_elem_of_cons.
      destruct (nodes g !! i) as [node|] eqn:Hi; simpl.
      * rewrite lookup_delete. case_decide; naive_solver.
      * naive_solver.
Qed.

Lemma cascade_all_spec ids g :
  rel_wf g →
  let g' := foldl (λ g id, cascadeRelationshipsForNode id g) g ids in
  nodes g' = nodes g
  ∧ ∀ id r, relationships g' !! id = Some r
      ↔ relationships g !! id = Some r ∧ Source r ∉ ids ∧ Target r ∉ ids.
Proof.
  revert g. induction ids as [|i ids IH]; intros g Hwf; simpl.
  - split; [done|]. intros id r. split; [|by intros []]. intros ?.
    split_and!; [done|by intros ?%elem_of_nil..].
  - destruct (IH (cascadeRelationshipsForNode i g)) as [Hn Hr];
      [by apply rel_wf_cascade|].
    split.
    + rewrite Hn. by destruct (cascade_nodes i g).
    + intros id r. rewrite Hr, cascade_relationships by done.
      rewrite !not_elem_of_cons. naive_solver.
Qed.

(** X6.  [RemoveNodesByFile] returns the number of nodes of the file, takes
    those nodes out and no other, and takes out the relationships that
    mention one of them and no other. *)
Theorem RemoveNodesByFile_exact g filePath :
  reachable g →
  let of_file id := ∃ n, nodes g !! id = Some n ∧ FilePath n = filePath in
  (RemoveNodesByFile filePath g).2
  = Z.of_nat (length (filter (λ kv, FilePath kv.2 = filePath) (map_to_list (nodes g))))
  ∧ (∀ id n, nodes (RemoveNodesByFile filePath g).1 !! id = Some n
       ↔ nodes g !! id = Some n ∧ FilePath n ≠ filePath)
  ∧ (∀ id r, relationships (RemoveNodesByFile filePath g).1 !! id = Some r
       ↔ relationships g !! id = Some r
         ∧ ¬ of_file (Source r) ∧ ¬ of_file (Target r)).
Proof.
  intros Hwf%reachable_rel_wf of_file. unfold RemoveNodesByFile.
  set (ids := (filter (λ kv, FilePath kv.2 = filePath) (range (nodes g))).*1).
  assert (Hids : ∀ id, id ∈ ids ↔ of_file id).
  { intros id. subst ids of_file. rewrite list_elem_of_fmap. split.
    - intros ([id' n] & -> & [Hp Hin%elem_of_range]%list_elem_of_filter). eauto.
    - intros (n & Hn & Hp). exists (id, n). split; [done|].
      apply list_elem_of_filter. split; [done|]. by apply elem_of_range. }
  assert (Hlen : length ids
            = length (filter (λ kv, FilePath kv.2 = filePath) (map_to_list (nodes g)))).
  { subst ids. rewrite length_fmap. unfold range.
    by rewrite (range_order_perm _ (map_to_list (nodes g))). }
  destruct (unlink_all_spec ids g) as [Hr1 Hn1].
  set (g1 := foldl (λ g id, match nodes g !! id with
                            | Some node => unlink_node id node g
                            | None => g end) g ids) in *.
  destruct (cascade_all_spec ids g1) as [Hn2 Hr2]; [by apply rel_wf_unlink_all|].
  assert (Hgoal :
    (∀ id n, nodes (foldl (λ g id, cascadeRelationshipsForNode id g) g1 ids) !! id = Some n
       ↔ nodes g !! id = Some n ∧ FilePath n ≠ filePath)
    ∧ (∀ id r, relationships (foldl (λ g id, cascadeRelationshipsForNode id g) g1 ids) !! id
                 = Some r
       ↔ relationships g !! id = Some r ∧ ¬ of_file (Source r) ∧ ¬ of_file (Target r))).
  { split.
    - intros id n. rewrite Hn2, Hn1, Hids. subst of_file. naive_solver.
    - intros id r. rewrite Hr2, Hr1, !Hids. done. }
  destruct ids as [|i ids'] eqn:Heq.
  - simpl in Hgoal, Hlen. cbn [fst snd]. split; [by rewrite <-Hlen|]. exact Hgoal.
  - cbn [fst snd]. split; [by rewrite <-Hlen|]. exact Hgoal.
Qed.

(** *** Counting symbols *)
Lemma CountNodesByLabel_filter g label :
  node_wf g →
  CountNodesByLabel label g
  = Z.of_nat (length (filter (λ kv, Label kv.2 = label) (map_to_list (nodes g)))).
Proof.
  intros [W1 W2].
  assert (Hperm : elements (default ∅ (byLabel g !! label))
                  ≡ₚ (filter (λ kv, Label kv.2 = label) (map_to_list (nodes g))).*1).
  { apply NoDup_Permutation.
    - apply NoDup_elements.
    - apply NoDup_fmap_filter, NoDup_fst_map_to_list.
    - intros id. rewrite elem_of_elements, list_elem_of_fmap. split.
      + intros Hin. destruct (byLabel g !! label) as [ids|] eqn:Hids; [|set_solver].
        destruct (W2 _ _ _ Hids Hin) as (n & Hn & Hlab).
        exists (id, n). split; [done|]. apply list_elem_of_filter. split; [done|].
        by apply elem_of_map_to_list.
      + intros ([id' n] & -> & [Hlab Hn%elem_of_map_to_list]%list_elem_of_filter).
        simpl in *. destruct (W1 _ _ Hn) as (_ & ids & Hids & Hin).
        rewrite <-Hlab, Hids. done. }
  apply Permutation_length in Hperm. rewrite length_fmap in Hperm. rewrite <-Hperm.
  unfold CountNodesByLabel. destruct (byLabel g !! label); [done|].
  simpl. by rewrite elements_empty.
Qed.

Lemma length_filter_or {A} (P Q : A → Prop) `{∀ x, Decision (P x)} `{∀ x, Decision (Q x)}
    (l : list A) :
  (∀ x, P x → Q x → False) →
  length (filter (λ x, P x ∨ Q x) l) = (length (filter P l) + length (filter Q l))%nat.
Proof.
  intros Hdis. induction l as [|x l IH]; [done|].
  rewrite !filter_cons.
  destruct (decide (P x)) as [HP|HP], (decide (Q x)) as [HQ|HQ].
  - by destruct (Hdis x).
  - rewrite decide_True by tauto. simpl. by rewrite IH.
  - rewrite decide_True by tauto. simpl. rewrite IH. lia.
  - rewrite decide_False by tauto. done.
Qed.

(** X7.  [countSymbols] is the number of nodes labelled function, method,
    class, interface, type alias or enum; files, folders, communities and
    processes are not counted. *)
Theorem countSymbols_exact g :
  reachable g →
  countSymbols g
  = Z.of_nat (length (filter (λ kv, Label kv.2 ∈ symbolLabels) (map_to_list (nodes g)))).
Proof.
  intros Hwf%reachable_node_wf.
  assert (Hsplit : ∀ kv : string * GraphNode, Label kv.2 ∈ symbolLabels ↔
    Label kv.2 = NodeFunction ∨ Label kv.2 = NodeMethod ∨ Label kv.2 = NodeClass
    ∨ Label kv.2 = NodeInterface ∨ Label kv.2 = NodeTypeAlias ∨ Label kv.2 = NodeEnum).
  { intros kv. unfold symbolLabels. rewrite !elem_of_cons, elem_of_nil. tauto. }
  rewrite (list_filter_iff _ _ _ Hsplit).
  rewrite !length_filter_or.
  - unfold countSymbols, symbolLabels. cbn [foldl].
    rewrite !CountNodesByLabel_filter by done. lia.
  - intros kv ->. done.
  - intros kv -> [|]; done.
  - intros kv -> [|[|]]; done.
  - intros kv -> [|[|[|]]]; done.
  - intros kv -> [|[|[|[|]]]]; done.
Qed.

End Facts.

Lemma reachable_g_cascade : reachable (H := plain_range) g_cascade.
Proof. repeat constructor. Qed.

Lemma GetOutgoing_exact_witness :
  reachable g_cascade
  ∧ (rel1 ∈ GetOutgoing "function:a.py:foo" RelCalls g_cascade
     ↔ relationships g_cascade !! rID rel1 = Some rel1
       ∧ Source rel1 = "function:a.py:foo" ∧ (RelCalls = "" ∨ rType rel1 = RelCalls)).
Proof.
  split; [exact reachable_g_cascade|].
  exact (proj1 (GetOutgoing_exact g_cascade "function:a.py:foo" RelCalls
                  reachable_g_cascade) rel1).
Defined.

Lemma GetIncoming_exact_witness :
  reachable g_cascade
  ∧ (rel1 ∈ GetIncoming "function:b.py:bar" "" g_cascade
     ↔ relationships g_cascade !! rID rel1 = Some rel1
       ∧ Target rel1 = "function:b.py:bar" ∧ ("" = "" ∨ rType rel1 = "")).
Proof.
  split; [exact reachable_g_cascade|].
  exact (proj1 (GetIncoming_exact g_cascade "function:b.py:bar" ""
                  reachable_g_cascade) rel1).
Defined.

Lemma GetRelationshipsByType_exact_witness :
  reachable g_cascade
  ∧ (rel1 ∈ GetRelationshipsByType RelCalls g_cascade
     ↔ relationships g_cascade !! rID rel1 = Some rel1 ∧ rType rel1 = RelCalls).
Proof.
  split; [exact reachable_g_cascade|].
  exact (proj1 (GetRelationshipsByType_exact g_cascade RelCalls reachable_g_cascade) rel1).
Defined.

Lemma HasIncoming_exact_witness :
  reachable g_cascade
  ∧ (HasIncoming "function:b.py:bar" RelCalls g_cascade = true
     ↔ ∃ rel, relationships g_cascade !! rID rel = Some rel
              ∧ Target rel = "function:b.py:bar" ∧ rType rel = RelCalls).
Proof.
  split; [exact reachable_g_cascade|].
  exact (HasIncoming_exact g_cascade "function:b.py:bar" RelCalls reachable_g_cascade).
Defined.

Lemma GetCallees_exact_witness :
  reachable g_cascade
  ∧ (node_bar ∈ Graph.GetCallees "function:a.py:foo" g_cascade
     ↔ ∃ rel, relationships g_cascade !! rID rel = Some rel
              ∧ Source rel = "function:a.py:foo" ∧ rType rel = RelCalls
              ∧ nodes g_cascade !! Target rel = Some node_bar).
Proof.
  split; [exact reachable_g_cascade|].
  exact (GetCallees_exact g_cascade "function:a.py:foo" node_bar reachable_g_cascade).
Defined.

Lemma GetNodesByLabel_exact_witness :
  reachable g_cascade
  ∧ (node_foo ∈ GetNodesByLabel NodeFunction g_cascade
     ↔ nodes g_cascade !! ID node_foo = Some node_foo ∧ Label node_foo = NodeFunction).
Proof.
  split; [exact reachable_g_cascade|].
  exact (proj1 (GetNodesByLabel_exact g_cascade NodeFunction reachable_g_cascade) node_foo).
Defined.

Lemma RemoveNode_exact_witness :
  reachable g_cascade ∧ is_Some (nodes g_cascade !! "function:b.py:bar")
  ∧ (RemoveNode "function:b.py:bar" g_cascade).2 = true
  ∧ nodes (RemoveNode "function:b.py:bar" g_cascade).1
    = delete "function:b.py:bar" (nodes g_cascade).
Proof.
  assert (Hn : is_Some (nodes g_cascade !! "function:b.py:bar"))
    by (exists node_bar; vm_compute; reflexivity).
  split; [exact reachable_g_cascade|]. split; [exact Hn|].
  pose proof (RemoveNode_exact g_cascade "function:b.py:bar" reachable_g_cascade Hn)
    as (Ht & Hnodes & _).
  exact (conj Ht Hnodes).
Defined.

Lemma RemoveNodesByFile_exact_witness :
  reachable g_cascade
  ∧ (RemoveNodesByFile "a.py" g_cascade).2
    = Z.of_nat (length (filter (λ kv, FilePath kv.2 = "a.py")
                               (map_to_list (nodes g_cascade)))).
Proof.
  split; [exact reachable_g_cascade|].
  exact (proj1 (RemoveNodesByFile_exact g_cascade "a.py" reachable_g_cascade)).
Defined.

Lemma countSymbols_exact_witness :
  reachable g_cascade
  ∧ countSymbols g_cascade
    = Z.of_nat (length (filter (λ kv, Label kv.2 ∈ symbolLabels)
                               (map_to_list (nodes g_cascade)))).
Proof.
  split; [exact reachable_g_cascade|].
  exact (countSymbols_exact g_cascade reachable_g_cascade).
Defined.

End GraphQueries.

(** ** Dead-code detection: what the passes write and what they leave *)
Module DeadCodeMore.
Import Graph DeadCode Examples GraphFacts DeadCodeFacts.

#[local] Existing Instances static_eq_refl static_eq_trans any_change_refl
  any_change_trans clears_refl clears_trans steps_refl steps_trans.

#[local] Instance flags_only_refl : Reflexive flags_only.
Proof. intros n. by split_and!. Qed.

#[local] Instance flags_only_trans : Transitive flags_only.
Proof.
  intros n1 n2 n3 (S1 & ? & ? & ? & ? & ? & ? & P1) (S2 & ? & ? & ? & ? & ? & ? & P2).
  split_and!; try congruence.
  - by etrans.
  - intros k Hk. rewrite P2, P1; done.
Qed.

Lemma flags_only_set_IsDead b n : flags_only n (set_IsDead b n).
Proof. destruct n. by split_and!. Qed.

Lemma flags_only_set_Property k v n :
  k ∈ written_properties → flags_only n (set_Property k v n).
Proof.
  intros Hk. destruct n. split_and!; try done. simpl. intros k' Hk'.
  rewrite lookup_insert_ne; [done|]. by intros ->.
Qed.

Lemma flags_only_mark_called p n : flags_only n (mark_called p n).
Proof.
  unfold mark_called. etrans; [apply (flags_only_set_IsDead false)|].
  apply flags_only_set_Property. unfold written_properties. set_solver.
Qed.

Lemma flags_only_mark_exempt n : flags_only n (mark_exempt n).
Proof.
  unfold mark_exempt. etrans; [apply (flags_only_set_IsDead false)|].
  etrans; apply flags_only_set_Property; unfold written_properties; set_solver.
Qed.

Section Facts.
Context `{MapRange}.

Lemma flags_only_detectCallPatterns g : steps flags_only g (detectCallPatterns g).
Proof.
  apply steps_for_nodes; try apply _. intros ptr node g' _.
  cbv zeta.
  match goal with
  | |- steps _ _ (match nodes ?g1 !! _ with _ => _ end) =>
      assert (steps flags_only g' g1) as H1; [|etrans; [exact H1|]; generalize g1; intros g2]
  end.
  - destruct (hasDynamicDispatch node); [|done].
    apply steps_for_callees; try apply _. intros p c g'' _.
    apply steps_update_node; [apply _|]. intros; apply flags_only_set_Property.
    unfold written_properties. set_solver.
  - destruct (nodes g2 !! ptr) as [caller|]; [|done].
    destruct (hasSwitchDispatch caller); [|done].
    apply steps_for_callees; try apply _. intros p c g'' _.
    apply steps_update_node; [apply _|]. intros; apply flags_only_set_Property.
    unfold written_properties. set_solver.
Qed.

Lemma flags_only_flagUnreachable g : steps flags_only g (flagUnreachable g).
Proof.
  apply steps_for_nodes; try apply _. intros ptr node g' _.
  repeat case_bool_decide; try done.
  destruct (negb _); [|done].
  apply steps_update_node; [apply _|]. intros; apply flags_only_set_IsDead.
Qed.

Lemma flags_only_applyExemptions g : steps flags_only g (applyExemptions g).
Proof.
  apply steps_for_nodes; try apply _. intros ptr node g' _.
  destruct (negb _); [done|]. destruct (isDeadCodeExempt node); [|done].
  apply steps_update_node; [apply _|]. intros; apply flags_only_set_IsDead.
Qed.

Lemma flags_only_applyAllowlistExemptions g :
  steps flags_only g (applyAllowlistExemptions g).
Proof.
  apply steps_for_nodes; try apply _. intros ptr node g' _.
  destruct (negb _); [done|]. destruct (isAllowlistExempt node); [|done].
  apply steps_update_node; [apply _|]. intros; apply flags_only_mark_exempt.
Qed.

Lemma flags_only_applyOverridePass g : steps flags_only g (applyOverridePass g).
Proof.
  apply steps_for_nodes; try apply _. intros ptr node g' _.
  destruct (negb _); [done|]. case_bool_decide; [done|].
  destruct (isOverrideOfNonDeadMethod g' node); [|done].
  apply steps_update_node; [apply _|]. intros; apply flags_only_set_IsDead.
Qed.

Lemma flags_only_assignConfidenceScores g :
  steps flags_only g (assignConfidenceScores g).
Proof.
  apply steps_for_nodes; try apply _. intros ptr node g' _.
  destruct (negb _); [done|].
  apply steps_update_node; [apply _|]. intros; apply flags_only_set_Property.
  unfold written_properties. set_solver.
Qed.

Lemma flags_only_trackIntraClassCalls g : steps flags_only g (trackIntraClassCalls g).
Proof.
  unfold trackIntraClassCalls. generalize (fileMethods_of g). intros fm.
  cbv zeta.
  match goal with |- steps _ _ (foldl _ ?g1 _) => trans g1 end.
  - apply steps_for_nodes; try apply _. intros ptr node g' _.
    case_bool_decide; [|done].
    apply steps_for_callees; try apply _. intros p c g'' _.
    repeat case_bool_decide; try done.
    apply steps_update_node; [apply _|]. intros; apply flags_only_mark_called.
  - apply steps_foldl; try apply _. intros g' [filePath methods].
    apply steps_foldl; try apply _. intros g'' [? cptr].
    destruct (nodes g'' !! cptr) as [caller|]; [|done].
    apply steps_for_callees; try apply _. intros p c g3 _.
    repeat case_bool_decide; try done.
    apply steps_update_node; [apply _|]. intros; apply flags_only_mark_called.
Qed.

(** X8.  [ProcessDeadCode] adds and removes no node and no relationship
    and touches no index; of a node it changes nothing but the dead flag
    and the four properties [call_pattern], [dead_code_exempt],
    [exempt_reason] and [dead_code_confidence]. *)
Theorem ProcessDeadCode_writes_flags_only g :
  steps flags_only g (ProcessDeadCode g).1.
Proof.
  unfold ProcessDeadCode, before_override. cbn [fst].
  etrans; [|apply flags_only_assignConfidenceScores].
  etrans; [|apply flags_only_applyOverridePass].
  etrans; [|apply flags_only_applyAllowlistExemptions].
  etrans; [|apply flags_only_applyExemptions].
  etrans; [|apply flags_only_trackIntraClassCalls].
  etrans; [|apply flags_only_flagUnreachable].
  apply flags_only_detectCallPatterns.
Qed.

(** *** The count and the list *)
Lemma length_filter_snd {A} (P : A → Prop) `{!∀ x, Decision (P x)} (l : list (string * A)) :
  length (filter P l.*2) = length (filter (λ kv, P kv.2) l).
Proof.
  induction l as [|kv l IH]; [done|].
  rewrite fmap_cons, !filter_cons. case_decide; simpl; by rewrite IH.
Qed.

(** The count [ProcessDeadCode] returns is the length of
    [GetDeadCodeList] on the graph it leaves. *)
Theorem ProcessDeadCode_count g :
  (ProcessDeadCode g).2 = Z.of_nat (length (GetDeadCodeList (ProcessDeadCode g).1)).
Proof.
  rewrite dead_count_any_order. f_equal. unfold GetDeadCodeList.
  rewrite length_filter_snd. unfold range.
  by rewrite (range_order_perm _ (map_to_list (nodes (ProcessDeadCode g).1))).
Qed.

(** *** Confidence *)
Lemma confidence_of_values n : confidence_of n ∈ ["high"; "medium"; "low"].
Proof.
  unfold confidence_of.
  destruct (call_pattern n) as [pattern|];
    repeat first [case_bool_decide | case_match]; set_solver.
Qed.

Lemma confidence_of_private n :
  Label n = NodeMethod ∨ Label n = NodeFunction → lower_initial (Name n) = true →
  confidence_of n ≠ "high".
Proof.
  intros Hlab Hlow. unfold confidence_of.
  rewrite (bool_decide_eq_true_2 _ Hlab), Hlow.
  destruct (call_pattern n) as [pattern|];
    repeat first [case_bool_decide | case_match]; done.
Qed.

Lemma confidence_of_scored c n :
  confidence_of (set_Property "dead_code_confidence" c n) = confidence_of n.
Proof.
  unfold confidence_of, call_pattern, isTestFunction. destruct n; simpl.
  by rewrite lookup_insert_ne.
Qed.

(** X9.  Every node that is dead when [ProcessDeadCode] returns carries
    a [dead_code_confidence], which is ["high"], ["medium"] or ["low"] as
    [assignConfidenceScores] computes it, and never ["high"] for a function
    or method whose name starts with a lower-case letter. *)
Theorem dead_nodes_have_confidence g ptr N' :
  nodes (ProcessDeadCode g).1 !! ptr = Some N' → IsDead N' = true →
  Properties N' !! "dead_code_confidence" = Some (AnyString (confidence_of N'))
  ∧ confidence_of N' ∈ ["high"; "medium"; "low"]
  ∧ (Label N' = NodeMethod ∨ Label N' = NodeFunction →
     lower_initial (Name N') = true → confidence_of N' ≠ "high").
Proof.
  unfold ProcessDeadCode. cbn [fst]. rewrite assignConfidenceScores_pointwise. simpl.
  rewrite lookup_fmap.
  destruct (nodes (applyOverridePass (before_override g)) !! ptr) as [n|]; [|done].
  simpl. intros [= <-] Hdead. unfold confidence_node in *.
  destruct (IsDead n) eqn:Hn; simpl in *; [|congruence].
  rewrite confidence_of_scored. split_and!.
  - destruct n; simpl. apply lookup_insert_eq.
  - apply confidence_of_values.
  - intros Hlab Hlow. apply confidence_of_private; by destruct n.
Qed.

(** *** What gets flagged *)
Lemma flag_node_dead g n :
  IsDead (flag_node g n) = true →
  IsDead n = true
  ∨ (HasIncoming (ID n) RelCalls g = false
     ∧ Label n ∉ [NodeFile; NodeFolder; NodeCommunity; NodeProcess]).
Proof.
  unfold flag_node.
  destruct (bool_decide (Label n = NodeFile ∨ Label n = NodeFolder)) eqn:E1; [by left|].
  destruct (bool_decide (Label n = NodeCommunity ∨ Label n = NodeProcess)) eqn:E2;
    [by left|].
  destruct (HasIncoming (ID n) RelCalls g) eqn:E3; simpl; [by left|].
  intros _. right. split; [done|].
  apply bool_decide_eq_false_1 in E1. apply bool_decide_eq_false_1 in E2.
  rewrite !not_elem_of_cons. split_and!; try tauto. apply not_elem_of_nil.
Qed.

Lemma clears_after_flagging g :
  steps clears (flagUnreachable g)
    (assignConfidenceScores (applyOverridePass (applyAllowlistExemptions
      (applyExemptions (trackIntraClassCalls (flagUnreachable g)))))).
Proof.
  etrans; [apply clears_trackIntraClassCalls|].
  etrans; [apply clears_applyExemptions|].
  apply clears_after_exemptions.
Qed.

(** X10.  A node that enters [ProcessDeadCode] unflagged and leaves it
    dead has no incoming [calls] relationship and is no file, folder,
    community or process. *)
Theorem flagged_only_without_callers g ptr N N' :
  nodes g !! ptr = Some N → IsDead N = false →
  nodes (ProcessDeadCode g).1 !! ptr = Some N' → IsDead N' = true →
  HasIncoming (ID N) RelCalls g = false
  ∧ Label N ∉ [NodeFile; NodeFolder; NodeCommunity; NodeProcess].
Proof.
  intros Hptr Hlive Hptr' Hdead. unfold ProcessDeadCode, before_override in Hptr'.
  cbn [fst] in Hptr'.
  set (g1 := detectCallPatterns g) in *.
  destruct (steps_lookup _ _ _ _ _ (clears_detectCallPatterns g) Hptr)
    as (N1 & H1 & [S1 D1]). fold g1 in H1.
  destruct (steps_lookup_inv _ _ _ _ _ (clears_after_flagging g1) Hptr')
    as (N2 & H2 & [S2 D2]).
  rewrite flagUnreachable_pointwise in H2. simpl in H2. rewrite lookup_fmap, H1 in H2.
  injection H2 as <-.
  destruct (flag_node_dead g1 N1 (D2 Hdead)) as [Hd|[Hin Hlab]].
  - rewrite D1 in Hlive; done.
  - destruct S1 as (HI & HL & _).
    rewrite <-HI, <-HL in *. subst g1.
    by rewrite (HasIncoming_steps _ _ _ _ _ (clears_detectCallPatterns g)) in Hin.
Qed.

(** *** The allowlist *)
Lemma applyAllowlistExemptions_exempt g ptr n :
  nodes (applyAllowlistExemptions g) !! ptr = Some n →
  (∀ n0, static_eq n0 n → isAllowlistExempt n0 = true) →
  IsDead n = false.
Proof.
  rewrite applyAllowlistExemptions_pointwise. simpl. rewrite lookup_fmap.
  destruct (nodes g !! ptr) as [n0|]; simpl; [|done].
  intros [= <-] Hallow. unfold allowlist_node in *.
  destruct (IsDead n0) eqn:E1; simpl; [|done].
  destruct (isAllowlistExempt n0) eqn:E2; simpl in *; [by destruct n0|].
  by rewrite (Hallow n0) in E2.
Qed.

(** X11.  A node named [register...], or named [handle...] in a file
    whose path contains [server.go], or named [setup...], [configure...]
    or [output...] in a file whose path contains [cmd.go], is not dead when
    [ProcessDeadCode] returns. *)
Theorem ProcessDeadCode_allowlist g ptr N :
  nodes g !! ptr = Some N →
  strings.HasPrefix (Name N) "register" = true
  ∨ (strings.Contains (FilePath N) "server.go" = true
     ∧ strings.HasPrefix (Name N) "handle" = true)
  ∨ (strings.Contains (FilePath N) "cmd.go" = true
     ∧ (strings.HasPrefix (Name N) "setup" = true
        ∨ strings.HasPrefix (Name N) "configure" = true
        ∨ strings.HasPrefix (Name N) "output" = true)) →
  ∃ N', nodes (ProcessDeadCode g).1 !! ptr = Some N' ∧ static_eq N N' ∧ IsDead N' = false.
Proof.
  intros Hptr Hname. unfold ProcessDeadCode, before_override. cbn [fst].
  set (g4 := applyExemptions (trackIntraClassCalls (flagUnreachable (detectCallPatterns g)))).
  assert (Hst : steps static_eq g g4).
  { etrans; [apply static_before_exemptions|].
    eapply steps_weaken, clears_applyExemptions. by intros ?? []. }
  destruct (steps_lookup _ _ _ _ _ Hst Hptr) as (N4 & H4 & S4).
  destruct (steps_lookup _ _ _ _ _ (clears_applyAllowlistExemptions g4) H4)
    as (N5 & H5 & [S5 _]).
  assert (D5 : IsDead N5 = false).
  { eapply applyAllowlistExemptions_exempt; [done|].
    intros n0 (_ & _ & HN & HF & _).
    assert (S : static_eq N N5) by (by etrans).
    destruct S as (_ & _ & HN' & HF' & _).
    unfold isAllowlistExempt. rewrite HN, HF, <-HN', <-HF'.
    destruct Hname as [-> | [ [-> ->] | [-> [-> | [-> | ->] ] ] ] ];
      rewrite ?orb_true_r; simpl; repeat first [done | case_match]. }
  assert (Hlate : steps clears (applyAllowlistExemptions g4)
            (assignConfidenceScores (applyOverridePass (applyAllowlistExemptions g4)))).
  { etrans; [apply clears_applyOverridePass|apply clears_assignConfidenceScores]. }
  destruct (steps_lookup _ _ _ _ _ Hlate H5) as (N7 & H7 & [S7 D7]).
  exists N7. split_and!; [done|by repeat (etrans; [eassumption|])|].
  destruct (IsDead N7); [|done]. rewrite D7 in D5; done.
Qed.

(** *** Calls inside a class *)

(** A loop whose steps only clear flags, and one of whose steps clears the
    flag of the node under [t], ends with that flag cleared. *)
Lemma foldl_clears_once {A} (step : KnowledgeGraph → A → KnowledgeGraph) g0 l x t :
  (∀ g y, steps clears g (step g y)) →
  x ∈ l →
  (∀ g, steps clears g0 g → ∃ T, nodes (step g x) !! t = Some T ∧ IsDead T = false) →
  ∃ T, nodes (foldl step g0 l) !! t = Some T ∧ IsDead T = false.
Proof.
  intros Hstep Hin Hx.
  pose proof (foldl_prefix_inv step
    (λ g done, steps clears g0 g
       ∧ (x ∈ done → ∃ T, nodes g !! t = Some T ∧ IsDead T = false))
    g0 l) as Hinv.
  destruct Hinv as [_ Hm]; [| |by apply Hm].
  - split; [done|]. by intros ?%elem_of_nil.
  - intros g done y [Hst Hdone]. split; [by etrans|].
    intros [Hd | Hy%list_elem_of_singleton]%elem_of_app; [|subst y; by apply Hx].
    destruct (Hdone Hd) as (T & HT & HD).
    destruct (steps_lookup _ _ _ _ _ (Hstep g y) HT) as (T2 & HT2 & [_ D2]).
    exists T2. split; [done|]. destruct (IsDead T2); [|done]. rewrite D2 in HD; done.
Qed.

Lemma intra_class_step_clears (node : GraphNode) g rel :
  steps clears g
    match GetNode (Target rel) g with
    | Some callee =>
        if bool_decide (Label callee = NodeMethod)
        then if bool_decide (ClassName callee = ClassName node)
             then update_node (Target rel) (mark_called "intra_class") g
             else g
        else g
    | None => g
    end.
Proof.
  destruct (GetNode (Target rel) g); [|done].
  repeat case_bool_decide; try done.
  apply steps_update_node; [apply _|]. intros; apply clears_mark_called.
Qed.

Lemma intra_class_loop_unflags g a A rid rel B :
  nodes g !! a = Some A → Label A = NodeMethod → ClassName A ≠ "" →
  idx_lookup (outgoing g) (ID A) rid = Some rel → rType rel = RelCalls →
  nodes g !! Target rel = Some B → Label B = NodeMethod → ClassName B = ClassName A →
  ∃ B', nodes (trackIntraClassCalls g) !! Target rel = Some B' ∧ IsDead B' = false.
Proof.
  intros Ha HAl HAc Hrel Hty Hb HBl HBc.
  unfold trackIntraClassCalls. generalize (fileMethods_of g). intros fm. cbv zeta.
  match goal with |- ∃ _, nodes (foldl _ ?g1 _) !! _ = _ ∧ _ =>
    assert (Hfirst : ∃ B1, nodes g1 !! Target rel = Some B1 ∧ IsDead B1 = false);
    [|assert (Hrest : steps clears g1 (foldl
         (λ g '(filePath, methods),
            let methodNodes : gmap string string :=
              foldl (λ mn '(_, mptr), match nodes g !! mptr with
                                      | Some method => <[Name method := mptr]> mn
                                      | None => mn
                                      end) ∅ (range methods) in
            foldl (λ g '(_, cptr),
              match nodes g !! cptr with
              | Some caller =>
                  for_callees (GetOutgoing (ID caller) RelCalls g)
                    (λ p callee g,
                       if bool_decide (Label callee = NodeMethod)
                       then if bool_decide (FilePath callee = filePath)
                            then update_node p (mark_called "intra_file") g
                            else g
                       else g) g
              | None => g
              end) g (range methodNodes)) g1 (range fm)))]
  end.
  - unfold for_nodes.
    apply (foldl_clears_once _ g _ a).
    + intros g' ptr. destruct (nodes g' !! ptr) as [node|]; [|done].
      case_bool_decide; [|done].
      apply steps_for_callees; try apply _. intros p c g'' _.
      repeat case_bool_decide; try done.
      apply steps_update_node; [apply _|]. intros; apply clears_mark_called.
    + apply elem_of_range_keys. eauto.
    + intros g' Hg'.
      destruct (steps_lookup _ _ _ _ _ Hg' Ha) as (A' & Ha' & (HI & HL & _ & _ & HC & _) & _).
      rewrite Ha'. rewrite bool_decide_eq_true_2 by (split; congruence).
      unfold for_callees.
      apply (foldl_clears_once _ g' _ rel).
      * intros g'' r. apply (intra_class_step_clears A').
      * unfold GetOutgoing. rewrite (st_outgoing _ _ _ Hg'), <-HI.
        apply idx_lookup_Some in Hrel as (rels & -> & Hrid).
        rewrite decide_True by done. apply list_elem_of_filter. split; [done|].
        apply elem_of_range_values. eauto.
      * intros g'' Hg''.
        assert (Hall : steps clears g g'') by (by etrans).
        destruct (steps_lookup _ _ _ _ _ Hall Hb)
          as (B'' & Hb'' & (_ & HL' & _ & _ & HC' & _) & _).
        unfold GetNode. rewrite Hb''.
        rewrite bool_decide_eq_true_2 by congruence.
        rewrite bool_decide_eq_true_2 by congruence.
        exists (mark_called "intra_class" B''). split; [|done].
        simpl. rewrite lookup_alter, decide_True by done. by rewrite Hb''.
  - apply steps_foldl; try apply _. intros g' [filePath methods].
    apply steps_foldl; try apply _. intros g'' [? cptr].
    destruct (nodes g'' !! cptr) as [caller|]; [|done].
    apply steps_for_callees; try apply _. intros p c g3 _.
    repeat case_bool_decide; try done.
    apply steps_update_node; [apply _|]. intros; apply clears_mark_called.
  - destruct Hfirst as (B1 & HB1 & HD1).
    destruct (steps_lookup _ _ _ _ _ Hrest HB1) as (B2 & HB2 & [_ D2]).
    exists B2. split; [done|]. destruct (IsDead B2); [|done]. rewrite D2 in HD1; done.
Qed.

(** X12.  A method that another method of the same class calls is not
    dead when [ProcessDeadCode] returns: if the graph holds a [calls]
    relationship filed under the ID of a method [A] with a class name, and
    its target is a method node [B] of the same class name, then [B] leaves
    the phase unflagged. *)
Theorem intra_class_callee_not_dead g a A rid rel B :
  nodes g !! a = Some A → Label A = NodeMethod → ClassName A ≠ "" →
  idx_lookup (outgoing g) (ID A) rid = Some rel → rType rel = RelCalls →
  nodes g !! Target rel = Some B → Label B = NodeMethod → ClassName B = ClassName A →
  ∃ B', nodes (ProcessDeadCode g).1 !! Target rel = Some B' ∧ IsDead B' = false.
Proof.
  intros Ha HAl HAc Hrel Hty Hb HBl HBc.
  unfold ProcessDeadCode, before_override. cbn [fst].
  set (g2 := flagUnreachable (detectCallPatterns g)).
  assert (Hst : steps static_eq g g2).
  { etrans; [|apply static_flagUnreachable].
    eapply steps_weaken, clears_detectCallPatterns. by intros ?? []. }
  destruct (steps_lookup _ _ _ _ _ Hst Ha) as (A2 & Ha2 & (HI & HL & _ & _ & HC & _)).
  destruct (steps_lookup _ _ _ _ _ Hst Hb) as (B2 & Hb2 & (_ & HL' & _ & _ & HC' & _)).
  destruct (intra_class_loop_unflags g2 a A2 rid rel B2) as (B3 & HB3 & HD3);
    try congruence.
  { by rewrite (st_outgoing _ _ _ Hst), <-HI. }
  assert (Hlate : steps clears (trackIntraClassCalls g2)
            (assignConfidenceScores (applyOverridePass (applyAllowlistExemptions
               (applyExemptions (trackIntraClassCalls g2)))))).
  { etrans; [apply clears_applyExemptions|apply clears_after_exemptions]. }
  destruct (steps_lookup _ _ _ _ _ Hlate HB3) as (B7 & HB7 & [_ D7]).
  exists B7. split; [done|]. destruct (IsDead B7); [|done]. rewrite D7 in HD3; done.
Qed.

End Facts.

Lemma dead_nodes_have_confidence_witness :
  let N' := set_Property "dead_code_confidence" (AnyString "medium")
              (set_IsDead true fn_bar) in
  nodes (ProcessDeadCode g_scenario).1 !! "function:main.go:bar" = Some N'
  ∧ IsDead N' = true
  ∧ Properties N' !! "dead_code_confidence" = Some (AnyString (confidence_of N'))
  ∧ confidence_of N' ∈ ["high"; "medium"; "low"]
  ∧ (Label N' = NodeMethod ∨ Label N' = NodeFunction →
     lower_initial (Name N') = true → confidence_of N' ≠ "high").
Proof.
  intros N'.
  assert (H1 : nodes (ProcessDeadCode g_scenario).1 !! "function:main.go:bar" = Some N')
    by (vm_compute; reflexivity).
  assert (H2 : IsDead N' = true) by reflexivity.
  split; [exact H1|]. split; [exact H2|].
  exact (dead_nodes_have_confidence g_scenario "function:main.go:bar" N' H1 H2).
Defined.

Lemma flagged_only_without_callers_witness :
  let N' := set_Property "dead_code_confidence" (AnyString "medium")
              (set_IsDead true fn_bar) in
  nodes g_scenario !! "function:main.go:bar" = Some fn_bar
  ∧ IsDead fn_bar = false
  ∧ nodes (ProcessDeadCode g_scenario).1 !! "function:main.go:bar" = Some N'
  ∧ IsDead N' = true
  ∧ HasIncoming (ID fn_bar) RelCalls g_scenario = false
  ∧ Label fn_bar ∉ [NodeFile; NodeFolder; NodeCommunity; NodeProcess].
Proof.
  intros N'.
  assert (H1 : nodes g_scenario !! "function:main.go:bar" = Some fn_bar)
    by (vm_compute; reflexivity).
  assert (H2 : IsDead fn_bar = false) by reflexivity.
  assert (H3 : nodes (ProcessDeadCode g_scenario).1 !! "function:main.go:bar" = Some N')
    by (vm_compute; reflexivity).
  assert (H4 : IsDead N' = true) by reflexivity.
  split; [exact H1|]. split; [exact H2|]. split; [exact H3|]. split; [exact H4|].
  exact (flagged_only_without_callers g_scenario "function:main.go:bar" fn_bar N'
           H1 H2 H3 H4).
Defined.

Lemma ProcessDeadCode_allowlist_witness :
  nodes g_service !! "function:tools.go:registerTools" = Some fn_register
  ∧ ∃ N', nodes (ProcessDeadCode g_service).1 !! "function:tools.go:registerTools" = Some N'
          ∧ static_eq fn_register N' ∧ IsDead N' = false.
Proof.
  assert (H1 : nodes g_service !! "function:tools.go:registerTools" = Some fn_register)
    by (vm_compute; reflexivity).
  split; [exact H1|].
  apply (ProcessDeadCode_allowlist g_service "function:tools.go:registerTools"
           fn_register H1).
  left. vm_compute. reflexivity.
Defined.

Lemma intra_class_callee_not_dead_witness :
  ∃ B', nodes (ProcessDeadCode g_service).1 !! "method:svc.go:Svc.step" = Some B'
        ∧ IsDead B' = false.
Proof.
  apply (intra_class_callee_not_dead g_service "method:svc.go:Svc.Run" Svc_Run "calls:1"
           (edge "calls:1" RelCalls (ID Svc_Run) (ID Svc_step)) Svc_step).
  - vm_compute; reflexivity.
  - reflexivity.
  - vm_compute; discriminate.
  - vm_compute; reflexivity.
  - reflexivity.
  - vm_compute; reflexivity.
  - reflexivity.
  - reflexivity.
Defined.

End DeadCodeMore.

(** ** The walker: what [WalkRepo] returns *)
Module WalkerMore.
Import Walker Examples WalkerFacts.

(** A supported file name has one of the four languages. *)
Lemma getLanguage_supported name :
  isSupportedFile name = true →
  getLanguage name ∈ ["python"; "typescript"; "javascript"; "go"].
Proof.
  unfold isSupportedFile, getLanguage. intros [v Hv]%bool_decide_eq_true_1.
  rewrite Hv. simpl. unfold lookup_ext, supportedExtensions in Hv. simpl in Hv.
  repeat (case_match; [injection Hv as <-; set_solver|]). done.
Qed.

Section Facts.
Variable Match : list string → bool → bool.
Variable sha256_hex : string → string.
Variable repoPath : string.

Abbreviation walkDir := (walkDir Match sha256_hex repoPath).
Abbreviation readable := (readable Match).
Abbreviation WalkRepo := (WalkRepo Match sha256_hex repoPath).
Abbreviation walk_entries := (walk_entries Match sha256_hex repoPath).
Abbreviation all_readable := (all_readable Match).
Abbreviation walked := (walked Match sha256_hex repoPath).

(** The walk below [d] appends to the entries it is given, and what it
    appends are entries of files walked below [d]. *)
Lemma walkDir_sound rel d entries :
  ∃ found, (walkDir rel d entries).1 = (entries ++ found)%list
           ∧ ∀ e, e ∈ found → walked rel d e.
Proof.
  revert rel entries. induction d as [name content|name|name dirs IH] using FsNode_tree_ind;
    intros rel entries.
  - simpl. destruct (isSupportedFile name) eqn:Hs; simpl;
      [|exists []; split; [by rewrite app_nil_r|by intros ? ?%elem_of_nil]].
    destruct (Match (splitPath_Rel rel) false) eqn:Hm; simpl;
      [exists []; split; [by rewrite app_nil_r|by intros ? ?%elem_of_nil]|].
    destruct content as [content|]; simpl;
      [|exists []; split; [by rewrite app_nil_r|by intros ? ?%elem_of_nil]].
    eexists [_]. split; [done|]. intros e ->%list_elem_of_singleton.
    by apply walked_file.
  - simpl. exists []. rewrite app_nil_r.
    split; [by destruct (shouldSkipDir Match name rel)|by intros ? ?%elem_of_nil].
  - simpl. destruct (shouldSkipDir Match name rel) eqn:Hskip; simpl;
      [exists []; split; [by rewrite app_nil_r|by intros ? ?%elem_of_nil]|].
    change (∃ found, (walk_entries rel dirs entries).1 = (entries ++ found)%list
                     ∧ ∀ e, e ∈ found → walked rel (FsDir name (Some dirs)) e).
    assert (Hgen : ∀ rest entries, (∀ d1, d1 ∈ rest → d1 ∈ dirs) →
              Forall (λ d, ∀ rel entries, ∃ found,
                        (walkDir rel d entries).1 = (entries ++ found)%list
                        ∧ ∀ e, e ∈ found → walked rel d e) rest →
              ∃ found, (walk_entries rel rest entries).1 = (entries ++ found)%list
                       ∧ ∀ e, e ∈ found → walked rel (FsDir name (Some dirs)) e).
    { clear IH entries. intros rest. induction rest as [|d1 rest IHrest];
        intros entries Hsub Hall; simpl.
      - exists []. split; [by rewrite app_nil_r|by intros ? ?%elem_of_nil].
      - apply Forall_cons in Hall as [Hd1 Hall].
        destruct (Hd1 (rel ++ [node_name d1])%list entries) as (f1 & Heq1 & Hf1).
        destruct (Walker.walkDir Match sha256_hex repoPath (rel ++ [node_name d1])%list d1 entries)
          as [entries1 err] eqn:Hw. simpl in Heq1. subst entries1.
        assert (Hw1 : ∀ e, e ∈ f1 → walked rel (FsDir name (Some dirs)) e).
        { intros e He. eapply walked_dir; [done| |by apply Hf1].
          apply Hsub, list_elem_of_here. }
        destruct err as [err|].
        + exists f1. split; [by destruct (is_SkipDir err)|done].
        + destruct (IHrest (entries ++ f1)%list) as (f2 & Heq2 & Hf2); [|done|].
          { intros d Hd. by apply Hsub, list_elem_of_further. }
          exists (f1 ++ f2)%list. split; [by rewrite Heq2, app_assoc|].
          intros e [He|He]%elem_of_app; auto. }
    by apply Hgen.
Qed.

Lemma walk_entries_extends rel dirs entries :
  ∃ found, (walk_entries rel dirs entries).1 = (entries ++ found)%list.
Proof.
  revert entries. induction dirs as [|d1 rest IH]; intros entries; simpl.
  - exists []. by rewrite app_nil_r.
  - destruct (walkDir_sound (rel ++ [node_name d1])%list d1 entries) as (f1 & Heq1 & _).
    destruct (Walker.walkDir Match sha256_hex repoPath (rel ++ [node_name d1])%list d1 entries)
      as [entries1 err]. simpl in Heq1. subst entries1.
    destruct err as [err|].
    + exists f1. by destruct (is_SkipDir err).
    + destruct (IH (entries ++ f1)%list) as (f2 & ->). exists (f1 ++ f2)%list.
      by rewrite app_assoc.
Qed.

(** A walk below [d] that ends without error has found every file walked
    below [d]. *)
Lemma walkDir_complete rel d entries e :
  (walkDir rel d entries).2 = None → walked rel d e → e ∈ (walkDir rel d entries).1.
Proof.
  revert rel entries. induction d as [name content|name|name dirs IH] using FsNode_tree_ind;
    intros rel entries Hnil Hw.
  - inversion Hw as [rel' name' content' Hs Hm| ]; subst. simpl.
    rewrite Hs, Hm. simpl. apply elem_of_app. right. apply list_elem_of_here.
  - inversion Hw.
  - inversion Hw as [|rel' name' dirs' d1 e' Hskip Hin Hw1]; subst.
    simpl in *. rewrite Hskip in *. simpl in *.
    change ((walk_entries rel dirs entries).2 = None) in Hnil.
    change (e ∈ (walk_entries rel dirs entries).1).
    clear Hw Hskip. revert entries Hnil.
    induction IH as [|d2 rest Hd2 _ IHrest]; intros entries Hnil;
      [by apply elem_of_nil in Hin|].
    simpl in *.
    destruct (walkDir_sound (rel ++ [node_name d2])%list d2 entries) as (f2 & Heq2 & _).
    pose proof (Hd2 (rel ++ [node_name d2])%list entries) as Hcomplete.
    destruct (walkDir_error Match sha256_hex repoPath (rel ++ [node_name d2])%list d2 entries)
      as [Hns _].
    destruct (Walker.walkDir Match sha256_hex repoPath (rel ++ [node_name d2])%list d2 entries)
      as [entries2 err]. simpl in *. subst entries2.
    destruct err as [err|]; [by destruct err|].
    apply elem_of_cons in Hin as [->|Hin].
    + destruct (walk_entries_extends rel rest (entries ++ f2)%list) as (f3 & ->).
      apply elem_of_app. left. by apply Hcomplete.
    + by apply IHrest.
Qed.

Lemma WalkRepo_entries d : (WalkRepo (Some d)).1 = (walkDir [] d []).1.
Proof.
  unfold Walker.WalkRepo, WalkDir. destruct (walkDir [] d []) as [entries [err|]]; [|done].
  by destruct (is_SkipDir err).
Qed.

(** X13.  Every entry [WalkRepo] returns, with or without an error, is
    the entry of a supported file of the tree that has content, that no
    ignore pattern matches and that lies under no skipped directory. *)
Theorem WalkRepo_returns_walked root e :
  e ∈ (WalkRepo root).1 → ∃ d, root = Some d ∧ walked [] d e.
Proof.
  destruct root as [d|]; [|by intros ?%elem_of_nil].
  rewrite WalkRepo_entries. intros He. exists d. split; [done|].
  destruct (walkDir_sound [] d []) as (found & Heq & Hfound).
  rewrite Heq in He. by apply Hfound.
Qed.

(** X14.  When [WalkRepo] returns a nil error, it has returned the entry
    of every such file. *)
Theorem WalkRepo_complete d e :
  (WalkRepo (Some d)).2 = None → walked [] d e → e ∈ (WalkRepo (Some d)).1.
Proof.
  intros Hnil Hw. rewrite WalkRepo_entries. apply walkDir_complete; [|done].
  destruct (walkDir_error Match sha256_hex repoPath [] d []) as [Hns _].
  unfold Walker.WalkRepo, WalkDir in Hnil.
  destruct (walkDir [] d []) as [entries [err|]]; [|done].
  by destruct err.
Qed.

(** What being walked says of the entry itself. *)
Lemma walked_not_git rel d e : walked rel d e → node_name d ≠ ".git".
Proof.
  intros [rel' name content Hs _|rel' name dirs d1 e' Hskip _ _]; simpl.
  - by intros ->.
  - unfold shouldSkipDir in Hskip. by case_bool_decide.
Qed.

Lemma walked_entry rel d e :
  walked rel d e →
  EntryIsDir e = false ∧ SHA256 e = sha256_hex (Content e)
  ∧ Language e ∈ ["python"; "typescript"; "javascript"; "go"]
  ∧ ∃ below, Path e = abs_path repoPath (rel ++ below)
             ∧ RelPath e = Rel (rel ++ below) ∧ ".git" ∉ below.
Proof.
  induction 1 as [rel name content Hs Hm|rel name dirs d1 e Hskip Hin Hw IH].
  - simpl. split_and!; [done|done|by apply getLanguage_supported|].
    exists []. rewrite app_nil_r. split_and!; [done|done|apply not_elem_of_nil].
  - destruct IH as (Hd & Hsha & Hlang & below & Hp & Hr & Hgit).
    split_and!; [done|done|done|].
    exists (node_name d1 :: below). rewrite <-app_assoc in Hp, Hr.
    split_and!; [done|done|].
    apply not_elem_of_cons. split; [|done].
    intros Heq. by apply (walked_not_git _ _ _ Hw).
Qed.

(** X15.  An entry [WalkRepo] returns is never a directory, carries the
    digest of its own content and one of the four language names, and its
    path has no component [.git]. *)
Theorem WalkRepo_entry_facts root e :
  e ∈ (WalkRepo root).1 →
  EntryIsDir e = false ∧ SHA256 e = sha256_hex (Content e)
  ∧ Language e ∈ ["python"; "typescript"; "javascript"; "go"]
  ∧ ∃ parts, Path e = abs_path repoPath parts ∧ RelPath e = Rel parts ∧ ".git" ∉ parts.
Proof.
  destruct root as [d|]; [|by intros ?%elem_of_nil].
  rewrite WalkRepo_entries. intros He.
  destruct (walkDir_sound [] d []) as (found & Heq & Hfound).
  rewrite Heq in He. apply Hfound in He. by apply (walked_entry [] d e).
Qed.

End Facts.

Lemma WalkRepo_repo_small :
  WalkRepo match_nothing no_digest "/repo" (Some repo_small) = ([entry_main_go], None).
Proof. vm_compute. reflexivity. Qed.

Lemma WalkRepo_returns_walked_witness :
  entry_main_go ∈ (WalkRepo match_nothing no_digest "/repo" (Some repo_small)).1
  ∧ ∃ d, Some repo_small = Some d ∧ walked match_nothing no_digest "/repo" [] d entry_main_go.
Proof.
  assert (Hin : entry_main_go
                ∈ (WalkRepo match_nothing no_digest "/repo" (Some repo_small)).1)
    by (rewrite WalkRepo_repo_small; apply list_elem_of_here).
  split; [exact Hin|].
  exact (WalkRepo_returns_walked match_nothing no_digest "/repo" (Some repo_small)
           entry_main_go Hin).
Defined.

Lemma WalkRepo_complete_witness :
  (WalkRepo match_nothing no_digest "/repo" (Some repo_small)).2 = None
  ∧ walked match_nothing no_digest "/repo" [] repo_small entry_main_go
  ∧ entry_main_go ∈ (WalkRepo match_nothing no_digest "/repo" (Some repo_small)).1.
Proof.
  assert (Hnil : (WalkRepo match_nothing no_digest "/repo" (Some repo_small)).2 = None)
    by (vm_compute; reflexivity).
  assert (Hw : walked match_nothing no_digest "/repo" [] repo_small entry_main_go).
  { eapply (walked_dir _ _ _ [] "repo" _ (FsFile "main.go" (Some "package main")));
      [reflexivity|set_solver|].
    apply (walked_file match_nothing no_digest "/repo" ["main.go"] "main.go"
             "package main"); reflexivity. }
  split; [exact Hnil|]. split; [exact Hw|].
  exact (WalkRepo_complete match_nothing no_digest "/repo" repo_small entry_main_go
           Hnil Hw).
Defined.

Lemma WalkRepo_entry_facts_witness :
  entry_main_go ∈ (WalkRepo match_nothing no_digest "/repo" (Some repo_small)).1
  ∧ EntryIsDir entry_main_go = false
  ∧ SHA256 entry_main_go = no_digest (Content entry_main_go)
  ∧ Language entry_main_go ∈ ["python"; "typescript"; "javascript"; "go"]
  ∧ ∃ parts, Path entry_main_go = abs_path "/repo" parts
             ∧ RelPath entry_main_go = Rel parts ∧ ".git" ∉ parts.
Proof.
  assert (Hin : entry_main_go
                ∈ (WalkRepo match_nothing no_digest "/repo" (Some repo_small)).1)
    by (rewrite WalkRepo_repo_small; apply list_elem_of_here).
  split; [exact Hin|].
  exact (WalkRepo_entry_facts match_nothing no_digest "/repo" (Some repo_small)
           entry_main_go Hin).
Defined.

End WalkerMore.

(** ** Hybrid search: the shape of the result *)
Module SearchMore.
Import Search Examples SearchFacts.

#[local] Existing Instance insertion_SortSlice.

(** What a result list adds to the score map and to the metadata. *)
Lemma add_ranks_scores k i results sc M x :
  match (add_ranks k i results (sc, M)).1 !! x with
  | Some q =>
      (x ∈ (NodeID <$> results) ∨ is_Some (sc !! x))
      ∧ (q == default 0 (sc !! x) + rank_sum k i (NodeID <$> results) x)%Q
  | None => x ∉ NodeID <$> results ∧ sc !! x = None
  end.
Proof.
  revert i sc M. induction results as [|r rest IH]; intros i sc M; simpl.
  - destruct (sc !! x) as [q|] eqn:Hq; simpl.
    + split; [eauto|]. by rewrite Qplus_0_r.
    + split; [apply not_elem_of_nil|done].
  - specialize (IH (S i)
      (<[NodeID r := (default 0 (sc !! NodeID r) + rrf_term k i)%Q]> sc)
      (match M !! NodeID r with Some _ => M | None => <[NodeID r := r]> M end)).
    destruct ((add_ranks k (S i) rest _).1 !! x) as [q|].
    + destruct IH as [Hin Hq]. split.
      * destruct Hin as [Hin|Hin]; [left; by apply list_elem_of_further|].
        rewrite lookup_insert in Hin. case_decide as Hx.
        -- left. subst x. apply list_elem_of_here.
        -- by right.
      * rewrite Hq, lookup_insert. case_decide as Hx; simpl.
        -- subst x. by rewrite Qplus_assoc.
        -- rewrite Qplus_0_l. done.
    + destruct IH as [Hin Hsc]. rewrite lookup_insert in Hsc.
      case_decide as Hx; [done|]. split; [|done].
      apply not_elem_of_cons. split; [by intros ->|done].
Qed.

Lemma add_ranks_metadata k i results sc M x :
  (add_ranks k i results (sc, M)).2 !! x
  = match M !! x with
    | Some r => Some r
    | None => first_with x results
    end.
Proof.
  revert i sc M. induction results as [|r rest IH]; intros i sc M; simpl.
  - by destruct (M !! x).
  - rewrite IH. unfold first_with. simpl.
    destruct (M !! NodeID r) as [old|] eqn:Hold.
    + destruct (M !! x) as [rx|] eqn:Hx; [done|].
      rewrite bool_decide_eq_false_2; [done|]. intros Heq. congruence.
    + rewrite lookup_insert. case_decide as Hr.
      * subst x. rewrite Hold. by rewrite bool_decide_eq_true_2.
      * destruct (M !! x); [done|]. by rewrite bool_decide_eq_false_2.
Qed.

Lemma first_with_app x l1 l2 :
  first_with x (l1 ++ l2)
  = match first_with x l1 with Some r => Some r | None => first_with x l2 end.
Proof.
  unfold first_with. induction l1 as [|r l1 IH]; simpl; [done|].
  by destruct (bool_decide (NodeID r = x)).
Qed.

Lemma first_with_Some x l :
  x ∈ NodeID <$> l → ∃ r, first_with x l = Some r ∧ NodeID r = x ∧ r ∈ l.
Proof.
  intros (r & -> & Hr)%list_elem_of_fmap. unfold first_with.
  destruct (List.find (λ r0, bool_decide (NodeID r0 = NodeID r)) l) as [r'|] eqn:E.
  - apply find_some in E as [Hin Heq%bool_decide_eq_true_1].
    exists r'. by rewrite list_elem_of_In.
  - eapply find_none in E; [|by apply list_elem_of_In].
    by rewrite bool_decide_eq_true_2 in E.
Qed.

Section Facts.
Context `{MapRange} `{SortSlice}.

(** What [fuse] puts into the slice it sorts. *)
Lemma fuse_candidates fts vec k :
  let '(rrfScores, metadata) := add_ranks k 0 vec (add_ranks k 0 fts (∅, ∅)) in
  ∀ e, e ∈ to_result metadata <$> range rrfScores →
    hNodeID e ∈ NodeID <$> (fts ++ vec)%list
    ∧ (hScore e == rank_sum k 0 (NodeID <$> fts) (hNodeID e)
                   + rank_sum k 0 (NodeID <$> vec) (hNodeID e))%Q
    ∧ ∃ r, first_with (hNodeID e) (fts ++ vec)%list = Some r
           ∧ hNodeName e = NodeName r ∧ hFilePath e = FilePath r
           ∧ hLabel e = Label r ∧ hSnippet e = Snippet r.
Proof.
  pose proof (add_ranks_scores k 0 fts ∅ ∅) as Hs1.
  pose proof (add_ranks_metadata k 0 fts ∅ ∅) as Hm1.
  destruct (add_ranks k 0 fts (∅, ∅)) as [S1 M1]. simpl in Hs1, Hm1.
  pose proof (add_ranks_scores k 0 vec S1 M1) as Hs2.
  pose proof (add_ranks_metadata k 0 vec S1 M1) as Hm2.
  destruct (add_ranks k 0 vec (S1, M1)) as [S2 M2]. simpl in Hs2, Hm2.
  intros e ([x q] & -> & Hx%elem_of_range)%list_elem_of_fmap. simpl.
  specialize (Hs1 x). specialize (Hs2 x). specialize (Hm1 x). specialize (Hm2 x).
  rewrite Hx in Hs2. destruct Hs2 as [Hin2 Hq2].
  rewrite lookup_empty in Hm1. rewrite Hm1 in Hm2.
  assert (Hin : x ∈ NodeID <$> (fts ++ vec)%list).
  { rewrite fmap_app, elem_of_app. destruct Hin2 as [?|[q1 Hq1]]; [by right|].
    rewrite Hq1 in Hs1. destruct Hs1 as [[?|[? Hem]] _]; [by left|].
    by rewrite lookup_empty in Hem. }
  split_and!; [done| |].
  - rewrite Hq2. apply Qplus_comp; [|done].
    destruct (S1 !! x) as [q1|]; simpl.
    + destruct Hs1 as [_ ->]. rewrite lookup_empty. simpl. by rewrite Qplus_0_l.
    + destruct Hs1 as [Hnot _]. clear -Hnot.
      assert (Hgen : ∀ i, rank_sum k i (NodeID <$> fts) x = 0%Q).
      { induction fts as [|r rest IH]; intros i; [done|]. simpl.
        rewrite fmap_cons in Hnot. apply not_elem_of_cons in Hnot as [Hne Hnot].
        rewrite decide_False by done. by rewrite IH. }
      by rewrite Hgen.
  - destruct (first_with_Some x (fts ++ vec)%list Hin) as (r & Hr & _).
    exists r. split; [done|]. rewrite first_with_app in Hr.
    rewrite Hm2. by destruct (first_with x fts); rewrite Hr.
Qed.

(** The output of [fuse] is the sorted slice or a prefix of it. *)
Lemma fuse_Some fts vec limit k out :
  fuse fts vec limit k = Some out →
  let '(rrfScores, metadata) := add_ranks k 0 vec (add_ranks k 0 fts (∅, ∅)) in
  ∃ n, out = take n (sort_by_score (to_result metadata <$> range rrfScores)).
Proof.
  unfold fuse. destruct (add_ranks k 0 vec (add_ranks k 0 fts (∅, ∅))) as [S2 M2].
  destruct (_ >? _)%Z.
  - destruct (limit <? 0)%Z; [done|]. intros [= <-]. eauto.
  - intros [= <-]. eexists (length _). by rewrite firstn_all.
Qed.

Lemma fuse_elem_of fts vec limit k out e :
  fuse fts vec limit k = Some out → e ∈ out →
  let '(rrfScores, metadata) := add_ranks k 0 vec (add_ranks k 0 fts (∅, ∅)) in
  e ∈ to_result metadata <$> range rrfScores.
Proof.
  intros Hout He. pose proof (fuse_Some _ _ _ _ _ Hout) as Hn.
  destruct (add_ranks k 0 vec (add_ranks k 0 fts (∅, ∅))) as [S2 M2].
  destruct Hn as [n ->].
  rewrite <-(sort_by_score_perm (to_result M2 <$> range S2)).
  eapply elem_of_sublist; [exact He|]. apply sublist_take.
Qed.

Lemma NoDup_candidates (S2 : gmap string Q) M2 :
  NoDup (hNodeID <$> (to_result M2 <$> range S2)).
Proof.
  rewrite <-list_fmap_compose.
  assert (Heq : (hNodeID ∘ to_result M2) <$> range S2 = (range S2).*1).
  { apply Forall_fmap_ext, Forall_forall. by intros [x q] _. }
  rewrite Heq. apply NoDup_fst_range.
Qed.

End Facts.

Section Backend.
Context `{MapRange} `{SortSlice} {float32 : Type} `{StorageBackend float32}.

Lemma HybridSearch_fuse query queryVector limit k :
  HybridSearch query queryVector limit k
  = fuse (fts_results query limit) (vector_results queryVector limit) limit k.
Proof. done. Qed.

(** X16.  For a non-negative [limit], [HybridSearch] returns at most
    [limit] results, no node twice, no result before one of a higher score,
    and only nodes that one of the two searches returned. *)
Theorem HybridSearch_result query queryVector limit k :
  (0 ≤ limit)%Z →
  ∃ out, HybridSearch query queryVector limit k = Some out
    ∧ (Z.of_nat (length out) ≤ limit)%Z
    ∧ NoDup (hNodeID <$> out)
    ∧ (∀ i j x y, (i < j)%nat → out !! i = Some x → out !! j = Some y →
         ¬ (hScore x < hScore y)%Q)
    ∧ ∀ e, e ∈ out →
        hNodeID e ∈ NodeID <$> (fts_results query limit
                                ++ vector_results queryVector limit)%list.
Proof.
  intros Hlimit. rewrite HybridSearch_fuse.
  set (fts := fts_results query limit). set (vec := vector_results queryVector limit).
  pose proof (fuse_candidates fts vec k) as Hcand.
  pose proof (λ out, fuse_Some fts vec limit k out) as Hsome.
  unfold fuse in *.
  destruct (add_ranks k 0 vec (add_ranks k 0 fts (∅, ∅))) as [S2 M2].
  set (l := sort_by_score (to_result M2 <$> range S2)) in *.
  assert (Hshape : ∀ n, NoDup (hNodeID <$> take n l)
            ∧ (∀ i j x y, (i < j)%nat → take n l !! i = Some x → take n l !! j = Some y →
                 ¬ (hScore x < hScore y)%Q)
            ∧ ∀ e, e ∈ take n l → hNodeID e ∈ NodeID <$> (fts ++ vec)%list).
  { intros n. split_and!.
    - rewrite fmap_take. eapply sublist_NoDup; [|apply sublist_take]. unfold l.
      rewrite (sort_by_score_perm (to_result M2 <$> range S2)).
      apply NoDup_candidates.
    - intros i j x y Hij [Hi _]%lookup_take_Some [Hj _]%lookup_take_Some.
      by eapply sort_by_score_sorted.
    - intros e He. apply Hcand.
      rewrite <-(sort_by_score_perm (to_result M2 <$> range S2)).
      eapply elem_of_sublist; [exact He|]. apply sublist_take. }
  destruct (Z.of_nat (length l) >? limit)%Z eqn:Hlen.
  - rewrite (proj2 (Z.ltb_ge limit 0)) by done.
    eexists. split; [done|]. split; [|apply Hshape].
    rewrite length_take. lia.
  - exists l. split; [done|]. split; [lia|].
    specialize (Hshape (length l)). by rewrite firstn_all in Hshape.
Qed.

(** X17.  A negative [limit] makes [HybridSearch] panic: the slice
    expression [results[:limit]] is reached whatever the searches return. *)
Theorem HybridSearch_negative_limit query queryVector limit k :
  (limit < 0)%Z → HybridSearch query queryVector limit k = None.
Proof.
  intros Hlimit. rewrite HybridSearch_fuse. unfold fuse.
  destruct (add_ranks k 0 _ _) as [S2 M2].
  rewrite (proj2 (Z.gtb_lt _ _)) by lia.
  by rewrite (proj2 (Z.ltb_lt limit 0)).
Qed.

(** For a positive [k], the score of a fused result is the sum of
    [1/(k+i)] over the indices [i], counted from 0, at which its node
    stands in the full-text result list and in the vector result list.
    A positive [k] keeps every [k+i] away from 0, where the division of the
    source yields an infinity and the rational one here does not. *)
Theorem HybridSearch_scores query queryVector limit k out e :
  (0 < k)%Z → HybridSearch query queryVector limit k = Some out → e ∈ out →
  (hScore e == rank_sum k 0 (NodeID <$> fts_results query limit) (hNodeID e)
               + rank_sum k 0 (NodeID <$> vector_results queryVector limit) (hNodeID e))%Q.
Proof.
  intros _ Hout He. rewrite HybridSearch_fuse in Hout.
  pose proof (fuse_candidates (fts_results query limit)
                (vector_results queryVector limit) k) as Hcand.
  pose proof (fuse_elem_of _ _ _ _ _ e Hout He) as Hin.
  destruct (add_ranks k 0 _ _) as [S2 M2]. by apply Hcand.
Qed.

(** X19.  The name, file, label and snippet of a fused result are those
    of the first full-text result for its node, and those of the first
    vector result if the full-text search did not return the node. *)
Theorem HybridSearch_metadata query queryVector limit k out e :
  HybridSearch query queryVector limit k = Some out → e ∈ out →
  ∃ r, first_with (hNodeID e)
         (fts_results query limit ++ vector_results queryVector limit)%list = Some r
       ∧ hNodeName e = NodeName r ∧ hFilePath e = FilePath r
       ∧ hLabel e = Label r ∧ hSnippet e = Snippet r.
Proof.
  intros Hout He. rewrite HybridSearch_fuse in Hout.
  pose proof (fuse_candidates (fts_results query limit)
                (vector_results queryVector limit) k) as Hcand.
  pose proof (fuse_elem_of _ _ _ _ _ e Hout He) as Hin.
  destruct (add_ranks k 0 _ _) as [S2 M2]. by apply Hcand.
Qed.

End Backend.

Lemma HybridSearch_two_lists :
  HybridSearch "user" [1%Q] 2 60
  = Some [to_result {[ "UserService" := hit "UserService" ]}
            ("UserService", (0 + rrf_term 60 0 + rrf_term 60 0)%Q);
          to_result {[ "parseUser" := hit "parseUser" ]}
            ("parseUser", (0 + rrf_term 60 2 + rrf_term 60 1)%Q)].
Proof. vm_compute. reflexivity. Qed.

Lemma HybridSearch_result_witness :
  (0 ≤ 2)%Z
  ∧ ∃ out, HybridSearch "user" [1%Q] 2 60 = Some out
      ∧ (Z.of_nat (length out) ≤ 2)%Z
      ∧ NoDup (hNodeID <$> out)
      ∧ (∀ i j x y, (i < j)%nat → out !! i = Some x → out !! j = Some y →
           ¬ (hScore x < hScore y)%Q)
      ∧ ∀ e, e ∈ out →
          hNodeID e ∈ NodeID <$> (fts_results "user" 2 ++ vector_results [1%Q] 2)%list.
Proof.
  assert (Hl : (0 ≤ 2)%Z) by lia.
  split; [exact Hl|].
  exact (HybridSearch_result "user" [1%Q] 2 60 Hl).
Defined.

Lemma HybridSearch_negative_limit_witness :
  (-1 < 0)%Z ∧ HybridSearch "user" [1%Q] (-1) 60 = None.
Proof.
  assert (Hl : (-1 < 0)%Z) by lia.
  split; [exact Hl|].
  exact (HybridSearch_negative_limit "user" [1%Q] (-1) 60 Hl).
Defined.

Lemma HybridSearch_scores_witness :
  let e := to_result {[ "parseUser" := hit "parseUser" ]}
             ("parseUser", (0 + rrf_term 60 2 + rrf_term 60 1)%Q) in
  (hScore e == rank_sum 60 0 (NodeID <$> fts_results "user" 2) (hNodeID e)
               + rank_sum 60 0 (NodeID <$> vector_results [1%Q] 2) (hNodeID e))%Q.
Proof.
  intros e.
  apply (HybridSearch_scores "user" [1%Q] 2 60 _ e ltac:(lia) HybridSearch_two_lists).
  set_solver.
Defined.

Lemma HybridSearch_metadata_witness :
  let e := to_result {[ "parseUser" := hit "parseUser" ]}
             ("parseUser", (0 + rrf_term 60 2 + rrf_term 60 1)%Q) in
  ∃ r, first_with (hNodeID e) (fts_results "user" 2 ++ vector_results [1%Q] 2)%list
       = Some r
       ∧ hNodeName e = NodeName r ∧ hFilePath e = FilePath r
       ∧ hLabel e = Label r ∧ hSnippet e = Snippet r.
Proof.
  intros e.
  apply (HybridSearch_metadata "user" [1%Q] 2 60 _ e HybridSearch_two_lists).
  set_solver.
Defined.

End SearchMore.

(** ** Cosine similarity: range, symmetry, zeros *)
Module CosineMore.
Import Cosine CosineFacts.
#[local] Open Scope R_scope.

(** The Cauchy-Schwarz inequality for the sums the loop accumulates. *)
Lemma dot_Cauchy_Schwarz a b : dot a b * dot a b <= dot a a * dot b b.
Proof.
  revert b. induction a as [|x a IH]; intros [|y b]; simpl.
  - lra.
  - lra.
  - pose proof (dot_self_nonneg a). nra.
  - specialize (IH b).
    pose proof (dot_self_nonneg a) as HA. pose proof (dot_self_nonneg b) as HB.
    set (d := dot a b) in *. set (A := dot a a) in *. set (B := dot b b) in *.
    set (u := x * x * B + y * y * A). set (v := 2 * (x * y * d)).
    assert (Hu : 0 <= u) by (unfold u; nra).
    assert (Hsq : v * v <= u * u).
    { assert (u * u - v * v
              = (x * x * B - y * y * A) * (x * x * B - y * y * A)
                + 4 * (x * x) * (y * y) * (A * B - d * d)) as Heq
        by (unfold u, v; ring).
      pose proof (Rle_0_sqr (x * x * B - y * y * A)) as Hs0. unfold Rsqr in Hs0.
      assert (0 <= 4 * (x * x) * (y * y) * (A * B - d * d)).
      { apply Rmult_le_pos; [|lra].
        pose proof (Rle_0_sqr (x * y)) as Hxy. unfold Rsqr in Hxy. nra. }
      lra. }
    assert (Hv : v <= u).
    { destruct (Rle_lt_dec v u) as [?|Hlt]; [done|]. exfalso.
      assert (u * u < v * v) by nra. lra. }
    unfold u, v in Hv. nra.
Qed.

Lemma dot_zero_l a b : dot a a = 0 → dot a b = 0.
Proof.
  intros Ha. pose proof (dot_Cauchy_Schwarz a b) as Hcs. rewrite Ha in Hcs.
  nra.
Qed.

(** [CosineSimilarity], guard by guard. *)
Lemma CosineSimilarity_cases_eq a b :
  CosineSimilarity a b
  = if bool_decide (length a ≠ length b ∨ length a = 0%nat) then 0
    else if Req_dec_T (dot a a) 0 then 0
    else if Req_dec_T (dot b b) 0 then 0
    else dot a b / (sqrt (dot a a) * sqrt (dot b b)).
Proof.
  unfold CosineSimilarity. case_bool_decide as Hg; [done|].
  rewrite foldl_accumulate by tauto. by rewrite !Rplus_0_l.
Qed.

(** In exact arithmetic [CosineSimilarity] lies between -1 and 1,
    whatever the two vectors. *)
Theorem CosineSimilarity_bounded a b : -1 <= CosineSimilarity a b <= 1.
Proof.
  rewrite CosineSimilarity_cases_eq.
  case_bool_decide; [lra|].
  destruct (Req_dec_T (dot a a) 0) as [|Ha]; [lra|].
  destruct (Req_dec_T (dot b b) 0) as [|Hb]; [lra|].
  pose proof (dot_self_nonneg a). pose proof (dot_self_nonneg b).
  pose proof (dot_Cauchy_Schwarz a b) as Hcs.
  assert (HA : 0 < sqrt (dot a a)) by (apply sqrt_lt_R0; lra).
  assert (HB : 0 < sqrt (dot b b)) by (apply sqrt_lt_R0; lra).
  set (s := sqrt (dot a a) * sqrt (dot b b)).
  assert (Hs : 0 < s) by (unfold s; nra).
  assert (Hss : s * s = dot a a * dot b b).
  { unfold s.
    replace (sqrt (dot a a) * sqrt (dot b b) * (sqrt (dot a a) * sqrt (dot b b)))
      with ((sqrt (dot a a) * sqrt (dot a a)) * (sqrt (dot b b) * sqrt (dot b b))) by ring.
    rewrite !sqrt_sqrt by lra. done. }
  assert (Hd : - s <= dot a b <= s).
  { split.
    - destruct (Rle_lt_dec (- s) (dot a b)) as [?|Hlt]; [done|]. exfalso. nra.
    - destruct (Rle_lt_dec (dot a b) s) as [?|Hlt]; [done|]. exfalso. nra. }
  split.
  - apply (Rmult_le_reg_r s); [done|]. unfold Rdiv.
    rewrite Rmult_assoc, Rinv_l by lra. lra.
  - apply (Rmult_le_reg_r s); [done|]. unfold Rdiv.
    rewrite Rmult_assoc, Rinv_l by lra. lra.
Qed.

(** [CosineSimilarity] does not depend on the order of its two
    arguments. *)
Theorem CosineSimilarity_symmetric a b : CosineSimilarity a b = CosineSimilarity b a.
Proof.
  rewrite !CosineSimilarity_cases_eq.
  destruct (decide (length a = length b)) as [Hlen|Hlen].
  - repeat case_bool_decide; try (exfalso; intuition congruence); [done|].
    destruct (Req_dec_T (dot a a) 0), (Req_dec_T (dot b b) 0); try done.
    rewrite (dot_comm a b). f_equal. ring.
  - rewrite !bool_decide_eq_true_2; [done|left; congruence|by left].
Qed.

(** [CosineSimilarity] is 0 exactly when the vectors differ in
    length or their inner product is 0; the latter covers an empty vector
    and a vector of zeros. *)
Theorem CosineSimilarity_zero_iff a b :
  CosineSimilarity a b = 0 ↔ length a ≠ length b ∨ dot a b = 0.
Proof.
  rewrite CosineSimilarity_cases_eq.
  case_bool_decide as Hg.
  - split; [intros _|done]. destruct Hg as [?|Hz]; [by left|right]. by destruct a.
  - destruct (Req_dec_T (dot a a) 0) as [Ha|Ha].
    { split; [intros _|done]. right. by apply dot_zero_l. }
    destruct (Req_dec_T (dot b b) 0) as [Hb|Hb].
    { split; [intros _|done]. right. rewrite dot_comm. by apply dot_zero_l. }
    pose proof (dot_self_nonneg a). pose proof (dot_self_nonneg b).
    assert (HA : 0 < sqrt (dot a a)) by (apply sqrt_lt_R0; lra).
    assert (HB : 0 < sqrt (dot b b)) by (apply sqrt_lt_R0; lra).
    assert (Hs : 0 < sqrt (dot a a) * sqrt (dot b b)) by nra.
    split.
    + intros Hz. right.
      apply (Rmult_eq_compat_r (sqrt (dot a a) * sqrt (dot b b))) in Hz.
      unfold Rdiv in Hz. rewrite Rmult_assoc, Rinv_l, Rmult_1_r, Rmult_0_l in Hz by lra.
      done.
    + intros [Hlen|Hd]; [tauto|]. rewrite Hd. unfold Rdiv. ring.
Qed.

End CosineMore.

(** ** The TF-IDF embedder: tokens and vocabulary *)
Module EmbedMore.
Import Embed EmbedFacts.

(** *** [tokenize] *)
Lemma alphanumeric_app s c :
  alphanumeric s = true → is_separator c = false →
  alphanumeric (s ++ String c "") = true.
Proof.
  unfold alphanumeric. intros Hs Hc. induction s as [|c' s IH]; simpl in *.
  - by rewrite Hc.
  - apply andb_true_iff in Hs as [-> Hs]. simpl. by apply IH.
Qed.

Lemma FieldsFunc_from_fields f s cur t :
  (∀ c, f c = is_separator c) →
  alphanumeric cur = true →
  t ∈ strings.FieldsFunc_from f s cur → t ≠ "" ∧ alphanumeric t = true.
Proof.
  intros Hf. revert cur. induction s as [|c s IH]; intros cur Hcur; simpl.
  - destruct (String.eqb cur "") eqn:E; [by intros ?%elem_of_nil|].
    intros ->%list_elem_of_singleton. split; [|done].
    intros ->. by rewrite String.eqb_refl in E.
  - destruct (f c) eqn:Hc.
    + destruct (String.eqb cur "") eqn:E; [by apply IH|].
      intros [->|Hin]%elem_of_cons; [|exact (IH "" eq_refl Hin)].
      split; [|done]. intros ->. by rewrite String.eqb_refl in E.
    + apply IH. apply alphanumeric_app; [done|]. by rewrite <-Hf.
Qed.

(** X22.  Every term [tokenize] returns has at least two bytes, all of
    them lower-case letters or digits. *)
Theorem tokenize_terms text term :
  term ∈ tokenize text → (2 ≤ String.length term)%nat ∧ alphanumeric term = true.
Proof.
  unfold tokenize. intros [Hlen Hin]%list_elem_of_filter. split; [done|].
  by eapply (FieldsFunc_from_fields is_separator _ "").
Qed.

(** *** The vocabulary *)

Lemma indexed_insert vocab termIndex term :
  indexed vocab termIndex → vocab !! term = None →
  indexed (<[term := termIndex]> vocab) (S termIndex).
Proof.
  intros (Hsize & Hlt & Hinj) Hnew. split_and!.
  - by rewrite map_size_insert_None, Hsize.
  - intros t i. rewrite lookup_insert. case_decide; [intros [= <-]; lia|].
    intros Hi%Hlt. lia.
  - intros t1 t2 i. rewrite !lookup_insert.
    repeat case_decide; subst; try done.
    + intros [= <-] Hi%Hlt. lia.
    + intros Hi%Hlt [= <-]. lia.
    + apply Hinj.
Qed.

Lemma scan_terms_indexed terms seen vocab termIndex :
  indexed vocab termIndex → (termIndex < EmbeddingDimension)%nat →
  let '(vocab', termIndex', returned) := scan_terms terms seen vocab termIndex in
  indexed vocab' termIndex'
  ∧ (termIndex' ≤ EmbeddingDimension)%nat
  ∧ (returned = false → (termIndex' < EmbeddingDimension)%nat).
Proof.
  revert seen vocab termIndex.
  induction terms as [|term rest IH]; intros seen vocab termIndex Hidx Hlt;
    cbn [scan_terms].
  - split_and!; [done|lia|done].
  - destruct (decide (term ∈ seen)); [by apply IH|].
    destruct (vocab !! term) eqn:Hv; [by apply IH|].
    pose proof (indexed_insert _ _ _ Hidx Hv) as Hidx'.
    destruct (EmbeddingDimension <=? S termIndex)%nat eqn:Hcap.
    + split_and!; [done|lia|done].
    + apply IH; [done|]. apply Nat.leb_gt in Hcap. lia.
Qed.

Lemma scan_docs_indexed docs vocab termIndex :
  indexed vocab termIndex → (termIndex < EmbeddingDimension)%nat →
  ∃ n, indexed (scan_docs docs vocab termIndex).1 n ∧ (n ≤ EmbeddingDimension)%nat.
Proof.
  revert vocab termIndex. induction docs as [|doc rest IH]; intros vocab termIndex Hidx Hlt;
    cbn [scan_docs].
  - exists termIndex. split; [done|lia].
  - pose proof (scan_terms_indexed (tokenize doc) ∅ vocab termIndex Hidx Hlt) as Hdoc.
    destruct (scan_terms (tokenize doc) ∅ vocab termIndex) as [[v i] returned].
    destruct Hdoc as (Hidx' & Hle & Hret).
    destruct returned; [by exists i|]. by apply IH; [|apply Hret].
Qed.

(** X23.  On an embedder whose vocabulary is empty, [BuildVocabulary]
    leaves at most [EmbeddingDimension] terms, every index below
    [EmbeddingDimension] (so inside the embedding vector), and no index
    given to two terms. *)
Theorem BuildVocabulary_indices docs e :
  vocab e = ∅ →
  (size (vocab (BuildVocabulary docs e)) ≤ EmbeddingDimension)%nat
  ∧ (∀ term i, vocab (BuildVocabulary docs e) !! term = Some i →
       (i < EmbeddingDimension)%nat)
  ∧ (∀ t1 t2 i, vocab (BuildVocabulary docs e) !! t1 = Some i →
       vocab (BuildVocabulary docs e) !! t2 = Some i → t1 = t2).
Proof.
  intros Hempty.
  assert (Hv : vocab (BuildVocabulary docs e) = (scan_docs docs ∅ 0).1).
  { unfold BuildVocabulary. rewrite Hempty. by destruct (scan_docs docs ∅ 0) as [v []]. }
  rewrite Hv.
  destruct (scan_docs_indexed docs ∅ 0) as (n & (Hsize & Hlt & Hinj) & Hn).
  - split_and!; [done|intros t i Hi; by rewrite lookup_empty in Hi
                 |intros t1 t2 i Hi; by rewrite lookup_empty in Hi].
  - unfold EmbeddingDimension. lia.
  - split_and!; [lia| |done]. intros term i Hi%Hlt. lia.
Qed.

(** A term of the vocabulary that [BuildVocabulary] builds on an
    empty one is a term of one of the documents. *)
Theorem BuildVocabulary_terms docs e term :
  vocab e = ∅ → is_Some (vocab (BuildVocabulary docs e) !! term) →
  ∃ doc, doc ∈ docs ∧ term ∈ tokenize doc.
Proof.
  intros Hempty Hterm.
  assert (Hv : vocab (BuildVocabulary docs e) = (scan_docs docs ∅ 0).1).
  { unfold BuildVocabulary. rewrite Hempty. by destruct (scan_docs docs ∅ 0) as [v []]. }
  rewrite Hv in Hterm.
  destruct (scan_docs_vocab docs ∅ 0 term Hterm) as [Hv0|Hpos].
  - rewrite lookup_empty in Hv0. by destruct Hv0.
  - unfold documents_containing in Hpos.
    destruct (filter (λ doc, term ∈ tokenize doc) docs) as [|doc rest] eqn:Hf;
      [simpl in Hpos; lia|].
    assert (Hin : doc ∈ filter (λ doc, term ∈ tokenize doc) docs)
      by (rewrite Hf; apply list_elem_of_here).
    apply list_elem_of_filter in Hin as [? ?]. eauto.
Qed.

Lemma tokenize_terms_witness :
  "beta" ∈ tokenize "Alpha, BETA! x"
  ∧ (2 ≤ String.length "beta")%nat ∧ alphanumeric "beta" = true.
Proof.
  assert (Hin : "beta" ∈ tokenize "Alpha, BETA! x") by (vm_compute; set_solver).
  split; [exact Hin|].
  exact (tokenize_terms "Alpha, BETA! x" "beta" Hin).
Defined.

Lemma BuildVocabulary_indices_witness :
  vocab NewTFIDFEmbedder = ∅
  ∧ (size (vocab (BuildVocabulary [doc_100_terms] NewTFIDFEmbedder))
     ≤ EmbeddingDimension)%nat.
Proof.
  assert (He : vocab NewTFIDFEmbedder = ∅) by reflexivity.
  split; [exact He|].
  exact (proj1 (BuildVocabulary_indices [doc_100_terms] NewTFIDFEmbedder He)).
Defined.

Lemma BuildVocabulary_terms_witness :
  vocab NewTFIDFEmbedder = ∅
  ∧ is_Some (vocab (BuildVocabulary [doc_3_terms] NewTFIDFEmbedder) !! "beta")
  ∧ ∃ doc, doc ∈ [doc_3_terms] ∧ "beta" ∈ tokenize doc.
Proof.
  assert (He : vocab NewTFIDFEmbedder = ∅) by reflexivity.
  assert (Hb : is_Some (vocab (BuildVocabulary [doc_3_terms] NewTFIDFEmbedder) !! "beta"))
    by (exists 1%nat; vm_compute; reflexivity).
  split; [exact He|]. split; [exact Hb|].
  exact (BuildVocabulary_terms [doc_3_terms] NewTFIDFEmbedder "beta" He Hb).
Defined.

Lemma idf_below_cap_all_witness :
  let docs := [doc_3_terms; "alpha"] in
  vocab NewTFIDFEmbedder = ∅
  ∧ (scan_docs docs ∅ 0).2 = false
  ∧ is_Some (vocab (ComputeIDF docs (BuildVocabulary docs NewTFIDFEmbedder)) !! "beta")
  ∧ (0 < documents_containing "beta" docs)%Z
  ∧ idf (ComputeIDF docs (BuildVocabulary docs NewTFIDFEmbedder)) !! "beta"
    = Some (Real (ln (IZR (Z.of_nat (length docs))
                      / IZR (documents_containing "beta" docs)))).
Proof.
  intros docs.
  assert (H1 : vocab NewTFIDFEmbedder = ∅) by reflexivity.
  assert (H2 : (scan_docs docs ∅ 0).2 = false) by (vm_compute; reflexivity).
  assert (H3 : is_Some (vocab (ComputeIDF docs (BuildVocabulary docs NewTFIDFEmbedder))
                        !! "beta")) by (exists 1%nat; vm_compute; reflexivity).
  split; [exact H1|]. split; [exact H2|]. split; [exact H3|].
  exact (idf_below_cap_all docs NewTFIDFEmbedder "beta" H1 H2 H3).
Defined.

End EmbedMore.

(** ** The persistent store: neighbours, traversal, full-text search *)
Module StorageMore.
Import Graph Storage Examples StorageFacts GraphQueries.

Section Facts.
Variable unmarshal_node : string → option GraphNode.
Variable unmarshal_rel : string → option GraphRelationship.
Variable db : list (string * item).

Abbreviation collect := (collect unmarshal_node unmarshal_rel db).
Abbreviation resolve := (resolve unmarshal_node unmarshal_rel db).
Abbreviation GetCallers := (GetCallers unmarshal_node unmarshal_rel db).
Abbreviation GetCallees := (GetCallees unmarshal_node unmarshal_rel db).
Abbreviation getNode := (getNode unmarshal_node db).
Abbreviation Traverse_loop := (Traverse_loop unmarshal_node unmarshal_rel db).
Abbreviation Traverse := (Traverse unmarshal_node unmarshal_rel db).

(** *** [GetCallers] and [GetCallees] *)
(** X25.  [GetCallees] fails only on an index entry whose value cannot be
    read, with the key of the first such entry; otherwise it returns, in
    key order, the targets of the relationships the entries name, leaving
    out every entry whose relationship or target node is not in the store
    or cannot be decoded.  [GetCallers] does the same with the sources. *)
Theorem neighbours_result nodeID :
  GetCallees nodeID
  = match List.find unreadable (iterate db (prefixOutgoing ++ nodeID ++ ":" ++ RelCalls)) with
    | Some entry => inr (ErrReadingRelID entry.1)
    | None => inl (omap (resolve Target)
                     (iterate db (prefixOutgoing ++ nodeID ++ ":" ++ RelCalls)))
    end
  ∧ GetCallers nodeID
    = match List.find unreadable (iterate db (prefixIncoming ++ nodeID ++ ":" ++ RelCalls)) with
      | Some entry => inr (ErrReadingRelID entry.1)
      | None => inl (omap (resolve Source)
                       (iterate db (prefixIncoming ++ nodeID ++ ":" ++ RelCalls)))
      end.
Proof.
  unfold Storage.GetCallees, Storage.GetCallers. rewrite !collect_result.
  split; by destruct (List.find _ _).
Qed.

(** *** [Traverse] *)
Lemma Traverse_loop_keys fuel startID depth direction queue visited result keys out :
  Forall2 (λ key node, getNode key = inl (Some node)) keys result →
  NoDup keys → (∀ key, key ∈ keys → key ∈ visited ∧ key ≠ startID) →
  Traverse_loop fuel startID depth direction queue visited result = Some out →
  ∃ keys', Forall2 (λ key node, getNode key = inl (Some node)) keys' out
           ∧ NoDup keys' ∧ startID ∉ keys'.
Proof.
  revert queue visited result keys.
  induction fuel as [|fuel IH]; intros queue visited result keys Hload Hnd Hkeys; [done|].
  simpl. destruct queue as [|current queue].
  - intros [= <-]. exists keys. split_and!; [done|done|].
    intros Hin. by destruct (Hkeys _ Hin).
  - destruct (decide (nodeID current ∈ visited)) as [Hv|Hv];
      [by apply (IH _ _ _ keys)|].
    assert (Hkeys' : ∀ key, key ∈ keys →
              key ∈ {[nodeID current]} ∪ visited ∧ key ≠ startID).
    { intros key Hin. destruct (Hkeys _ Hin). split; [set_solver|done]. }
    destruct (decide (nodeID current ≠ startID)) as [Hs|Hs].
    + destruct (getNode (nodeID current)) as [[node|]|err] eqn:Hget.
      * assert (Hstep : ∀ queue',
          Traverse_loop fuel startID depth direction queue'
            ({[nodeID current]} ∪ visited) (result ++ [node])%list = Some out →
          ∃ keys', Forall2 (λ key node, getNode key = inl (Some node)) keys' out
                   ∧ NoDup keys' ∧ startID ∉ keys').
        { intros queue'. apply (IH _ _ _ (keys ++ [nodeID current])%list).
          - apply Forall2_app; [done|]. by constructor.
          - apply NoDup_app. split_and!; [done| |apply NoDup_singleton].
            intros key Hin ->%list_elem_of_singleton. by destruct (Hkeys _ Hin).
          - intros key [Hin | Hk%list_elem_of_singleton]%elem_of_app;
              [by apply Hkeys'|subst key].
            split; [set_solver|done]. }
        destruct (Storage.depth current <? depth)%Z; [|apply Hstep].
        destruct (neighbors_of _ _ _ direction (nodeID current)); apply Hstep.
      * destruct (Storage.depth current <? depth)%Z; [|by apply (IH _ _ _ keys)].
        destruct (neighbors_of _ _ _ direction (nodeID current));
          by apply (IH _ _ _ keys).
      * by apply (IH _ _ _ keys).
    + destruct (Storage.depth current <? depth)%Z; [|by apply (IH _ _ _ keys)].
      destruct (neighbors_of _ _ _ direction (nodeID current));
        by apply (IH _ _ _ keys).
Qed.

(** X26.  [Traverse] returns a nil error and nodes that [getNode] has
    read, each under a key of its own, none of them under the start key:
    no key is visited twice and the start node is never in the result. *)
Theorem Traverse_visits_once startID depth direction :
  ∃ out keys, Traverse startID depth direction = Some (out, None)
    ∧ Forall2 (λ key node, getNode key = inl (Some node)) keys out
    ∧ NoDup keys ∧ startID ∉ keys.
Proof.
  destruct (Traverse_returns unmarshal_node unmarshal_rel db startID depth direction)
    as [out Hout].
  exists out. unfold Storage.Traverse in Hout.
  destruct (Traverse_loop _ _ _ _ _ _ _) as [out'|] eqn:Hloop; [|done].
  injection Hout as <-.
  destruct (Traverse_loop_keys _ _ _ _ _ _ _ [] _ ltac:(constructor) ltac:(constructor)
              ltac:(by intros ? ?%elem_of_nil) Hloop) as (keys & Hload & Hnd & Hs).
  exists keys. split_and!; try done.
  unfold Storage.Traverse. by rewrite Hloop.
Qed.

(** With a depth of 0 or less [Traverse] returns no node and no
    error, whatever the store holds. *)
Theorem Traverse_depth_zero startID depth direction :
  (depth ≤ 0)%Z → Traverse startID depth direction = Some ([], None).
Proof.
  intros Hdepth. unfold Storage.Traverse.
  assert (Hcap : (if (10 <? depth)%Z then 10%Z else depth) = depth).
  { by rewrite (proj2 (Z.ltb_ge 10 depth)) by lia. }
  rewrite Hcap.
  assert (Hw : queue_weight unmarshal_node unmarshal_rel db direction depth
                 [{| nodeID := startID; depth := 0 |}] = 1%nat).
  { unfold queue_weight, item_weight. simpl.
    replace (Z.to_nat (depth - 0)) with 0%nat by lia. done. }
  rewrite Hw. simpl.
  rewrite decide_False by set_solver.
  rewrite decide_False by (intros Hne; by apply Hne).
  by rewrite (proj2 (Z.ltb_ge 0 depth)) by lia.
Qed.

End Facts.

(** *** [FTSSearch] *)
Lemma count_postings_lookup nodeIDSet nodeIDs x :
  count_postings nodeIDSet nodeIDs !! x
  = if decide (length (filter (λ id, id = x) nodeIDs) = 0%nat) then nodeIDSet !! x
    else Some (default 0 (nodeIDSet !! x)
               + Z.of_nat (length (filter (λ id, id = x) nodeIDs)))%Z.
Proof.
  unfold count_postings. revert nodeIDSet.
  induction nodeIDs as [|id rest IH]; intros nodeIDSet; [done|].
  cbn [foldl]. rewrite IH, filter_cons.
  destruct (decide (id = x)) as [->|Hne].
  - rewrite lookup_insert_eq. cbn [length default].
    rewrite (decide_False (P := S _ = 0%nat)) by lia.
    case_decide as Hz; simpl; f_equal; lia.
  - rewrite lookup_insert_ne by done. done.
Qed.

Lemma match_tokens_from ftsIndex queryTokens nodeIDSet x :
  foldl (λ nodeIDSet token,
           match ftsIndex !! token with
           | Some nodeIDs => count_postings nodeIDSet nodeIDs
           | None => nodeIDSet
           end) nodeIDSet queryTokens !! x
  = if decide (postings_matched ftsIndex queryTokens x = 0%nat) then nodeIDSet !! x
    else Some (default 0 (nodeIDSet !! x)
               + Z.of_nat (postings_matched ftsIndex queryTokens x))%Z.
Proof.
  unfold postings_matched. revert nodeIDSet.
  induction queryTokens as [|token rest IH]; intros nodeIDSet; [done|].
  cbn [foldl sum_list_with]. rewrite IH.
  destruct (ftsIndex !! token) as [nodeIDs|]; simpl.
  - rewrite count_postings_lookup.
    repeat case_decide; try lia; try done; simpl; f_equal; lia.
  - repeat case_decide; try lia; done.
Qed.

(** The score map holds, for each node with a posting under a token of
    the query, the number of those postings. *)
Lemma match_tokens_lookup ftsIndex queryTokens x :
  match_tokens ftsIndex queryTokens !! x
  = if decide (postings_matched ftsIndex queryTokens x = 0%nat) then None
    else Some (Z.of_nat (postings_matched ftsIndex queryTokens x)).
Proof.
  unfold match_tokens. rewrite match_tokens_from, lookup_empty. simpl.
  by case_decide.
Qed.

(** [add_postings] appends the node's ID once for each occurrence of a
    token and takes no posting away. *)
Lemma add_postings_lookup nodeID tokens ftsIndex token :
  default [] (add_postings nodeID tokens ftsIndex !! token)
  = (default [] (ftsIndex !! token)
     ++ replicate (length (filter (λ t, t = token) tokens)) nodeID)%list.
Proof.
  unfold add_postings. revert ftsIndex.
  induction tokens as [|t rest IH]; intros ftsIndex; cbn [foldl].
  - by rewrite app_nil_r.
  - rewrite IH, filter_cons. destruct (decide (t = token)) as [->|Hne].
    + rewrite lookup_insert_eq. simpl. by rewrite <-app_assoc.
    + by rewrite lookup_insert_ne.
Qed.

Lemma add_postings_grows nodeID tokens ftsIndex token id :
  (length (filter (λ i, i = id) (default [] (ftsIndex !! token)))
   ≤ length (filter (λ i, i = id)
                    (default [] (add_postings nodeID tokens ftsIndex !! token))))%nat.
Proof. rewrite add_postings_lookup, filter_app, length_app. lia. Qed.

Lemma indexNodeForFTS_grows node ftsIndex token id :
  (length (filter (λ i, i = id) (default [] (ftsIndex !! token)))
   ≤ length (filter (λ i, i = id)
                    (default [] (indexNodeForFTS node ftsIndex !! token))))%nat.
Proof.
  unfold indexNodeForFTS. cbv zeta.
  repeat case_match;
    repeat (etrans; [|apply add_postings_grows]); done.
Qed.

Lemma indexNodeForFTS_name node ftsIndex token :
  token ∈ tokenizeForFTS (Name node) →
  (0 < length (filter (λ i, i = ID node)
                      (default [] (indexNodeForFTS node ftsIndex !! token))))%nat.
Proof.
  intros Hin.
  assert (Hname : (0 < length (filter (λ i, i = ID node)
            (default [] (add_postings (ID node) (tokenizeForFTS (Name node)) ftsIndex
                         !! token))))%nat).
  { rewrite add_postings_lookup, filter_app, length_app.
    destruct (filter (λ t, t = token) (tokenizeForFTS (Name node))) as [|t ts] eqn:Hf.
    - assert (Hin' : token ∈ filter (λ t, t = token) (tokenizeForFTS (Name node)))
        by (by apply list_elem_of_filter).
      rewrite Hf in Hin'. by apply elem_of_nil in Hin'.
    - simpl. rewrite filter_cons, decide_True by done. simpl. lia. }
  unfold indexNodeForFTS. cbv zeta. revert Hname.
  generalize (add_postings (ID node) (tokenizeForFTS (Name node)) ftsIndex).
  intros named Hname.
  repeat case_match;
    repeat (eapply Nat.lt_le_trans; [|apply add_postings_grows]); done.
Qed.

Lemma postings_matched_pos ftsIndex queryTokens token nodeID :
  token ∈ queryTokens →
  (0 < length (filter (λ i, i = nodeID) (default [] (ftsIndex !! token))))%nat →
  (0 < postings_matched ftsIndex queryTokens nodeID)%nat.
Proof.
  unfold postings_matched. intros Hin Hpos.
  induction queryTokens as [|t rest IH]; [by apply elem_of_nil in Hin|].
  simpl. apply elem_of_cons in Hin as [->|Hin]; [lia|]. specialize (IH Hin). lia.
Qed.

Section FullText.
Context `{MapRange} `{SortResults}.
Variable unmarshal_node : string → option GraphNode.
Variable db : list (string * item).

Abbreviation fetch_results := (fetch_results unmarshal_node db).
Abbreviation FTSSearch := (FTSSearch unmarshal_node db).

Lemma fetch_results_bound limit entries results :
  length results = 0%nat ∨ (Z.of_nat (length results) < limit)%Z →
  (Z.of_nat (length (fetch_results limit entries results)) ≤ Z.max 1 limit)%Z.
Proof.
  revert results. induction entries as [|[nodeID score] rest IH]; intros results Hlen; simpl.
  - lia.
  - destruct (Storage.getNode unmarshal_node db nodeID) as [[node|]|err]; try by apply IH.
    destruct (limit <=? _)%Z eqn:Hcap.
    + rewrite length_app in *. simpl in *. lia.
    + apply IH. right. apply Z.leb_gt in Hcap. lia.
Qed.

Lemma fetch_results_from limit entries results r :
  r ∈ fetch_results limit entries results →
  r ∈ results
  ∨ ∃ score node, (Search.NodeID r, score) ∈ entries
      ∧ Storage.getNode unmarshal_node db (Search.NodeID r) = inl (Some node)
      ∧ r = {| Search.NodeID := Search.NodeID r; Search.Score := inject_Z score;
               Search.NodeName := Name node; Search.FilePath := FilePath node;
               Search.Label := Label node;
               Search.Snippet := snippet_of (Content node) |}.
Proof.
  revert results. induction entries as [|[nodeID score] rest IH]; intros results; simpl.
  - by left.
  - assert (Hrest : r ∈ fetch_results limit rest results →
              r ∈ results
              ∨ ∃ score0 node, (Search.NodeID r, score0) ∈ (nodeID, score) :: rest
                  ∧ Storage.getNode unmarshal_node db (Search.NodeID r) = inl (Some node)
                  ∧ r = {| Search.NodeID := Search.NodeID r;
                           Search.Score := inject_Z score0;
                           Search.NodeName := Name node; Search.FilePath := FilePath node;
                           Search.Label := Label node;
                           Search.Snippet := snippet_of (Content node) |}).
    { intros [?|(s & n & Hin & ? & ?)]%IH; [by left|right].
      exists s, n. split_and!; [by apply list_elem_of_further|done..]. }
    destruct (Storage.getNode unmarshal_node db nodeID) as [[node|]|err] eqn:Hget;
      try exact Hrest.
    set (new := {| Search.NodeID := nodeID; Search.Score := inject_Z score;
                   Search.NodeName := Name node; Search.FilePath := FilePath node;
                   Search.Label := Label node;
                   Search.Snippet := snippet_of (Content node) |}).
    assert (Hnew : r ∈ (results ++ [new])%list →
              r ∈ results
              ∨ ∃ score0 node0, (Search.NodeID r, score0) ∈ (nodeID, score) :: rest
                  ∧ Storage.getNode unmarshal_node db (Search.NodeID r) = inl (Some node0)
                  ∧ r = {| Search.NodeID := Search.NodeID r;
                           Search.Score := inject_Z score0;
                           Search.NodeName := Name node0;
                           Search.FilePath := FilePath node0;
                           Search.Label := Label node0;
                           Search.Snippet := snippet_of (Content node0) |}).
    { intros [?|Hr%list_elem_of_singleton]%elem_of_app; [by left|right]. subst r.
      exists score, node. split_and!; [apply list_elem_of_here|done|done]. }
    destruct (limit <=? _)%Z; [exact Hnew|].
    intros [Hr|(s & n & Hin & ? & ?)]%IH; [by apply Hnew|right].
    exists s, n. split_and!; [by apply list_elem_of_further|done..].
Qed.

Lemma fetch_results_NoDup limit entries results :
  NoDup entries.*1 → NoDup (Search.NodeID <$> results) →
  (∀ id, id ∈ Search.NodeID <$> results → id ∉ entries.*1) →
  NoDup (Search.NodeID <$> fetch_results limit entries results).
Proof.
  revert results. induction entries as [|[nodeID score] rest IH];
    intros results Hnd Hres Hdis; simpl; [done|].
  rewrite fmap_cons in Hnd, Hdis. apply NoDup_cons in Hnd as [Hfresh Hnd].
  assert (Hdis' : ∀ id, id ∈ Search.NodeID <$> results → id ∉ rest.*1).
  { intros id Hin. specialize (Hdis id Hin). by apply not_elem_of_cons in Hdis as [_ ?]. }
  assert (Hnew : ∀ new, Search.NodeID new = nodeID →
            NoDup (Search.NodeID <$> (results ++ [new])%list)
            ∧ ∀ id, id ∈ Search.NodeID <$> (results ++ [new])%list → id ∉ rest.*1).
  { intros new Hid. rewrite fmap_app. simpl. rewrite Hid. split.
    - apply NoDup_app. split_and!; [done| |apply NoDup_singleton].
      intros id Hin Hs%list_elem_of_singleton. subst id.
      specialize (Hdis _ Hin). apply Hdis. apply list_elem_of_here.
    - intros id [Hin | Hs%list_elem_of_singleton]%elem_of_app; [by apply Hdis'|].
      by subst id. }
  destruct (Storage.getNode unmarshal_node db nodeID) as [[node|]|err];
    try by apply IH.
  match goal with |- context [(results ++ [?new])%list] =>
    destruct (Hnew new eq_refl) as [Hnd' Hdis'']
  end.
  destruct (limit <=? _)%Z; [done|]. by apply IH.
Qed.

(** X27.  [FTSSearch] returns no node twice; it returns at most [limit]
    results, or one if [limit] is below 1; and every result is a node that
    [getNode] reads from the store, with as score the number of its
    postings under the tokens of the query. *)
Theorem FTSSearch_result ftsIndex query limit :
  NoDup (Search.NodeID <$> FTSSearch ftsIndex query limit)
  ∧ (Z.of_nat (length (FTSSearch ftsIndex query limit)) ≤ Z.max 1 limit)%Z
  ∧ ∀ r, r ∈ FTSSearch ftsIndex query limit →
      ∃ index node,
        ftsIndex = Some index
        ∧ (0 < postings_matched index (tokenizeForFTS query) (Search.NodeID r))%nat
        ∧ Storage.getNode unmarshal_node db (Search.NodeID r) = inl (Some node)
        ∧ r = {| Search.NodeID := Search.NodeID r;
                 Search.Score :=
                   inject_Z (Z.of_nat (postings_matched index (tokenizeForFTS query)
                                         (Search.NodeID r)));
                 Search.NodeName := Name node; Search.FilePath := FilePath node;
                 Search.Label := Label node;
                 Search.Snippet := snippet_of (Content node) |}.
Proof.
  unfold Storage.FTSSearch.
  destruct ftsIndex as [index|];
    [|split_and!; [constructor|simpl; lia|by intros ? ?%elem_of_nil]].
  cbv zeta.
  destruct (length (tokenizeForFTS query) =? 0)%nat;
    [split_and!; [constructor|simpl; lia|by intros ? ?%elem_of_nil]|].
  destruct (size (match_tokens index (tokenizeForFTS query)) =? 0)%nat;
    [split_and!; [constructor|simpl; lia|by intros ? ?%elem_of_nil]|].
  set (S := match_tokens index (tokenizeForFTS query)).
  split_and!.
  - rewrite (sort_results_perm (fetch_results limit (range S) [])).
    apply fetch_results_NoDup; [apply NoDup_fst_range|constructor|].
    by intros id ?%elem_of_nil.
  - rewrite (sort_results_perm (fetch_results limit (range S) [])).
    apply fetch_results_bound. by left.
  - intros r Hr. rewrite (sort_results_perm (fetch_results limit (range S) [])) in Hr.
    apply fetch_results_from in Hr as [Hr|(score & node & Hin & Hget & Heq)];
      [by apply elem_of_nil in Hr|].
    apply elem_of_range in Hin. unfold S in Hin. rewrite match_tokens_lookup in Hin.
    case_decide as Hz; [done|]. injection Hin as <-.
    exists index, node. split_and!; [done|lia|done|done].
Qed.

(** Without the [break], every entry whose node can be read yields a
    result. *)
Lemma fetch_results_all limit entries results nodeID score node :
  (Z.of_nat (length results + length entries) ≤ limit)%Z →
  (nodeID, score) ∈ entries →
  Storage.getNode unmarshal_node db nodeID = inl (Some node) →
  ∃ r, r ∈ fetch_results limit entries results ∧ Search.NodeID r = nodeID.
Proof.
  revert results. induction entries as [|[id sc] rest IH]; intros results Hlen Hin Hget;
    [by apply elem_of_nil in Hin|].
  simpl in *.
  assert (Hkeep : ∀ results', (Z.of_nat (length results' + length rest) ≤ limit)%Z →
            ∀ r, r ∈ results' → r ∈ fetch_results limit rest results').
  { clear. induction rest as [|[id sc] rest IHr]; intros results' Hlen r Hr; simpl; [done|].
    simpl in Hlen.
    destruct (Storage.getNode unmarshal_node db id) as [[node|]|err];
      try (apply IHr; [lia|done]).
    destruct (limit <=? _)%Z; [apply elem_of_app; by left|].
    apply IHr; [rewrite length_app; simpl; lia|]. apply elem_of_app. by left. }
  apply elem_of_cons in Hin as [[= <- <-]|Hin].
  - rewrite Hget.
    exists {| Search.NodeID := nodeID; Search.Score := inject_Z score;
              Search.NodeName := Name node; Search.FilePath := FilePath node;
              Search.Label := Label node; Search.Snippet := snippet_of (Content node) |}.
    split; [|reflexivity].
    destruct (limit <=? _)%Z; [apply elem_of_app; right; apply list_elem_of_here|].
    apply Hkeep; [rewrite length_app; simpl; lia|].
    apply elem_of_app. right. apply list_elem_of_here.
  - destruct (Storage.getNode unmarshal_node db id) as [[node'|]|err];
      try (apply IH; [lia|done|done]).
    destruct (limit <=? _)%Z eqn:Hcap.
    + apply Z.leb_le in Hcap. rewrite length_app in Hcap. simpl in Hcap.
      destruct rest; [by apply elem_of_nil in Hin|]. simpl in Hlen. lia.
    + apply IH; [rewrite length_app; simpl; lia|done|done].
Qed.

(** X28.  A node that [indexNodeForFTS] has indexed is found by a search
    for any text that shares a token with its name, if its record can be
    read and [limit] is not below the number of matching nodes. *)
Theorem indexed_node_is_found node ftsIndex query limit token stored :
  token ∈ tokenizeForFTS (Name node) → token ∈ tokenizeForFTS query →
  Storage.getNode unmarshal_node db (ID node) = inl (Some stored) →
  (Z.of_nat (size (match_tokens (indexNodeForFTS node ftsIndex) (tokenizeForFTS query)))
   ≤ limit)%Z →
  ∃ r, r ∈ FTSSearch (Some (indexNodeForFTS node ftsIndex)) query limit
       ∧ Search.NodeID r = ID node ∧ Search.NodeName r = Name stored.
Proof.
  intros Hname Hquery Hget Hlimit. unfold Storage.FTSSearch. cbv zeta.
  set (index := indexNodeForFTS node ftsIndex) in *.
  set (scores := match_tokens index (tokenizeForFTS query)) in *.
  assert (Hpos : (0 < postings_matched index (tokenizeForFTS query) (ID node))%nat).
  { eapply postings_matched_pos; [exact Hquery|]. by apply indexNodeForFTS_name. }
  assert (Hscore : scores !! ID node
                   = Some (Z.of_nat (postings_matched index (tokenizeForFTS query) (ID node)))).
  { unfold scores. rewrite match_tokens_lookup. by rewrite decide_False by lia. }
  destruct (tokenizeForFTS query) as [|t ts] eqn:Htok; [by apply elem_of_nil in Hquery|].
  cbn [length Nat.eqb].
  assert (Hsize : size scores ≠ 0%nat).
  { intros Hz. apply map_size_empty_iff in Hz. rewrite Hz in Hscore.
    by rewrite lookup_empty in Hscore. }
  rewrite (proj2 (Nat.eqb_neq _ _) Hsize).
  destruct (fetch_results_all limit (range scores) [] (ID node)
              (Z.of_nat (postings_matched index (t :: ts) (ID node))) stored)
    as (r & Hr & Hid).
  - simpl. rewrite length_range. done.
  - apply elem_of_range. exact Hscore.
  - done.
  - exists r. rewrite (sort_results_perm (fetch_results limit (range scores) [])).
    split_and!; [done|done|].
    apply fetch_results_from in Hr as [Hr|(score & node' & _ & Hget' & ->)];
      [by apply elem_of_nil in Hr|].
    simpl in *. rewrite Hid in Hget'. congruence.
Qed.

End FullText.

(** Insertion sort keeps the contract of [sort.Slice]. *)
Lemma insert_result_perm x l : insert_result x l ≡ₚ x :: l.
Proof.
  induction l as [|y rest IH]; simpl; [done|].
  destruct (Qle_bool (Search.Score y) (Search.Score x)); [done|].
  rewrite IH. apply Permutation_swap.
Qed.

Lemma insertion_sort_results_perm l : insertion_sort_results l ≡ₚ l.
Proof.
  induction l as [|x l IH]; simpl; [done|].
  by rewrite insert_result_perm, IH.
Qed.

Lemma insert_result_sorted x l :
  StronglySorted (λ a b, (Search.Score b <= Search.Score a)%Q) l →
  StronglySorted (λ a b, (Search.Score b <= Search.Score a)%Q) (insert_result x l).
Proof.
  induction 1 as [|y rest Hrest IH Hy]; simpl.
  - by repeat constructor.
  - destruct (Qle_bool (Search.Score y) (Search.Score x)) eqn:E.
    + apply Qle_bool_iff in E. constructor; [by constructor|].
      constructor; [done|]. eapply Forall_impl; [exact Hy|].
      intros z Hz. simpl in *. by eapply Qle_trans.
    + constructor; [done|].
      assert (Search.Score x <= Search.Score y)%Q as Hxy.
      { apply Qlt_le_weak, Qnot_le_lt. intros Hle%Qle_bool_iff. congruence. }
      rewrite (insert_result_perm x rest). by constructor.
Qed.

Lemma insertion_sort_results_sorted l :
  StronglySorted (λ a b, (Search.Score b <= Search.Score a)%Q) (insertion_sort_results l).
Proof.
  induction l as [|x l IH]; simpl; [constructor|]. by apply insert_result_sorted.
Qed.

Lemma sorted_results_lookup l i j x y :
  StronglySorted (λ a b, (Search.Score b <= Search.Score a)%Q) l →
  (i < j)%nat → l !! i = Some x → l !! j = Some y →
  (Search.Score y <= Search.Score x)%Q.
Proof.
  intros Hl. revert i j. induction Hl as [|z rest Hrest IH Hz]; intros i j Hij Hi Hj; [done|].
  destruct i as [|i], j as [|j]; try lia; simpl in *.
  - injection Hi as ->. eapply Forall_forall in Hz; [exact Hz|].
    by eapply list_elem_of_lookup_2.
  - eapply (IH i j); [lia|done..].
Qed.

#[local] Program Instance insertion_SortResults : SortResults :=
  {| sort_results := insertion_sort_results |}.
Next Obligation. apply insertion_sort_results_perm. Qed.
Next Obligation.
  intros l i j x y Hij Hi Hj Hlt.
  pose proof (sorted_results_lookup _ _ _ _ _ (insertion_sort_results_sorted l) Hij Hi Hj)
    as Hle.
  by apply Qle_not_lt in Hle.
Qed.

Lemma indexed_node_is_found_witness :
  ∃ r, r ∈ FTSSearch decode_node db_search (Some (indexNodeForFTS fn_parseUser ∅))
             "parseUser()" 10
       ∧ Search.NodeID r = ID fn_parseUser ∧ Search.NodeName r = Name fn_parseUser.
Proof.
  apply (indexed_node_is_found decode_node db_search fn_parseUser ∅ "parseUser()" 10
           "parseuser" fn_parseUser).
  - vm_compute. apply list_elem_of_here.
  - vm_compute. apply list_elem_of_here.
  - vm_compute. reflexivity.
  - vm_compute. discriminate.
Defined.

Lemma Traverse_depth_zero_witness :
  (0 ≤ 0)%Z
  ∧ Storage.Traverse decode_node decode_rel db_calls "function:x.go:a" 0 "callees"
    = Some ([], None).
Proof.
  assert (Hd : (0 ≤ 0)%Z) by lia.
  split; [exact Hd|].
  exact (Traverse_depth_zero decode_node decode_rel db_calls "function:x.go:a" 0
           "callees" Hd).
Defined.

End StorageMore.

(** ** The pipeline: its results and its failures *)
Module PipelineMore.
Import Pipeline Examples PipelineFacts.

Section Facts.
Variables FileEntry ParseData Graph Store Err : Type.
Variable WalkRepo : string → list FileEntry + Err.
Variable NewKnowledgeGraph : Graph.
Variable ProcessStructure : list FileEntry → Graph → Graph.
Variable ProcessParsing : list FileEntry → Graph → ParseData * Graph.
Variable ProcessImports ProcessCalls ProcessHeritage ProcessTypes : ParseData → Graph → Graph.
Variable ProcessProcesses DetectCommunities ProcessDeadCode : Graph → Z * Graph.
Variable ProcessCoupling : Graph → string → Z * Graph.
Variable GenerateAndStoreEmbeddings : Graph → Store → option Err * Store.
Variable StoreBulkLoad : Graph → Store → option Err * Store.
Variable countSymbols RelationshipCount : Graph → Z.
Variable no_nodes : Graph → bool.

Abbreviation RunPipeline :=
  (RunPipeline FileEntry ParseData Graph Store Err WalkRepo NewKnowledgeGraph
     ProcessStructure ProcessParsing ProcessImports ProcessCalls ProcessHeritage
     ProcessTypes ProcessProcesses DetectCommunities ProcessDeadCode ProcessCoupling
     GenerateAndStoreEmbeddings StoreBulkLoad countSymbols RelationshipCount no_nodes).
Abbreviation graph_after_phases :=
  (graph_after_phases FileEntry ParseData Graph NewKnowledgeGraph
     ProcessStructure ProcessParsing ProcessImports ProcessCalls ProcessHeritage
     ProcessTypes ProcessProcesses DetectCommunities ProcessDeadCode ProcessCoupling).

Implicit Types w : world Graph Store.

Lemma bind_run {A B} (c : M Graph Store A) (k : A → M Graph Store B) w :
  (c ≫= k) w = match c w with Some (x, w') => k x w' | None => None end.
Proof. done. Qed.

Lemma report_run progress name finished w :
  report Graph Store progress name finished w
  = Some (tt, {| graph := graph w; store := store w;
                 trace := (trace w ++ if progress then [Progress name finished] else [])%list |}).
Proof.
  destruct progress; simpl; [done|]. unfold mret, M_ret. rewrite app_nil_r. by destruct w.
Qed.

Lemma emit_run e w :
  emit Graph Store e w
  = Some (tt, {| graph := graph w; store := store w; trace := (trace w ++ [e])%list |}).
Proof. done. Qed.

Lemma call_run {A} p (f : Graph → A * Graph) w :
  call Graph Store p f w
  = Some ((f (graph w)).1,
          {| graph := (f (graph w)).2; store := store w;
             trace := (trace w ++ [Enter p; Return p])%list |}).
Proof.
  unfold call. rewrite bind_run, emit_run. rewrite bind_run. cbn [graph store trace].
  destruct (f (graph w)) as [x g]. rewrite bind_run, emit_run. cbn [graph store trace fst snd].
  unfold mret, M_ret. by rewrite <-app_assoc.
Qed.

Lemma get_run {A} (f : world Graph Store → A) w : get Graph Store f w = Some (f w, w).
Proof. done. Qed.

Lemma cond_emit_run (b : bool) e w :
  (if b then emit Graph Store e else mret tt) w
  = Some (tt, {| graph := graph w; store := store w;
                 trace := (trace w ++ if b then [e] else [])%list |}).
Proof.
  destruct b; [done|]. unfold mret, M_ret. rewrite app_nil_r. by destruct w.
Qed.

(** One step of a run: the next computation of a sequence is evaluated. *)
Ltac run :=
  rewrite bind_run;
  first [ rewrite report_run | rewrite call_run | rewrite emit_run | rewrite get_run
        | rewrite cond_emit_run ];
  cbn [graph store trace fst snd in_place].

(** The run up to the end of the dead-code phase. *)
Ltac run_analysis Hwalk :=
  unfold Pipeline.RunPipeline; rewrite Hwalk;
  do 3 run; unfold Pipeline.phases; do 32 run.

(** X29.  Called without a store and with embeddings enabled,
    [RunPipeline] panics after the dead-code phase, in
    [GenerateAndStoreEmbeddings], unless the graph has no node. *)
Theorem RunPipeline_nil_store_panics repoPath entries progress :
  WalkRepo repoPath = inl entries →
  no_nodes (graph_after_phases repoPath entries) = false →
  RunPipeline repoPath None progress true = None.
Proof.
  intros Hwalk Hnodes. unfold Pipeline.graph_after_phases in Hnodes.
  destruct (ProcessParsing entries (ProcessStructure entries NewKnowledgeGraph))
    as [parseData g3] eqn:Hparse.
  run_analysis Hwalk. rewrite Hparse. cbn [fst snd].
  rewrite bind_run, bind_run, emit_run. cbn [graph store trace].
  rewrite bind_run. unfold embed at 1. cbn [graph store trace].
  by rewrite Hnodes.
Qed.

(** X30.  With a store, once the walk has succeeded, [RunPipeline] hands
    [BulkLoad] the graph of the phases and the store as the embedding step
    left it; an error of [BulkLoad] is the error of the run, an error of
    the embedding step is dropped, and the counts of the result are those
    of the walk and of the final graph. *)
Theorem RunPipeline_result repoPath entries (s : Store) (progress embeddings : bool) :
  WalkRepo repoPath = inl entries →
  let G := graph_after_phases repoPath entries in
  let s1 := if embeddings then (GenerateAndStoreEmbeddings G s).2 else s in
  ∃ r w, RunPipeline repoPath (Some s) progress embeddings = Some (r, w)
    ∧ graph w = G ∧ store w = Some (StoreBulkLoad G s1).2
    ∧ match (StoreBulkLoad G s1).1 with
      | Some err => r = inr err
      | None => ∃ res, r = inl res ∧ Files res = Z.of_nat (length entries)
                       ∧ Symbols res = countSymbols G
                       ∧ Relationships res = RelationshipCount G
      end.
Proof.
  intros Hwalk G s1. subst G s1. unfold Pipeline.graph_after_phases.
  destruct (ProcessParsing entries (ProcessStructure entries NewKnowledgeGraph))
    as [parseData g3] eqn:Hparse.
  run_analysis Hwalk. rewrite Hparse. cbn [fst snd].
  set (G := (ProcessDeadCode _).2).
  destruct embeddings.
  - rewrite bind_run, bind_run, emit_run. cbn [graph store trace].
    rewrite bind_run. unfold embed at 1. cbn [graph store trace].
    destruct (GenerateAndStoreEmbeddings G s) as [err s'] eqn:Hemb.
    rewrite emit_run. cbn [graph store trace snd].
    do 6 run. rewrite bind_run. cbn [graph store trace].
    destruct (StoreBulkLoad G s') as [[err'|] s2]; cbn [fst snd].
    + unfold mret, M_ret. eexists _, _. split; [done|]. by split_and!.
    + rewrite bind_run, report_run. cbn [graph store trace].
      unfold mret, M_ret. eexists _, _. split; [done|]. split_and!; try done.
      eexists. by split_and!.
  - rewrite bind_run. unfold mret at 1, M_ret at 1.
    do 6 run. rewrite bind_run. cbn [graph store trace].
    destruct (StoreBulkLoad G s) as [[err'|] s2]; cbn [fst snd].
    + unfold mret, M_ret. eexists _, _. split; [done|]. by split_and!.
    + rewrite bind_run, report_run. cbn [graph store trace].
      unfold mret, M_ret. eexists _, _. split; [done|]. split_and!; try done.
      eexists. by split_and!.
Qed.

(** When the walk fails, [RunPipeline] returns its error; no phase
    after the walk is entered and the store is not touched. *)
Theorem RunPipeline_walk_error repoPath err backend progress embeddings :
  WalkRepo repoPath = inr err →
  RunPipeline repoPath backend progress embeddings
  = Some (inr err,
          {| graph := NewKnowledgeGraph; store := backend;
             trace := ((if progress then [Progress "Walking files" false] else [])
                       ++ [Enter Walk])%list |}).
Proof.
  intros Hwalk. unfold Pipeline.RunPipeline. rewrite Hwalk. do 2 run. done.
Qed.

End Facts.

Lemma RunPipeline_nil_store_panics_witness : names_pipeline None false true = None.
Proof.
  apply (RunPipeline_nil_store_panics string unit (list string) (list string) string
           (λ _, inl ["a.go"]) [] (λ es g, (g ++ es)%list) (λ _ g, (tt, g))
           (λ _ g, g) (λ _ g, g) (λ _ g, g) (λ _ g, g)
           (λ g, (0%Z, g)) (λ g, (0%Z, g)) (λ g, (0%Z, g)) (λ g _, (0%Z, g))
           (λ g s, (None, (s ++ g)%list)) (λ g _, (None, g))
           (λ g, Z.of_nat (length g)) (λ _, 0%Z) (λ g, match g with [] => true | _ => false end)
           "/repo" ["a.go"] false); reflexivity.
Defined.

Lemma RunPipeline_result_witness :
  ∃ r w, names_pipeline (Some ["seen"]) false true = Some (r, w)
    ∧ graph w = ["a.go"] ∧ store w = Some ["a.go"]
    ∧ ∃ res, r = inl res ∧ Files res = 1%Z ∧ Symbols res = 1%Z ∧ Relationships res = 0%Z.
Proof.
  exact (RunPipeline_result string unit (list string) (list string) string
           (λ _, inl ["a.go"]) [] (λ es g, (g ++ es)%list) (λ _ g, (tt, g))
           (λ _ g, g) (λ _ g, g) (λ _ g, g) (λ _ g, g)
           (λ g, (0%Z, g)) (λ g, (0%Z, g)) (λ g, (0%Z, g)) (λ g _, (0%Z, g))
           (λ g s, (None, (s ++ g)%list)) (λ g _, (None, g))
           (λ g, Z.of_nat (length g)) (λ _, 0%Z) (λ g, match g with [] => true | _ => false end)
           "/repo" ["a.go"] ["seen"] false true eq_refl).
Defined.

Lemma RunPipeline_walk_error_witness :
  Pipeline.RunPipeline unit unit unit unit string
    (λ _, inr "no such directory") tt (λ _ g, g) (λ _ g, (tt, g))
    (λ _ g, g) (λ _ g, g) (λ _ g, g) (λ _ g, g)
    (λ g, (0%Z, g)) (λ g, (0%Z, g)) (λ g, (0%Z, g)) (λ g _, (0%Z, g))
    (λ _ s, (None, s)) (λ _ s, (None, s)) (λ _, 0%Z) (λ _, 0%Z) (λ _, true)
    "/repo" (Some tt) true true
  = Some (inr "no such directory",
          {| graph := tt; store := Some tt;
             trace := [Progress "Walking files" false; Enter Walk] |}).
Proof.
  exact (RunPipeline_walk_error unit unit unit unit string
           (λ _, inr "no such directory") tt (λ _ g, g) (λ _ g, (tt, g))
           (λ _ g, g) (λ _ g, g) (λ _ g, g) (λ _ g, g)
           (λ g, (0%Z, g)) (λ g, (0%Z, g)) (λ g, (0%Z, g)) (λ g _, (0%Z, g))
           (λ _ s, (None, s)) (λ _ s, (None, s)) (λ _, 0%Z) (λ _, 0%Z) (λ _, true)
           "/repo" "no such directory" (Some tt) true true eq_refl).
Defined.
End PipelineMore.

